(** * Beamforming vectors from time-frequency masks

    A shallow embedding of [nt/speech_enhancement/beamformer.py]: weighted
    power-spectral-density estimation and the PCA, MVDR, GEV and LCMV
    beamforming vectors, together with the mask-based wrappers.

    Numbers are idealised: a [float64] is a real number and a [complex128]
    a pair of reals, so that every statement below is one of exact
    arithmetic.  Arrays are NumPy [ndarray]s: a shape and an element for
    every index.  The LAPACK drivers behind [numpy.linalg.solve],
    [numpy.linalg.eigh], [scipy.linalg.eigh] and [scipy.linalg.eig] are
    parameters of the development. *)

From Stdlib Require Import String Reals Lra List ZArith Lia Bool ClassicalEpsilon.
Import ListNotations.

Set Implicit Arguments.

(** ** Complex numbers *)

Definition C : Type := (R * R)%type.

Definition RtoC (x : R) : C := (x, 0%R).
Definition C0 : C := RtoC 0.
Definition C1 : C := RtoC 1.
Definition Cplus (a b : C) : C := ((fst a + fst b)%R, (snd a + snd b)%R).
Definition Copp (a : C) : C := ((- fst a)%R, (- snd a)%R).
Definition Cmult (a b : C) : C :=
  ((fst a * fst b - snd a * snd b)%R, (fst a * snd b + snd a * fst b)%R).
Definition Cconj (a : C) : C := (fst a, (- snd a)%R).
Definition Cnorm2 (a : C) : R := (fst a * fst a + snd a * snd a)%R.
Definition Cinv (a : C) : C :=
  ((fst a / Cnorm2 a)%R, (- snd a / Cnorm2 a)%R).
Definition Cdiv (a b : C) : C := Cmult a (Cinv b).
Definition Cmod (a : C) : R := sqrt (Cnorm2 a).

Declare Scope C_scope.
Delimit Scope C_scope with C.
Bind Scope C_scope with C.
Infix "+" := Cplus : C_scope.
Infix "*" := Cmult : C_scope.
Infix "/" := Cdiv : C_scope.
Notation "- x" := (Copp x) : C_scope.

(** [sum(f(t) for t in range(n))] over the complex and over the real numbers. *)
Fixpoint Csum (n : nat) (f : nat -> C) : C :=
  match n with
  | O => C0
  | S k => Cplus (Csum k f) (f k)
  end.

Fixpoint Rsum (n : nat) (f : nat -> R) : R :=
  match n with
  | O => 0%R
  | S k => (Rsum k f + f k)%R
  end.

(** Decidable equality of complex numbers, used by the reference solver. *)
Definition Ceq_dec (a b : C) : {a = b} + {a <> b}.
Proof.
  destruct a as [a1 a2], b as [b1 b2].
  destruct (Req_dec_T a1 b1) as [H1 | H1].
  - destruct (Req_dec_T a2 b2) as [H2 | H2].
    + left. now subst.
    + right. intros E. inversion E. contradiction.
  - right. intros E. inversion E. contradiction.
Defined.

(** ** Exceptions and results *)

Inductive exn : Type :=
| ValueError (msg : string)
| LinAlgError
| ZeroDivisionError
| AxisError
| IndexError
| TypeError.

Inductive result (A : Type) : Type :=
| Ok (a : A)
| Raise (e : exn).
Arguments Ok {A} a.
Arguments Raise {A} e.

Definition rbind {A B : Type} (r : result A) (k : A -> result B) : result B :=
  match r with
  | Ok a => k a
  | Raise e => Raise e
  end.

Declare Scope res_scope.
Delimit Scope res_scope with res.
Notation "x <- r ;; k" := (rbind r (fun x => k))
  (at level 61, r at next level, right associativity) : res_scope.
Notation "'check' b 'else' e ;; k" := (if b then k else Raise e)
  (at level 61, b at next level, e at next level, right associativity) : res_scope.

(** ** N-dimensional arrays *)

Record ndarray (A : Type) : Type := mkarr {
  shape : list nat;
  data : list nat -> A
}.
Arguments mkarr {A} shape data.

Definition ndim {A} (a : ndarray A) : nat := length (shape a).

(** [idx] addresses an element of an array of shape [s]. *)
Definition in_shape (s idx : list nat) : Prop := Forall2 lt idx s.

(** Two arrays are the same array when they have the same shape and the same
    element at every index of that shape. *)
Definition arr_eq {A} (a b : ndarray A) : Prop :=
  shape a = shape b /\ forall idx, in_shape (shape a) idx -> data a idx = data b idx.

(** All indices of a shape, in row-major order. *)
Fixpoint indices (s : list nat) : list (list nat) :=
  match s with
  | [] => [[]]
  | n :: s' => flat_map (fun i => map (cons i) (indices s')) (seq 0 n)
  end.

Definition size_of (s : list nat) : nat := fold_right Nat.mul 1 s.

(** Row-major position of an index and back ([numpy.ravel_multi_index],
    [numpy.unravel_index]). *)
Fixpoint ravel (s idx : list nat) : nat :=
  match s, idx with
  | n :: s', i :: idx' => i * size_of s' + ravel s' idx'
  | _, _ => 0
  end.

Fixpoint unravel (s : list nat) (k : nat) : list nat :=
  match s with
  | [] => []
  | n :: s' => (k / size_of s') mod n :: unravel s' (k mod size_of s')
  end.

(** A Python axis argument, possibly negative, against [n] dimensions. *)
Definition norm_axis (n : nat) (ax : Z) : option nat :=
  if ((- Z.of_nat n <=? ax) && (ax <? Z.of_nat n))%Z
  then Some (Z.to_nat (ax mod Z.of_nat n))
  else None.

(** *** Broadcasting *)

Definition bdim (a b : nat) : option nat :=
  if a =? b then Some a
  else if a =? 1 then Some b
  else if b =? 1 then Some a
  else None.

(** Broadcast of two shapes given last axis first. *)
Fixpoint bshape_rev (s1 s2 : list nat) : option (list nat) :=
  match s1, s2 with
  | [], _ => Some s2
  | _, [] => Some s1
  | a :: s1', b :: s2' =>
      match bdim a b, bshape_rev s1' s2' with
      | Some d, Some s => Some (d :: s)
      | _, _ => None
      end
  end.

Definition bshape (s1 s2 : list nat) : option (list nat) :=
  option_map (@rev nat) (bshape_rev (rev s1) (rev s2)).

(** An axis of length one is read at position 0 whatever the index. *)
Definition cl (d i : nat) : nat := if d =? 1 then 0 else i.

Fixpoint clamp (s idx : list nat) : list nat :=
  match s, idx with
  | d :: s', i :: idx' => cl d i :: clamp s' idx'
  | _, _ => []
  end.

(** The index at which an operand of shape [s] is read when the broadcast
    result is read at [idx]: shapes are aligned on their last axes, and the
    leading entries of [idx] that the operand does not have are dropped. *)
Definition bidx (s idx : list nat) : list nat :=
  rev (clamp (rev s) (rev idx)).

Definition bget {A} (a : ndarray A) (idx : list nat) : A :=
  data a (bidx (shape a) idx).

(** *** Splitting a shape or an index at its last axes *)

Definition unsnoc (l : list nat) : option (list nat * nat) :=
  match rev l with
  | x :: r => Some (rev r, x)
  | [] => None
  end.

Definition unsnoc2 (l : list nat) : option (list nat * nat * nat) :=
  match rev l with
  | y :: x :: r => Some (rev r, x, y)
  | _ => None
  end.

Definition unsnoc3 (l : list nat) : option (list nat * nat * nat * nat) :=
  match rev l with
  | z :: y :: x :: r => Some (rev r, x, y, z)
  | _ => None
  end.

Definition set_nth (p v : nat) (l : list nat) : list nat :=
  firstn p l ++ v :: skipn (S p) l.

Definition insert_at (p v : nat) (l : list nat) : list nat :=
  firstn p l ++ v :: skipn p l.

Definition remove_at (p : nat) (l : list nat) : list nat :=
  firstn p l ++ skipn (S p) l.

Fixpoint index_of (j : nat) (l : list nat) : nat :=
  match l with
  | [] => 0
  | x :: l' => if x =? j then 0 else S (index_of j l')
  end.

(** *** NumPy primitives *)

Section Primitives.
Local Open Scope res_scope.

Definition amap {A B} (f : A -> B) (a : ndarray A) : ndarray B :=
  mkarr (shape a) (fun idx => f (data a idx)).

(** [a.T]: all axes reversed. *)
Definition transposeT {A} (a : ndarray A) : ndarray A :=
  mkarr (rev (shape a)) (fun idx => data a (rev idx)).

(** The axes of [ndarray.transpose], checked one after the other. *)
Fixpoint perm_axes (n : nat) (axes : list Z) (seen : list nat) : result (list nat) :=
  match axes with
  | [] => Ok []
  | ax :: rest =>
      match norm_axis n ax with
      | None => Raise AxisError
      | Some j =>
          if existsb (Nat.eqb j) seen
          then Raise (ValueError "repeated axis in transpose")
          else p <- perm_axes n rest (j :: seen) ;; Ok (j :: p)
      end
  end.

(** The array [a] read through the permutation [p]: axis [i] of the result
    is axis [nth i p] of [a]. *)
Definition permute {A} (a : ndarray A) (p : list nat) : ndarray A :=
  mkarr (map (fun j => nth j (shape a) 0) p)
        (fun idx => data a (map (fun j => nth (index_of j p) idx 0) (seq 0 (ndim a)))).

Definition transpose {A} (a : ndarray A) (axes : list Z) : result (ndarray A) :=
  check (length axes =? ndim a) else ValueError "axes don't match array" ;;
  p <- perm_axes (ndim a) axes [] ;;
  Ok (permute a p).

(** [a.swapaxes(-1, -2)] *)
Definition swapaxes_last {A} (a : ndarray A) : result (ndarray A) :=
  match unsnoc2 (shape a) with
  | Some (b, m, n) =>
      Ok (mkarr (b ++ [n; m])
                (fun idx => match unsnoc2 idx with
                            | Some (bi, i, j) => data a (bi ++ [j; i])
                            | None => data a idx
                            end))
  | None => Raise AxisError
  end.

(** [numpy.expand_dims(a, axis)] *)
Definition expand_dims {A} (a : ndarray A) (ax : Z) : result (ndarray A) :=
  match norm_axis (S (ndim a)) ax with
  | Some p => Ok (mkarr (insert_at p 1 (shape a)) (fun idx => data a (remove_at p idx)))
  | None => Raise AxisError
  end.

(** An elementwise binary operation with broadcasting. *)
Definition bmap2 {A B D} (f : A -> B -> D) (a : ndarray A) (b : ndarray B)
  : result (ndarray D) :=
  match bshape (shape a) (shape b) with
  | Some s => Ok (mkarr s (fun idx => f (bget a idx) (bget b idx)))
  | None => Raise (ValueError "operands could not be broadcast together")
  end.

(** An in-place operation [a op= b]: [b] must broadcast to the shape of [a]. *)
Definition inplace2 {A B} (f : A -> B -> A) (a : ndarray A) (b : ndarray B)
  : result (ndarray A) :=
  match bshape (shape a) (shape b) with
  | Some s =>
      check (list_eq_dec Nat.eq_dec s (shape a))
      else ValueError "non-broadcastable output operand" ;;
      Ok (mkarr (shape a) (fun idx => f (data a idx) (bget b idx)))
  | None => Raise (ValueError "operands could not be broadcast together")
  end.

(** [numpy.sum(a, axis=ax, keepdims=True)] *)
Definition sum_keepdims (a : ndarray R) (ax : Z) : result (ndarray R) :=
  match norm_axis (ndim a) ax with
  | Some p =>
      Ok (mkarr (set_nth p 1 (shape a))
                (fun idx => Rsum (nth p (shape a) 0) (fun t => data a (set_nth p t idx))))
  | None => Raise AxisError
  end.

(** [numpy.clip(a, lo, hi)] is [minimum(maximum(a, lo), hi)]. *)
Definition clip (lo hi : R) (a : ndarray R) : ndarray R :=
  amap (fun x => Rmin (Rmax x lo) hi) a.

Definition bcast_error : exn := ValueError "operands could not be broadcast together".
Definition subscripts_error : exn :=
  ValueError "einstein sum subscripts string contains too many subscripts for operand".

(** [numpy.einsum('...dt,...et->...de', a, b)] *)
Definition einsum_dt_et (a b : ndarray C) : result (ndarray C) :=
  match unsnoc2 (shape a), unsnoc2 (shape b) with
  | Some (ba, da, ta), Some (bb, eb, tb) =>
      match bshape ba bb, bdim ta tb with
      | Some s, Some T =>
          Ok (mkarr (s ++ [da; eb])
                    (fun idx =>
                       match unsnoc2 idx with
                       | Some (bi, d, e) =>
                           Csum T (fun t => bget a (bi ++ [d; t]) * bget b (bi ++ [e; t]))%C
                       | None => C0
                       end))
      | _, _ => Raise bcast_error
      end
  | _, _ => Raise subscripts_error
  end.

Definition bshape3 (s1 s2 s3 : list nat) : option (list nat) :=
  match bshape s1 s2 with
  | Some s => bshape s s3
  | None => None
  end.

Definition bdim3 (a b c : nat) : option nat :=
  match bdim a b with
  | Some d => bdim d c
  | None => None
  end.

(** [numpy.einsum('...kt,...dt,...et->...kde', m, a, b)] with a real [m] *)
Definition einsum_kt_dt_et (m : ndarray R) (a b : ndarray C) : result (ndarray C) :=
  match unsnoc2 (shape m), unsnoc2 (shape a), unsnoc2 (shape b) with
  | Some (bm, km, tm), Some (ba, da, ta), Some (bb, eb, tb) =>
      match bshape3 bm ba bb, bdim3 tm ta tb with
      | Some s, Some T =>
          Ok (mkarr (s ++ [km; da; eb])
                    (fun idx =>
                       match unsnoc3 idx with
                       | Some (bi, k, d, e) =>
                           Csum T (fun t =>
                                     RtoC (bget m (bi ++ [k; t]))
                                     * bget a (bi ++ [d; t])
                                     * bget b (bi ++ [e; t]))%C
                       | None => C0
                       end))
      | _, _ => Raise bcast_error
      end
  | _, _, _ => Raise subscripts_error
  end.

(** [numpy.einsum('...d,...d->...', a, b)] *)
Definition einsum_d_d (a b : ndarray C) : result (ndarray C) :=
  match unsnoc (shape a), unsnoc (shape b) with
  | Some (ba, da), Some (bb, db) =>
      match bshape ba bb, bdim da db with
      | Some s, Some D =>
          Ok (mkarr s (fun bi => Csum D (fun d => bget a (bi ++ [d]) * bget b (bi ++ [d]))%C))
      | _, _ => Raise bcast_error
      end
  | _, _ => Raise subscripts_error
  end.

(** [numpy.einsum('...a,...at->...t', v, x)] *)
Definition einsum_a_at (v x : ndarray C) : result (ndarray C) :=
  match unsnoc (shape v), unsnoc2 (shape x) with
  | Some (bv, av), Some (bx, ax, tx) =>
      match bshape bv bx, bdim av ax with
      | Some s, Some N =>
          Ok (mkarr (s ++ [tx])
                    (fun idx =>
                       match unsnoc idx with
                       | Some (bi, t) =>
                           Csum N (fun a => bget v (bi ++ [a]) * bget x (bi ++ [a; t]))%C
                       | None => C0
                       end))
      | _, _ => Raise bcast_error
      end
  | _, _ => Raise subscripts_error
  end.

(** [numpy.einsum('k...d,l...d->...kl', a, b)] *)
Definition einsum_kd_ld (a b : ndarray C) : result (ndarray C) :=
  match shape a, shape b with
  | K :: ra, L :: rb =>
      match unsnoc ra, unsnoc rb with
      | Some (ba, da), Some (bb, db) =>
          match bshape ba bb, bdim da db with
          | Some s, Some D =>
              Ok (mkarr (s ++ [K; L])
                        (fun idx =>
                           match unsnoc2 idx with
                           | Some (bi, k, l) =>
                               Csum D (fun d =>
                                         data a (k :: bidx ba bi ++ [cl da d])
                                         * data b (l :: bidx bb bi ++ [cl db d]))%C
                           | None => C0
                           end))
          | _, _ => Raise bcast_error
          end
      | _, _ => Raise subscripts_error
      end
  | _, _ => Raise subscripts_error
  end.

(** [numpy.einsum('k...d,...k->...d', a, b)] *)
Definition einsum_kd_k (a b : ndarray C) : result (ndarray C) :=
  match shape a, unsnoc (shape b) with
  | K :: ra, Some (bb, kb) =>
      match unsnoc ra with
      | Some (ba, da) =>
          match bshape ba bb, bdim K kb with
          | Some s, Some N =>
              Ok (mkarr (s ++ [da])
                        (fun idx =>
                           match unsnoc idx with
                           | Some (bi, d) =>
                               Csum N (fun k =>
                                         data a (cl K k :: bidx ba bi ++ [d])
                                         * bget b (bi ++ [k]))%C
                           | None => C0
                           end))
          | _, _ => Raise bcast_error
          end
      | None => Raise subscripts_error
      end
  | _, _ => Raise subscripts_error
  end.

(** [numpy.rollaxis(a, axis, start)] *)
Definition rollaxis {A} (a : ndarray A) (axis start : Z) : result (ndarray A) :=
  let n := ndim a in
  match norm_axis n axis with
  | None => Raise AxisError
  | Some ax =>
      let start := if (start <? 0)%Z then (start + Z.of_nat n)%Z else start in
      check ((0 <=? start)%Z && (start <? Z.of_nat n + 1)%Z) else AxisError ;;
      let st := Z.to_nat start in
      let st := if ax <? st then st - 1 else st in
      if ax =? st then Ok a
      else Ok (permute a (insert_at st ax (remove_at ax (seq 0 n))))
  end.

End Primitives.

(** ** The store of mutable arrays

    The masks are the only arrays the program updates in place while the
    caller still holds them.  A float mask is therefore a reference into a
    store; [ref_T] says that the reference is the transposed view [m.T] of
    the stored array.  A boolean mask is never written to and is a value. *)

Record heap : Type := mkheap {
  cells : nat -> ndarray R;
  next_loc : nat
}.

Record mref : Type := mkref {
  ref_loc : nat;
  ref_T : bool
}.

Inductive mask_t : Type :=
| MaskBool (a : ndarray bool)
| MaskFloat (r : mref).

Definition Py (A : Type) : Type := heap -> result A * heap.

Definition ret {A} (a : A) : Py A := fun h => (Ok a, h).
Definition raise {A} (e : exn) : Py A := fun h => (Raise e, h).
Definition lift {A} (r : result A) : Py A := fun h => (r, h).
Definition bind {A B} (m : Py A) (k : A -> Py B) : Py B :=
  fun h =>
    match m h with
    | (Ok a, h') => k a h'
    | (Raise e, h') => (Raise e, h')
    end.

Declare Scope py_scope.
Delimit Scope py_scope with py.
Notation "x <- m ;; k" := (bind m (fun x => k))
  (at level 61, m at next level, right associativity) : py_scope.
Notation "m ;;; k" := (bind m (fun _ => k))
  (at level 61, right associativity) : py_scope.

Definition upd (f : nat -> ndarray R) (l : nat) (a : ndarray R) : nat -> ndarray R :=
  fun l' => if l' =? l then a else f l'.

(** The array seen through a reference, and an assignment of all its elements. *)
Definition load (r : mref) : Py (ndarray R) :=
  fun h =>
    let a := cells h (ref_loc r) in
    (Ok (if ref_T r then transposeT a else a), h).

Definition store (r : mref) (v : ndarray R) : Py unit :=
  fun h =>
    (Ok tt, mkheap (upd (cells h) (ref_loc r) (if ref_T r then transposeT v else v))
                   (next_loc h)).

Definition alloc (a : ndarray R) : Py mref :=
  fun h =>
    (Ok (mkref (next_loc h) false),
     mkheap (upd (cells h) (next_loc h) a) (S (next_loc h))).

(** [m.T] of a mask. *)
Definition mask_T (m : mask_t) : mask_t :=
  match m with
  | MaskBool a => MaskBool (transposeT a)
  | MaskFloat r => MaskFloat (mkref (ref_loc r) (negb (ref_T r)))
  end.

Definition bool_to_R (b : bool) : R := if b then 1%R else 0%R.

(** The elements of a mask as floats. *)
Definition mask_values (m : mask_t) : Py (ndarray R) :=
  match m with
  | MaskBool a => ret (amap bool_to_R a)
  | MaskFloat r => load r
  end.

(** ** Power spectral density matrix *)

Definition to_negative (n : nat) (d : Z) : Z := (d mod Z.of_nat n - Z.of_nat n)%Z.

(** [range(-n, 0)] *)
Definition range_neg (n : nat) : list Z :=
  map (fun i => (Z.of_nat i - Z.of_nat n)%Z) (seq 0 n).

(** [[i for i in range(-n, 0) if i not in [d1, d2]] + [d1, d2]] *)
Definition axes_to_end (n : nat) (d1 d2 : Z) : list Z :=
  filter (fun i => negb (existsb (Z.eqb i) [d1; d2])) (range_neg n) ++ [d1; d2].

(** [mask /= np.maximum(np.sum(mask, axis=time_dim, keepdims=True), 1e-10)]
    on the array behind [r]. *)
Definition normalize_mask (r : mref) (time_dim : Z) : Py (ndarray R) :=
  (m <- load r ;;
   s <- lift (sum_keepdims m time_dim) ;;
   m' <- lift (inplace2 Rdiv m (amap (fun x => Rmax x 1e-10) s)) ;;
   store r m' ;;;
   ret m')%py.

Definition get_power_spectral_density_matrix
  (observation : ndarray C) (mask : option mask_t)
  (sensor_dim source_dim time_dim : Z) : Py (ndarray C) :=
  (let n := ndim observation in
   if n =? 0 then raise ZeroDivisionError else
   (* ensure negative dim indexes *)
   let sensor_dim := to_negative n sensor_dim in
   let source_dim := to_negative n source_dim in
   let time_dim := to_negative n time_dim in
   (* ensure observation shape (..., sensors, frames) *)
   let obs_transpose := axes_to_end n sensor_dim time_dim in
   observation <- lift (transpose observation obs_transpose) ;;
   match mask with
   | None =>
       psd <- lift (einsum_dt_et observation (amap Cconj observation)) ;;
       (* normalize *)
       frames <- lift (match unsnoc (shape observation) with
                       | Some (_, t) => Ok t
                       | None => Raise IndexError
                       end) ;;
       ret (amap (fun z => z / RtoC (INR frames))%C psd)
   | Some mask =>
       (* normalize *)
       r <- match mask with
            | MaskBool a => alloc (amap bool_to_R a)
            | MaskFloat r => ret r
            end ;;
       mask <- normalize_mask r time_dim ;;
       if ndim mask + 1 =? ndim observation then
         mask <- lift (expand_dims mask (-2)) ;;
         weighted <- lift (bmap2 (fun m x => RtoC m * x)%C mask observation) ;;
         lift (einsum_dt_et weighted (amap Cconj observation))
       else
         (* ensure shape (..., sources, frames) *)
         let mask_transpose := axes_to_end n source_dim time_dim in
         mask <- lift (transpose mask mask_transpose) ;;
         psd <- lift (einsum_kt_dt_et mask observation (amap Cconj observation)) ;;
         if (source_dim <? -2)%Z then
           (* assume PSD shape (sources, ..., sensors, sensors) is interested *)
           lift (rollaxis psd (-3) (source_dim mod Z.of_nat n))
         else ret psd
   end)%py.

(** ** Linear algebra on top of the LAPACK drivers *)

Definition matrix : Type := list (list C).

(** The matrix held by the last two axes of [a] at the leading index [bi],
    as a list of rows, and the vector held by the last axis. *)
Definition matrix_at (a : ndarray C) (bi : list nat) (m n : nat) : matrix :=
  map (fun i => map (fun j => data a (bi ++ [i; j])) (seq 0 n)) (seq 0 m).

Definition vector_at (a : ndarray C) (bi : list nat) (m : nat) : list C :=
  map (fun i => data a (bi ++ [i])) (seq 0 m).

Definition column_at (a : ndarray C) (bi : list nat) (m j : nat) : list C :=
  map (fun i => data a (bi ++ [i; j])) (seq 0 m).

(** Column [j] of a matrix given by its rows: [vecs[:, j]]. *)
Definition column (vecs : matrix) (j : nat) : list C :=
  map (fun row => nth j row C0) vecs.

Definition is_some {A} (o : option A) : bool :=
  match o with Some _ => true | None => false end.

(** [numpy.argmax] of a one-dimensional array: the first index of the maximum. *)
Fixpoint argmax_from {A} (ltb : A -> A -> bool) (best_i : nat) (best : A) (i : nat)
  (l : list A) : nat :=
  match l with
  | [] => best_i
  | x :: l' =>
      if ltb best x then argmax_from ltb i x (S i) l'
      else argmax_from ltb best_i best (S i) l'
  end.

Definition argmax_by {A} (ltb : A -> A -> bool) (l : list A) : result nat :=
  match l with
  | [] => Raise (ValueError "attempt to get argmax of an empty sequence")
  | x :: l' => Ok (argmax_from ltb 0 x 1 l')
  end.

Definition Rltb (x y : R) : bool := if Rlt_dec x y then true else false.

(** NumPy orders complex numbers by real part, then by imaginary part. *)
Definition Cltb (x y : C) : bool :=
  Rltb (fst x) (fst y)
  || ((if Req_dec_T (fst x) (fst y) then true else false) && Rltb (snd x) (snd y)).

Definition argmax : list R -> result nat := argmax_by Rltb.
Definition argmaxC : list C -> result nat := argmax_by Cltb.

(** Calls of the generalized eigensolvers, in the order they are made. *)
Inductive call : Type :=
| CallEigh (f : nat)
| CallEig (f : nat).

Section Backend.
Local Open Scope res_scope.

(** [gesv A b]: the LAPACK driver behind [numpy.linalg.solve] for one
    square system, [None] when it reports a singular matrix. *)
Variable gesv : matrix -> list C -> option (list C).
(** [numpy.linalg.eigh] on one matrix: eigenvalues and the matrix whose
    columns are the eigenvectors. *)
Variable np_eigh : matrix -> result (list R * matrix).
(** [scipy.linalg.eigh(a, b)] and [scipy.linalg.eig(a, b)]. *)
Variable sp_eigh : matrix -> matrix -> result (list R * matrix).
Variable sp_eig : matrix -> matrix -> result (list C * matrix).
(** [numpy.abs(numpy.sqrt(z))] of a complex number: the square root of its
    modulus. *)
Definition abs_sqrt (z : C) : R := sqrt (Cmod z).

(** *** [numpy.linalg.solve] *)

Definition solve_vectors (a b : ndarray C) (ba : list nat) (m : nat)
  : result (ndarray C) :=
  match unsnoc (shape b) with
  | None => Raise (ValueError "not enough dimensions")
  | Some (bb, mb) =>
      check (mb =? m) else ValueError "core dimension mismatch" ;;
      match bshape ba bb with
      | None => Raise bcast_error
      | Some s =>
          let sol bi := gesv (matrix_at a (bidx ba bi) m m) (vector_at b (bidx bb bi) m) in
          check (forallb (fun bi => is_some (sol bi)) (indices s)) else LinAlgError ;;
          Ok (mkarr (s ++ [m])
                    (fun idx =>
                       match unsnoc idx with
                       | Some (bi, i) =>
                           match sol bi with
                           | Some x => nth i x C0
                           | None => C0
                           end
                       | None => C0
                       end))
      end
  end.

Definition solve_matrices (a b : ndarray C) (ba : list nat) (m : nat)
  : result (ndarray C) :=
  match unsnoc2 (shape b) with
  | None => Raise (ValueError "not enough dimensions")
  | Some (bb, mb, nb) =>
      check (mb =? m) else ValueError "core dimension mismatch" ;;
      match bshape ba bb with
      | None => Raise bcast_error
      | Some s =>
          let sol bi j :=
            gesv (matrix_at a (bidx ba bi) m m) (column_at b (bidx bb bi) m j) in
          let factor bi := gesv (matrix_at a (bidx ba bi) m m) (repeat C0 m) in
          check (forallb (fun bi => is_some (factor bi)
                                    && forallb (fun j => is_some (sol bi j)) (seq 0 nb))
                         (indices s))
          else LinAlgError ;;
          Ok (mkarr (s ++ [m; nb])
                    (fun idx =>
                       match unsnoc2 idx with
                       | Some (bi, i, j) =>
                           match sol bi j with
                           | Some x => nth i x C0
                           | None => C0
                           end
                       | None => C0
                       end))
      end
  end.

(** [numpy.linalg.solve(a, b)]: [b] is a stack of vectors exactly when it
    has one dimension less than [a], a stack of matrices otherwise (the rule
    of NumPy 1.x, which the program was written for: [get_mvdr_vector] passes
    a stack of ATF vectors as [b]). *)
Definition solve (a b : ndarray C) : result (ndarray C) :=
  match unsnoc2 (shape a) with
  | None => Raise LinAlgError
  | Some (ba, m, m') =>
      check (m =? m') else LinAlgError ;;
      if ndim b =? ndim a - 1 then solve_vectors a b ba m
      else solve_matrices a b ba m
  end.

(** *** PCA *)

(** The eigenvector of the largest eigenvalue of every matrix of a stack of
    [count] matrices, [None] as soon as one decomposition fails. *)
Definition principal (vals_vecs : list R * matrix) : result (list C) :=
  j <- argmax (fst vals_vecs) ;;
  Ok (column (snd vals_vecs) j).

Fixpoint eigh_stack (a : ndarray C) (batch : list nat) (m : nat) (count : nat)
  : result (list (list R * matrix)) :=
  match count with
  | O => Ok []
  | S k =>
      rest <- eigh_stack a batch m k ;;
      e <- np_eigh (matrix_at a (unravel batch k) m m) ;;
      Ok (rest ++ [e])
  end.

Fixpoint principals (es : list (list R * matrix)) : result (list (list C)) :=
  match es with
  | [] => Ok []
  | e :: es' =>
      v <- principal e ;;
      vs <- principals es' ;;
      Ok (v :: vs)
  end.

Definition get_pca_vector (target_psd_matrix : ndarray C) : result (ndarray C) :=
  (* Save the shape of target_psd_matrix *)
  let shape := shape target_psd_matrix in
  match unsnoc2 shape with
  | Some (batch, m, n) =>
      (* Reduce independent dims to 1 independent dim *)
      check (negb (m * n =? 0)) else ValueError "cannot reshape array" ;;
      check (m =? n) else LinAlgError ;;
      (* Calculate eigenvals/vecs *)
      es <- eigh_stack target_psd_matrix batch m (size_of batch) ;;
      (* Find max eigenvals, select eigenvec for max eigenval *)
      vs <- principals es ;;
      (* Reconstruct original shape *)
      Ok (mkarr (batch ++ [m])
                (fun idx =>
                   match unsnoc idx with
                   | Some (bi, d) => nth d (nth (ravel batch bi) vs []) C0
                   | None => C0
                   end))
  | None =>
      match shape with
      | [] => Raise LinAlgError
      | n :: _ =>
          check (negb (n =? 0)) else ValueError "cannot reshape array" ;;
          check (n =? 1) else LinAlgError ;;
          _ <- np_eigh [[data target_psd_matrix [0]]] ;;
          Raise IndexError
      end
  end.

(** *** MVDR *)

(** [while atf_vector.ndim > noise_psd_matrix.ndim - 1:
       noise_psd_matrix = np.expand_dims(noise_psd_matrix, axis=0)]
    runs [atf_vector.ndim + 1 - noise_psd_matrix.ndim] times. *)
Fixpoint expand_front (k : nat) (a : ndarray C) : result (ndarray C) :=
  match k with
  | O => Ok a
  | S k' => a' <- expand_dims a 0 ;; expand_front k' a'
  end.

(** [0.5 * (noise_psd_matrix + np.conj(noise_psd_matrix.swapaxes(-1, -2)))]
    after the leading axes were added. *)
Definition mvdr_noise (atf_vector noise_psd_matrix : ndarray C) : result (ndarray C) :=
  noise <- expand_front (ndim atf_vector + 1 - ndim noise_psd_matrix) noise_psd_matrix ;;
  (* Make sure matrix is hermitian *)
  swapped <- swapaxes_last noise ;;
  sum <- bmap2 Cplus noise (amap Cconj swapped) ;;
  Ok (amap (fun z => RtoC 0.5 * z)%C sum).

Definition mvdr_numerator (atf_vector noise_psd_matrix : ndarray C) : result (ndarray C) :=
  noise <- mvdr_noise atf_vector noise_psd_matrix ;;
  solve noise atf_vector.

Definition mvdr_denominator (atf_vector numerator : ndarray C) : result (ndarray C) :=
  einsum_d_d (amap Cconj atf_vector) numerator.

Definition get_mvdr_vector (atf_vector noise_psd_matrix : ndarray C) : result (ndarray C) :=
  numerator <- mvdr_numerator atf_vector noise_psd_matrix ;;
  denominator <- mvdr_denominator atf_vector numerator ;;
  denominator <- expand_dims denominator (-1) ;;
  bmap2 Cdiv numerator denominator.

(** *** GEV *)

(** [beamforming_vector[f, :] = eigenvecs[:, j]]: the column must have
    [sensors] entries, or one entry that is repeated. *)
Definition assign_row (sensors : nat) (col : list C) : result (list C) :=
  if length col =? sensors then Ok col
  else if length col =? 1 then Ok (repeat (hd C0 col) sensors)
  else Raise (ValueError "could not broadcast input array").

Definition gev_bin (target noise : ndarray C) (sensors cols f : nat)
  : list call * result (list C) :=
  match shape noise with
  | nb :: m :: n :: rest =>
      if f <? nb then
        match rest with
        | [] =>
            let A := matrix_at target [f] sensors cols in
            let B := matrix_at noise [f] m n in
            match sp_eigh A B with
            | Ok (eigenvals, eigenvecs) =>
                ([CallEigh f],
                 j <- argmax eigenvals ;; assign_row sensors (column eigenvecs j))
            | Raise LinAlgError =>
                ([CallEigh f; CallEig f],
                 match sp_eig A B with
                 | Ok (eigenvals, eigenvecs) =>
                     j <- argmaxC eigenvals ;; assign_row sensors (column eigenvecs j)
                 | Raise e => Raise e
                 end)
            | Raise e => ([CallEigh f], Raise e)
            end
        | _ => ([CallEigh f], Raise (ValueError "expected square matrix"))
        end
      else ([], Raise IndexError)
  | _ => ([], Raise IndexError)
  end.

(** [for f in range(count)], stopping at the first exception. *)
Fixpoint gev_loop (target noise : ndarray C) (sensors cols count : nat)
  : list call * result (list (list C)) :=
  match count with
  | O => ([], Ok [])
  | S k =>
      match gev_loop target noise sensors cols k with
      | (tr, Ok rows) =>
          match gev_bin target noise sensors cols k with
          | (tr', Ok v) => (tr ++ tr', Ok (rows ++ [v]))
          | (tr', Raise e) => (tr ++ tr', Raise e)
          end
      | (tr, Raise e) => (tr, Raise e)
      end
  end.

Definition rows_array (bins sensors : nat) (rows : list (list C)) : ndarray C :=
  mkarr [bins; sensors]
        (fun idx => nth (nth 1 idx 0) (nth (nth 0 idx 0) rows []) C0).

(** The beamforming vectors together with the solver calls that were made. *)
Definition get_gev_vector_traced (target_psd_matrix noise_psd_matrix : ndarray C)
  : list call * result (ndarray C) :=
  match shape target_psd_matrix with
  | [bins; sensors; cols] =>
      match gev_loop target_psd_matrix noise_psd_matrix sensors cols bins with
      | (tr, Ok rows) => (tr, Ok (rows_array bins sensors rows))
      | (tr, Raise e) => (tr, Raise e)
      end
  | _ => ([], Raise (ValueError "not enough or too many values to unpack"))
  end.

Definition get_gev_vector (target_psd_matrix noise_psd_matrix : ndarray C)
  : result (ndarray C) :=
  snd (get_gev_vector_traced target_psd_matrix noise_psd_matrix).

(** *** LCMV *)

Definition get_lcmv_vector (atf_vectors response_vector noise_psd_matrix : ndarray C)
  : result (ndarray C) :=
  noise <- expand_dims noise_psd_matrix 0 ;;
  Phi_inverse_times_H <- solve noise atf_vectors ;;
  H_times_Phi_inverse_times_H <-
    einsum_kd_ld (amap Cconj atf_vectors) Phi_inverse_times_H ;;
  response <- expand_dims response_vector 0 ;;
  temp <- solve H_times_Phi_inverse_times_H response ;;
  einsum_kd_k Phi_inverse_times_H temp.

(** *** Blind analytic normalization *)

(** [a[f]] *)
Definition index0 {A} (a : ndarray A) (f : nat) : result (ndarray A) :=
  match shape a with
  | n :: s =>
      check (f <? n) else IndexError ;;
      Ok (mkarr s (fun idx => data a (f :: idx)))
  | [] => Raise IndexError
  end.

(** [numpy.dot(a, b)] *)
Definition np_dot (a b : ndarray C) : result (ndarray C) :=
  match shape a, shape b with
  | [], _ | _, [] => bmap2 Cmult a b
  | _, [kb] =>
      match unsnoc (shape a) with
      | Some (sa, ka) =>
          check (ka =? kb) else ValueError "shapes not aligned" ;;
          Ok (mkarr sa (fun ia => Csum ka (fun k => data a (ia ++ [k]) * data b [k])%C))
      | None => Raise (ValueError "shapes not aligned")
      end
  | _, _ =>
      match unsnoc (shape a), unsnoc2 (shape b) with
      | Some (sa, ka), Some (sb, kb, nb) =>
          check (ka =? kb) else ValueError "shapes not aligned" ;;
          Ok (mkarr (sa ++ sb ++ [nb])
                    (fun idx =>
                       let ia := firstn (length sa) idx in
                       match unsnoc (skipn (length sa) idx) with
                       | Some (ib, j) =>
                           Csum ka (fun k => data a (ia ++ [k]) * data b (ib ++ [k; j]))%C
                       | None => C0
                       end))
      | _, _ => Raise (ValueError "shapes not aligned")
      end
  end.

(** [normalization[f] = x]: only an array with a single element fits. *)
Definition to_scalar (a : ndarray R) : result R :=
  check (size_of (shape a) =? 1) else ValueError "setting an array element with a sequence." ;;
  Ok (data a (repeat 0 (ndim a))).

Definition normalization_bin (vector noise_psd_matrix : ndarray C) (f : nat) : result R :=
  v <- index0 vector f ;;
  N <- index0 noise_psd_matrix f ;;
  let vH := amap Cconj v in
  vN <- np_dot vH N ;;
  vNN <- np_dot vN N ;;
  vNNv <- np_dot vNN v ;;
  n1 <- to_scalar (amap abs_sqrt vNNv) ;;
  vN' <- np_dot vH N ;;
  vNv <- np_dot vN' v ;;
  to_scalar (amap (fun z => (n1 / Cmod z)%R) vNv).

Fixpoint normalization_loop (vector noise_psd_matrix : ndarray C) (count : nat)
  : result (list R) :=
  match count with
  | O => Ok []
  | S k =>
      rest <- normalization_loop vector noise_psd_matrix k ;;
      x <- normalization_bin vector noise_psd_matrix k ;;
      Ok (rest ++ [x])
  end.

Definition blind_analytic_normalization (vector noise_psd_matrix : ndarray C)
  : result (ndarray C) :=
  match shape vector with
  | [bins; sensors] =>
      normalization <- normalization_loop vector noise_psd_matrix bins ;;
      (* vector * normalization[:, np.newaxis] *)
      bmap2 (fun z x => z * RtoC x)%C vector
            (mkarr [bins; 1] (fun idx => nth (nth 0 idx 0) normalization 0%R))
  | _ => Raise (ValueError "not enough or too many values to unpack")
  end.

(** *** Applying a beamforming vector *)

Definition apply_beamforming_vector (vector mix : ndarray C) : result (ndarray C) :=
  einsum_a_at (amap Cconj vector) mix.

(** *** Wrappers on masks *)

Local Open Scope py_scope.

Definition no_mask_error : exn := ValueError "At least one mask needs to be present.".

(** [np.clip(1 - other_mask, 1e-6, 1)], a new array.  [1 - None] is a
    [TypeError]. *)
Definition complement_mask (other : option mask_t) : Py mask_t :=
  match other with
  | None => raise TypeError
  | Some m =>
      v <- mask_values m ;;
      r <- alloc (clip 1e-6 1 (amap (fun x => (1 - x)%R) v)) ;;
      ret (MaskFloat r)
  end.

Definition or_complement (mask other : option mask_t) : Py mask_t :=
  match mask with
  | Some m => ret m
  | None => complement_mask other
  end.

(** [bins, sensors, frames = mix.shape] *)
Definition unpack3 {A} (a : ndarray A) : result (nat * nat * nat) :=
  match shape a with
  | [bins; sensors; frames] => Ok (bins, sensors, frames)
  | _ => Raise (ValueError "not enough or too many values to unpack")
  end.

Definition gev_wrapper_on_masks (mix : ndarray C) (noise_mask target_mask : option mask_t)
  (normalization : bool) : Py (ndarray C) :=
  match noise_mask, target_mask with
  | None, None => raise no_mask_error
  | _, _ =>
      let mix := transposeT mix in
      let noise_mask := option_map mask_T noise_mask in
      let target_mask := option_map mask_T target_mask in
      target_mask <- or_complement target_mask noise_mask ;;
      noise_mask <- or_complement noise_mask (Some target_mask) ;;
      _ <- lift (unpack3 mix) ;;
      target_psd_matrix <-
        get_power_spectral_density_matrix mix (Some target_mask) (-2) (-2) (-1) ;;
      noise_psd_matrix <-
        get_power_spectral_density_matrix mix (Some noise_mask) (-2) (-2) (-1) ;;
      (* Beamforming vector *)
      W_gev <- lift (get_gev_vector target_psd_matrix noise_psd_matrix) ;;
      W_gev <- (if normalization
                then lift (blind_analytic_normalization W_gev noise_psd_matrix)
                else ret W_gev) ;;
      output <- lift (apply_beamforming_vector W_gev mix) ;;
      ret (transposeT output)
  end.

Definition pca_wrapper_on_masks (mix : ndarray C) (noise_mask target_mask : option mask_t)
  : Py (ndarray C) :=
  match noise_mask, target_mask with
  | None, None => raise no_mask_error
  | _, _ =>
      let mix := transposeT mix in
      let noise_mask := option_map mask_T noise_mask in
      let target_mask := option_map mask_T target_mask in
      target_mask <- or_complement target_mask noise_mask ;;
      _ <- lift (unpack3 mix) ;;
      target_psd_matrix <-
        get_power_spectral_density_matrix mix (Some target_mask) (-2) (-2) (-1) ;;
      (* Beamforming vector *)
      W_pca <- lift (get_pca_vector target_psd_matrix) ;;
      output <- lift (apply_beamforming_vector W_pca mix) ;;
      ret (transposeT output)
  end.

(** [noise_psd_matrix += np.tile(regularization * np.eye(noise_psd_matrix.shape[1]),
                                 (noise_psd_matrix.shape[0], 1, 1))] *)
Definition regularize (regularization : option R) (noise_psd_matrix : ndarray C)
  : result (ndarray C) :=
  match regularization with
  | None => Ok noise_psd_matrix
  | Some reg =>
      match shape noise_psd_matrix with
      | s0 :: s1 :: _ =>
          inplace2 (fun z x => z + RtoC x)%C noise_psd_matrix
                   (mkarr [s0; s1; s1]
                          (fun idx => if nth 1 idx 0 =? nth 2 idx 0
                                      then (reg * 1)%R else (reg * 0)%R))
      | _ => Raise IndexError
      end
  end.

(** The PSD matrices, the PCA vector and the MVDR vector that
    [pca_mvdr_wrapper_on_masks] computes from the transposed inputs. *)
Record pca_mvdr_state : Type := mk_pca_mvdr {
  st_noise_psd : ndarray C;
  st_W_pca : ndarray C;
  st_W_mvdr : ndarray C
}.

Definition pca_mvdr_vectors (mix : ndarray C) (noise_mask target_mask : mask_t)
  (regularization : option R) : Py pca_mvdr_state :=
  target_psd_matrix <-
    get_power_spectral_density_matrix mix (Some target_mask) (-2) (-2) (-1) ;;
  noise_psd_matrix <-
    get_power_spectral_density_matrix mix (Some noise_mask) (-2) (-2) (-1) ;;
  noise_psd_matrix <- lift (regularize regularization noise_psd_matrix) ;;
  (* Beamforming vector *)
  W_pca <- lift (get_pca_vector target_psd_matrix) ;;
  W_mvdr <- lift (get_mvdr_vector W_pca noise_psd_matrix) ;;
  ret (mk_pca_mvdr noise_psd_matrix W_pca W_mvdr).

Definition pca_mvdr_wrapper_on_masks (mix : ndarray C) (noise_mask target_mask : option mask_t)
  (regularization : option R) : Py (ndarray C) :=
  match noise_mask, target_mask with
  | None, None => raise no_mask_error
  | _, _ =>
      let mix := transposeT mix in
      let noise_mask := option_map mask_T noise_mask in
      let target_mask := option_map mask_T target_mask in
      target_mask <- or_complement target_mask noise_mask ;;
      noise_mask <- or_complement noise_mask (Some target_mask) ;;
      _ <- lift (unpack3 mix) ;;
      st <- pca_mvdr_vectors mix noise_mask target_mask regularization ;;
      output <- lift (apply_beamforming_vector (st_W_pca st) mix) ;;
      ret (transposeT output)
  end.

End Backend.

(** ** The superseded implementations

    The module keeps, next to each vectorized function, the loop it
    replaced ([get_..._old]).  They are embedded here to compare the two. *)

(** [numpy.einsum('...ft,...dt,...et->...de', m, a, b)] with a real [m]: the
    axis [f] occurs in the first operand only and is summed over. *)
Definition einsum_ft_dt_et (m : ndarray R) (a b : ndarray C) : result (ndarray C) :=
  match unsnoc2 (shape m), unsnoc2 (shape a), unsnoc2 (shape b) with
  | Some (bm, fm, tm), Some (ba, da, ta), Some (bb, eb, tb) =>
      match bshape3 bm ba bb, bdim3 tm ta tb with
      | Some s, Some T =>
          Ok (mkarr (s ++ [da; eb])
                    (fun idx =>
                       match unsnoc2 idx with
                       | Some (bi, d, e) =>
                           Csum fm (fun f =>
                             Csum T (fun t =>
                                       RtoC (bget m (bi ++ [f; t]))
                                       * bget a (bi ++ [d; t])
                                       * bget b (bi ++ [e; t])))%C
                       | None => C0
                       end))
      | _, _ => Raise bcast_error
      end
  | _, _, _ => Raise subscripts_error
  end.

(** The array behind the view [mask[:, np.newaxis, :]] once the view holds
    [a]: the axis of length one is dropped again. *)
Definition drop_axis1 (a : ndarray R) : ndarray R :=
  mkarr (remove_at 1 (shape a)) (fun idx => data a (insert_at 1 0 idx)).

(** [mask /= np.maximum(np.sum(mask, axis=-1, keepdims=True), 1e-6)] after
    [if mask.ndim == 2: mask = mask[:, np.newaxis, :]]: the division writes
    through the view into the array [m].  The result is the mask as the
    function sees it and the new contents of [m]. *)
Definition normalize_mask_old (m : ndarray R) : result (ndarray R * ndarray R) :=
  (let two := ndim m =? 2 in
   mask <- (if two then expand_dims m 1 else Ok m) ;;
   s <- sum_keepdims mask (-1) ;;
   mask <- inplace2 Rdiv mask (amap (fun x => Rmax x 1e-6) s) ;;
   Ok (mask, if two then drop_axis1 mask else mask))%res.

Definition get_power_spectral_density_matrix_old (observation : ndarray C)
  (mask : option mask_t) : Py (ndarray C) :=
  (dims <- lift (unpack3 observation) ;;
   let '(bins, sensors, frames) := dims in
   match mask with
   | None =>
       (* a new array of ones that only this call holds *)
       mm <- lift (normalize_mask_old (mkarr [bins; frames] (fun _ => 1%R))) ;;
       lift (einsum_ft_dt_et (fst mm) observation (amap Cconj observation))
   | Some (MaskBool a) =>
       (* the in-place division cannot store floats in a boolean array *)
       if ndim a =? 0 then raise AxisError else raise TypeError
   | Some (MaskFloat r) =>
       m <- load r ;;
       mm <- lift (normalize_mask_old m) ;;
       store r (snd mm) ;;;
       lift (einsum_ft_dt_et (fst mm) observation (amap Cconj observation))
   end)%py.

Section Superseded.
Local Open Scope res_scope.

Variable gesv : matrix -> list C -> option (list C).
(** [scipy.linalg.eigh(a)] on one matrix. *)
Variable sp_eigh1 : matrix -> result (list R * matrix).

(** [bins, sensors = atf_vector.shape] *)
Definition unpack2 {A} (a : ndarray A) : result (nat * nat) :=
  match shape a with
  | [bins; sensors] => Ok (bins, sensors)
  | _ => Raise (ValueError "not enough or too many values to unpack")
  end.

(** One pass of the loop of [get_pca_vector_old]. *)
Definition pca_old_bin (target : ndarray C) (sensors cols f : nat) : result (list C) :=
  e <- sp_eigh1 (matrix_at target [f] sensors cols) ;;
  j <- argmax (fst e) ;;
  assign_row sensors (column (snd e) j).

Fixpoint pca_old_loop (target : ndarray C) (sensors cols count : nat)
  : result (list (list C)) :=
  match count with
  | O => Ok []
  | S k =>
      rows <- pca_old_loop target sensors cols k ;;
      v <- pca_old_bin target sensors cols k ;;
      Ok (rows ++ [v])
  end.

Definition get_pca_vector_old (target_psd_matrix : ndarray C) : result (ndarray C) :=
  match shape target_psd_matrix with
  | [bins; sensors; cols] =>
      rows <- pca_old_loop target_psd_matrix sensors cols bins ;;
      Ok (rows_array bins sensors rows)
  | _ => Raise (ValueError "not enough or too many values to unpack")
  end.

(** One pass of the loop of [get_mvdr_vector_old]; [numerator / denominator]
    is one-dimensional when the solve has succeeded. *)
Definition mvdr_old_bin (atf_vector noise_psd_matrix : ndarray C) (sensors f : nat)
  : result (list C) :=
  N <- index0 noise_psd_matrix f ;;
  a <- index0 atf_vector f ;;
  numerator <- solve gesv N a ;;
  denominator <- np_dot (amap Cconj a) numerator ;;
  w <- bmap2 Cdiv numerator denominator ;;
  assign_row sensors (vector_at w [] (nth 0 (shape w) 0)).

Fixpoint mvdr_old_loop (atf_vector noise_psd_matrix : ndarray C) (sensors count : nat)
  : result (list (list C)) :=
  match count with
  | O => Ok []
  | S k =>
      rows <- mvdr_old_loop atf_vector noise_psd_matrix sensors k ;;
      v <- mvdr_old_bin atf_vector noise_psd_matrix sensors k ;;
      Ok (rows ++ [v])
  end.

Definition get_mvdr_vector_old (atf_vector noise_psd_matrix : ndarray C)
  : result (ndarray C) :=
  atf_vector <- (if ndim atf_vector =? 1 then expand_dims atf_vector 0
                 else Ok atf_vector) ;;
  noise_psd_matrix <- (if ndim noise_psd_matrix =? 2 then expand_dims noise_psd_matrix 0
                       else Ok noise_psd_matrix) ;;
  (* Make sure matrix is hermitian *)
  transposed <- transpose noise_psd_matrix [0; 2; 1]%Z ;;
  sum <- bmap2 Cplus noise_psd_matrix (amap Cconj transposed) ;;
  let noise_psd_matrix := amap (fun z => RtoC (1 / 2) * z)%C sum in
  dims <- unpack2 atf_vector ;;
  let '(bins, sensors) := dims in
  rows <- mvdr_old_loop atf_vector noise_psd_matrix sensors bins ;;
  Ok (rows_array bins sensors rows).

End Superseded.

(** * Specification vocabulary *)

Unset Implicit Arguments.

(** ** Stores and masks *)

(** The array behind a reference, and the store after an assignment of all
    the elements of that array. *)
Definition view (r : mref) (h : heap) : ndarray R :=
  if ref_T r then transposeT (cells h (ref_loc r)) else cells h (ref_loc r).

Definition write (r : mref) (v : ndarray R) (h : heap) : heap :=
  mkheap (upd (cells h) (ref_loc r) (if ref_T r then transposeT v else v)) (next_loc h).

(** The float array that is normalized: the caller's array for a float mask,
    a new array for a boolean mask. *)
Definition mask_cell (m : mask_t) (h : heap) : mref * heap :=
  match m with
  | MaskBool a =>
      (mkref (next_loc h) false,
       mkheap (upd (cells h) (next_loc h) (amap bool_to_R a)) (S (next_loc h)))
  | MaskFloat r => (r, h)
  end.

(** The shape of a mask as the program sees it. *)
Definition mask_shape (h : heap) (m : mask_t) : list nat :=
  match m with
  | MaskBool a => shape a
  | MaskFloat r =>
      if ref_T r then rev (shape (cells h (ref_loc r))) else shape (cells h (ref_loc r))
  end.

(** The elements of a mask, as floats, before the call. *)
Definition mask_array (h : heap) (m : mask_t) : ndarray R :=
  match m with
  | MaskBool a => amap bool_to_R a
  | MaskFloat r => view r h
  end.

Definition returned_shape {A} (r : result (ndarray A) * heap) : option (list nat) :=
  match fst r with
  | Ok a => Some (shape a)
  | Raise _ => None
  end.

(** The caller's mask is the same array before and after the call. *)
Definition mask_unchanged (observation : ndarray C) (r : mref)
  (sensor_dim source_dim time_dim : Z) (h : heap) : Prop :=
  forall res h',
    get_power_spectral_density_matrix observation (Some (MaskFloat r))
                                      sensor_dim source_dim time_dim h = (res, h') ->
    arr_eq (view r h') (view r h).

(** ** The PSD estimate *)

(** [mask / np.maximum(np.sum(mask, axis=time_dim, keepdims=True), 1e-10)] *)
Definition normalized (m : ndarray R) (time_dim : Z) : result (ndarray R) :=
  (s <- sum_keepdims m time_dim ;;
   inplace2 Rdiv m (amap (fun x => Rmax x 1e-10) s))%res.

(** The PSD matrix from the transposed observation and the normalized mask. *)
Definition weighted_psd (n : nat) (X : ndarray C) (M : ndarray R) (source_dim time_dim : Z)
  : result (ndarray C) :=
  (if ndim M + 1 =? ndim X then
     M1 <- expand_dims M (-2) ;;
     W <- bmap2 (fun m x => RtoC m * x)%C M1 X ;;
     einsum_dt_et W (amap Cconj X)
   else
     MT <- transpose M (axes_to_end n source_dim time_dim) ;;
     P <- einsum_kt_dt_et MT X (amap Cconj X) ;;
     if (source_dim <? -2)%Z then rollaxis P (-3) (source_dim mod Z.of_nat n) else Ok P)%res.

(** [a] equals its own conjugate transpose on the last two axes. *)
Definition hermitian (a : ndarray C) : Prop :=
  exists b n,
    shape a = b ++ [n; n]
    /\ forall bi i j, in_shape (b ++ [n; n]) (bi ++ [i; j]) ->
         data a (bi ++ [i; j]) = Cconj (data a (bi ++ [j; i])).

(** ** Linear systems *)

Definition square (n : nat) (A : matrix) : Prop :=
  length A = n /\ Forall (fun row => length row = n) A.

(** Entry [i] of the product of [A] with the vector [x] of length [n]. *)
Definition mulmv (n : nat) (A : matrix) (x : list C) (i : nat) : C :=
  Csum n (fun j => (nth j (nth i A []) C0 * nth j x C0)%C).

(** [x] solves [A x = b]. *)
Definition solves (n : nat) (A : matrix) (x b : list C) : Prop :=
  length x = n /\ forall i, i < n -> mulmv n A x i = nth i b C0.

(** Every right-hand side has exactly one solution. *)
Definition nonsingular (n : nat) (A : matrix) : Prop :=
  forall b, length b = n ->
    exists x, solves n A x b /\ forall y, solves n A y b -> y = x.

(** What the driver returns is a solution. *)
Definition gesv_sound (gesv : matrix -> list C -> option (list C)) : Prop :=
  forall n A b x, square n A -> length b = n -> gesv A b = Some x -> solves n A x b.

(** The driver fails exactly on singular matrices. *)
Definition gesv_exact (gesv : matrix -> list C -> option (list C)) : Prop :=
  forall n A b, square n A -> length b = n ->
    (exists x, gesv A b = Some x) <-> nonsingular n A.

Definition scaleM (c : C) (A : matrix) : matrix := map (map (Cmult c)) A.
Definition scaleV (c : C) (x : list C) : list C := map (Cmult c) x.

(** [a'] is [c] times [a], element by element. *)
Definition scaled_by (c : C) (a' a : ndarray C) : Prop :=
  shape a' = shape a /\ forall idx, data a' idx = (c * data a idx)%C.

(** A reference driver: the unique solution when there is one. *)
Definition gesv_ref (A : matrix) (b : list C) : option (list C) :=
  match excluded_middle_informative (nonsingular (length b) A) with
  | left H => Some (proj1_sig (constructive_indefinite_description _ (H b eq_refl)))
  | right _ => None
  end.

(** ** The generalized eigenvalue solvers *)

Section GevCalls.
Variable sp_eigh : matrix -> matrix -> result (list R * matrix).
Variable sp_eig : matrix -> matrix -> result (list C * matrix).

(** The solver calls made for bin [f]: always [scipy.linalg.eigh], then
    [scipy.linalg.eig] exactly when the former raised [LinAlgError]. *)
Definition bin_calls (A B : matrix) (f : nat) : list call :=
  match sp_eigh A B with
  | Raise LinAlgError => [CallEigh f; CallEig f]
  | _ => [CallEigh f]
  end.

(** The row stored for a bin: the column of the eigenvector matrix at the
    argmax of the eigenvalues, from the solver that was used. *)
Definition bin_row (A B : matrix) (sensors : nat) (row : list C) : Prop :=
  (exists vals vecs j,
      sp_eigh A B = Ok (vals, vecs) /\ argmax vals = Ok j
      /\ assign_row sensors (column vecs j) = Ok row)
  \/ (exists vals vecs j,
         sp_eigh A B = Raise LinAlgError /\ sp_eig A B = Ok (vals, vecs)
         /\ argmaxC vals = Ok j /\ assign_row sensors (column vecs j) = Ok row).

(** The exception that ends the loop at a bin: raised by [eigh] and not a
    [LinAlgError], raised by [eig] after the fallback, or raised while the
    eigenvector is selected and stored. *)
Definition bin_raises (A B : matrix) (sensors : nat) (e : exn) : Prop :=
  (sp_eigh A B = Raise e /\ e <> LinAlgError)
  \/ (sp_eigh A B = Raise LinAlgError /\ sp_eig A B = Raise e)
  \/ (exists vals vecs,
         sp_eigh A B = Ok (vals, vecs)
         /\ rbind (argmax vals) (fun j => assign_row sensors (column vecs j)) = Raise e)
  \/ (exists vals vecs,
         sp_eigh A B = Raise LinAlgError /\ sp_eig A B = Ok (vals, vecs)
         /\ rbind (argmaxC vals) (fun j => assign_row sensors (column vecs j)) = Raise e).

End GevCalls.

(** [target_psd_matrix[f, :, :]] of a three-dimensional array. *)
Definition bin_matrix (a : ndarray C) (f : nat) : matrix :=
  matrix_at a [f] (nth 1 (shape a) 0) (nth 2 (shape a) 0).

(** ** Example inputs *)

Definition two_frames : ndarray C := mkarr [1; 2] (fun _ => C1).
Definition ones_heap : heap := mkheap (fun _ => mkarr [2] (fun _ => 1%R)) 1.

Definition ones_mask : mask_t := MaskFloat (mkref 0 false).

Definition example_observation : ndarray C := mkarr [51; 6; 31] (fun _ => C1).
Definition example_mask : mask_t := MaskBool (mkarr [51; 31] (fun _ => true)).
Definition example_source_mask : mask_t := MaskBool (mkarr [51; 2; 31] (fun _ => true)).

Definition failing_eigh : matrix -> matrix -> result (list R * matrix) :=
  fun _ _ => Raise LinAlgError.
Definition unit_eig : matrix -> matrix -> result (list C * matrix) :=
  fun _ _ => Ok ([C1], [[C1]]).
Definition unit_cube : ndarray C := mkarr [1; 1; 1] (fun _ => C1).

Definition unit_row : ndarray C := mkarr [1; 1] (fun _ => C1).

(** *** Two targets seen by two sensors *)

(** One bin; the ATF vector of the first target is [1, 0], the one of the
    second target is [1, 1]; the noise PSD is the identity matrix. *)
Definition target_pair : ndarray C :=
  mkarr [2; 1; 2]
        (fun idx => if (nth 0 idx 0 =? 0) && (nth 2 idx 0 =? 1) then C0 else C1).

Definition identity_noise : ndarray C :=
  mkarr [1; 2; 2] (fun idx => if nth 1 idx 0 =? nth 2 idx 0 then C1 else C0).

(** The response vector [1, 0]. *)
Definition first_target : ndarray C :=
  mkarr [2] (fun idx => if nth 0 idx 0 =? 0 then C1 else C0).

(** *** An input on which the PCA and the MVDR beamformers differ *)

(** Two frames, two sensors, one bin: the frames are [1, 0] and [1, 1]. *)
Definition bug_mix : ndarray C :=
  mkarr [2; 2; 1]
        (fun idx => if (nth 0 idx 0 =? 0) && (nth 1 idx 0 =? 1) then C0 else C1).

(** The target mask [[1.], [0.]] at location 0 and the noise mask
    [[1.], [1.]] at location 1. *)
Definition bug_heap : heap :=
  mkheap (fun l => if l =? 0
                   then mkarr [2; 1] (fun idx => if nth 0 idx 0 =? 0 then 1%R else 0%R)
                   else mkarr [2; 1] (fun _ => 1%R))
         2.

Definition bug_target : mask_t := MaskFloat (mkref 0 false).
Definition bug_noise : mask_t := MaskFloat (mkref 1 false).

(** The eigen-decomposition of [[1, 0], [0, 0]] as [numpy.linalg.eigh]
    returns it: eigenvalues in ascending order. *)
Definition eigh_e1 : matrix -> result (list R * matrix) :=
  fun _ => Ok ([0%R; 1%R], [[C0; C1]; [C1; C0]]).

(** ** Quadratic forms *)

(** [v^H A v] for the matrix that the last two axes of [a] hold at the
    leading index [bi]. *)
Definition quadratic_form (D : nat) (a : ndarray C) (bi : list nat) (v : nat -> C) : C :=
  Csum D (fun d => Csum D (fun e => (Cconj (v d) * data a (bi ++ [d; e]) * v e)%C)).

(** The Hermitian part [(N[f] + N[f]^H) / 2] of the matrix of bin [f] of a
    stack of shape (bins, sensors, sensors). *)
Definition hermitian_part (a : ndarray C) (f D : nat) : matrix :=
  map (fun i =>
         map (fun j => (RtoC 0.5 * (data a [f; i; j] + Cconj (data a [f; j; i])))%C)
             (seq 0 D))
      (seq 0 D).

(** ** Blind analytic normalization *)

(** [v^H N N v] and [v^H N v] at bin [f], for a vector [v] of shape
    (bins, sensors) and a matrix [N] of shape (bins, sensors, sensors). *)
Definition ban_numerator (D : nat) (vector noise : ndarray C) (f : nat) : C :=
  Csum D (fun k =>
            (Csum D (fun j =>
                       Csum D (fun i => Cconj (data vector [f; i]) * data noise [f; i; j])
                       * data noise [f; j; k])
             * data vector [f; k])%C).

Definition ban_denominator (D : nat) (vector noise : ndarray C) (f : nat) : C :=
  Csum D (fun k =>
            (Csum D (fun i => Cconj (data vector [f; i]) * data noise [f; i; k])
             * data vector [f; k])%C).

(** The gain of bin [f]: [|sqrt(v^H N N v)| / |v^H N v|]. *)
Definition ban_gain (D : nat) (vector noise : ndarray C) (f : nat) : R :=
  (sqrt (Cmod (ban_numerator D vector noise f)) / Cmod (ban_denominator D vector noise f))%R.

(** ** The superseded loops *)

(** The row that one pass of the old loop computes. *)
Definition mvdr_row (D : nat) (a x : list C) : list C :=
  map (fun i => (nth i x C0 / Csum D (fun k => Cconj (nth k a C0) * nth k x C0))%C)
      (seq 0 D).

(** The number of [t < n] that [f] selects. *)
Fixpoint count_true (n : nat) (f : nat -> bool) : nat :=
  match n with
  | O => 0
  | S k => count_true k f + (if f k then 1 else 0)
  end.

(** ** Eigen-decompositions of a Hermitian matrix *)

(** [x] is an eigenvector of [A] for the real eigenvalue [lam]. *)
Definition eigenvector (n : nat) (A : matrix) (lam : R) (x : list C) : Prop :=
  length x = n /\ forall i, i < n -> mulmv n A x i = (RtoC lam * nth i x C0)%C.

Definition nonzero (n : nat) (x : list C) : Prop :=
  ~ (forall i, i < n -> nth i x C0 = C0).

Definition unit_norm (n : nat) (x : list C) : Prop :=
  Rsum n (fun i => Cnorm2 (nth i x C0)) = 1%R.

(** What [numpy.linalg.eigh] and [scipy.linalg.eigh] document for the pair
    [(w, v)] they return for [A]: [v[:, j]] is a normalized eigenvector for
    [w[j]], and [w] holds every eigenvalue of [A]. *)
Definition eigh_correct (n : nat) (A : matrix) (e : list R * matrix) : Prop :=
  length (fst e) = n
  /\ length (snd e) = n
  /\ (forall j, j < n ->
        eigenvector n A (nth j (fst e) 0%R) (column (snd e) j)
        /\ unit_norm n (column (snd e) j))
  /\ (forall mu x, eigenvector n A mu x -> nonzero n x -> In mu (fst e)).

(** The largest eigenvalue of [A] is simple: its eigenvectors are the
    multiples of one vector. *)
Definition simple_top (n : nat) (A : matrix) : Prop :=
  forall lam x y,
    eigenvector n A lam x -> eigenvector n A lam y -> nonzero n y ->
    (forall mu z, eigenvector n A mu z -> nonzero n z -> (mu <= lam)%R) ->
    exists c, forall i, i < n -> nth i x C0 = (c * nth i y C0)%C.

(** ** More example inputs *)

(** A store whose arrays are masks of three frames. *)
Definition three_frames_heap : heap := mkheap (fun _ => mkarr [3] (fun _ => 1%R)) 1.

(** An eigen-decomposition with the single eigenvalue 1. *)
Definition unit_eigh : matrix -> result (list R * matrix) :=
  fun _ => Ok ([1%R], [[C1]]).

(** The same decomposition with the eigenvector of the other sign. *)
Definition neg_unit_eigh : matrix -> result (list R * matrix) :=
  fun _ => Ok ([1%R], [[RtoC (-1)]]).

Definition double_row : ndarray C := amap (Cmult (RtoC 2)) unit_row.
Definition double_cube : ndarray C := amap (Cmult (RtoC 2)) unit_cube.

(** Stores whose arrays are masks of other shapes and values, and a boolean
    mask of two frames. *)
Definition twos_heap : heap := mkheap (fun _ => mkarr [2] (fun _ => 2%R)) 1.
Definition source_heap : heap := mkheap (fun _ => mkarr [1; 2] (fun _ => 1%R)) 1.
Definition cube_heap : heap := mkheap (fun _ => mkarr [1; 1; 1] (fun _ => 1%R)) 1.
Definition true_mask : mask_t := MaskBool (mkarr [2] (fun _ => true)).

Definition unit_mask_heap : heap := mkheap (fun _ => mkarr [1; 1] (fun _ => 1%R)) 1.

(** The response vector [2, 3]. *)
Definition mixed_response : ndarray C :=
  mkarr [2] (fun idx => if nth 0 idx 0 =? 0 then RtoC 2 else RtoC 3).

(** * Properties *)

(** ** Complex arithmetic *)

Ltac ceq := apply injective_projections; simpl.

Lemma Cplus_comm (a b : C) : (a + b)%C = (b + a)%C.
Proof. unfold Cplus. ceq; ring. Qed.

Lemma Cplus_assoc (a b c : C) : (a + (b + c))%C = ((a + b) + c)%C.
Proof. unfold Cplus. ceq; ring. Qed.

Lemma Cplus_0_l (a : C) : (C0 + a)%C = a.
Proof. destruct a. unfold Cplus, C0, RtoC. ceq; ring. Qed.

Lemma Cplus_0_r (a : C) : (a + C0)%C = a.
Proof. destruct a. unfold Cplus, C0, RtoC. ceq; ring. Qed.

Lemma Cmult_comm (a b : C) : (a * b)%C = (b * a)%C.
Proof. unfold Cmult. ceq; ring. Qed.

Lemma Cmult_assoc (a b c : C) : (a * (b * c))%C = ((a * b) * c)%C.
Proof. unfold Cmult. ceq; ring. Qed.

Lemma Cmult_1_l (a : C) : (C1 * a)%C = a.
Proof. destruct a. unfold Cmult, C1, RtoC. ceq; ring. Qed.

Lemma Cmult_1_r (a : C) : (a * C1)%C = a.
Proof. destruct a. unfold Cmult, C1, RtoC. ceq; ring. Qed.

Lemma Cmult_0_l (a : C) : (C0 * a)%C = C0.
Proof. unfold Cmult, C0, RtoC. ceq; ring. Qed.

Lemma Cmult_0_r (a : C) : (a * C0)%C = C0.
Proof. unfold Cmult, C0, RtoC. ceq; ring. Qed.

Lemma Cmult_plus_distr_l (a b c : C) : (a * (b + c))%C = (a * b + a * c)%C.
Proof. unfold Cmult, Cplus. ceq; ring. Qed.

Lemma Cmult_plus_distr_r (a b c : C) : ((a + b) * c)%C = (a * c + b * c)%C.
Proof. unfold Cmult, Cplus. ceq; ring. Qed.

Lemma Cconj_conj (a : C) : Cconj (Cconj a) = a.
Proof. destruct a. unfold Cconj. ceq; ring. Qed.

Lemma Cconj_plus (a b : C) : Cconj (a + b) = (Cconj a + Cconj b)%C.
Proof. unfold Cconj, Cplus. ceq; ring. Qed.

Lemma Cconj_mult (a b : C) : Cconj (a * b) = (Cconj a * Cconj b)%C.
Proof. unfold Cconj, Cmult. ceq; ring. Qed.

Lemma Cconj_RtoC (x : R) : Cconj (RtoC x) = RtoC x.
Proof. unfold Cconj, RtoC. ceq; ring. Qed.

Lemma Cconj_0 : Cconj C0 = C0.
Proof. apply Cconj_RtoC. Qed.

Lemma Cnorm2_conj (a : C) : Cnorm2 (Cconj a) = Cnorm2 a.
Proof. unfold Cnorm2, Cconj. simpl. ring. Qed.

Lemma Cconj_inv (a : C) : Cconj (Cinv a) = Cinv (Cconj a).
Proof. unfold Cinv. rewrite Cnorm2_conj. unfold Cconj. ceq; unfold Rdiv; ring. Qed.

Lemma Cconj_div (a b : C) : Cconj (a / b) = (Cconj a / Cconj b)%C.
Proof. unfold Cdiv. now rewrite Cconj_mult, Cconj_inv. Qed.

Lemma Cnorm2_pos (a : C) : a <> C0 -> (0 < Cnorm2 a)%R.
Proof.
  destruct a as [x y]. unfold Cnorm2, C0, RtoC. simpl. intros H.
  destruct (Req_dec_T x 0) as [Hx | Hx].
  - destruct (Req_dec_T y 0) as [Hy | Hy].
    + subst. now contradiction H.
    + nra.
  - nra.
Qed.

Lemma Cinv_r (a : C) : a <> C0 -> (a * Cinv a)%C = C1.
Proof.
  intros H. pose proof (Cnorm2_pos a H) as Hn.
  destruct a as [x y]. unfold Cmult, Cinv, C1, RtoC, Cnorm2 in *. simpl in *.
  ceq; field; lra.
Qed.

Lemma Cdiv_same (a : C) : a <> C0 -> (a / a)%C = C1.
Proof. apply Cinv_r. Qed.

Lemma Cmult_div_assoc (a b c : C) : (a * (b / c))%C = ((a * b) / c)%C.
Proof. unfold Cdiv. apply Cmult_assoc. Qed.

Lemma Cmult_integral (a b : C) : (a * b)%C = C0 -> a = C0 \/ b = C0.
Proof.
  intros H.
  destruct (Ceq_dec a C0) as [Ha | Ha]; [now left | right].
  rewrite <- (Cmult_1_l b), <- (Cinv_r a Ha), (Cmult_comm a), <- Cmult_assoc, H.
  apply Cmult_0_r.
Qed.

Lemma RtoC_mult (x y : R) : RtoC (x * y) = (RtoC x * RtoC y)%C.
Proof. unfold RtoC, Cmult. ceq; ring. Qed.

Lemma RtoC_inj (x y : R) : RtoC x = RtoC y -> x = y.
Proof. unfold RtoC. now inversion 1. Qed.

Lemma Cinv_RtoC (x : R) : Cinv (RtoC x) = RtoC (/ x).
Proof.
  unfold Cinv, RtoC, Cnorm2. simpl.
  destruct (Req_dec_T x 0) as [-> | Hx].
  - ceq; unfold Rdiv; rewrite ?Rmult_0_l, ?Rplus_0_l, ?Rinv_0; ring.
  - ceq; field; nra.
Qed.

(** *** Finite sums *)

Lemma Csum_ext (n : nat) (f g : nat -> C) :
  (forall t, t < n -> f t = g t) -> Csum n f = Csum n g.
Proof.
  induction n as [| n IH]; simpl; intros H; [reflexivity |].
  rewrite IH, H by (intros; auto with arith). reflexivity.
Qed.

Lemma Csum_conj (n : nat) (f : nat -> C) :
  Cconj (Csum n f) = Csum n (fun t => Cconj (f t)).
Proof.
  induction n as [| n IH]; simpl; [apply Cconj_0 |].
  now rewrite Cconj_plus, IH.
Qed.

Lemma Csum_mult_r (n : nat) (f : nat -> C) (c : C) :
  (Csum n f * c)%C = Csum n (fun t => f t * c)%C.
Proof.
  induction n as [| n IH]; simpl; [apply Cmult_0_l |].
  now rewrite Cmult_plus_distr_r, IH.
Qed.

Lemma Csum_mult_l (n : nat) (f : nat -> C) (c : C) :
  (c * Csum n f)%C = Csum n (fun t => c * f t)%C.
Proof.
  rewrite Cmult_comm, Csum_mult_r. apply Csum_ext. intros. apply Cmult_comm.
Qed.

Lemma Csum_plus (n : nat) (f g : nat -> C) :
  (Csum n f + Csum n g)%C = Csum n (fun t => f t + g t)%C.
Proof.
  induction n as [| n IH]; simpl; [apply Cplus_0_l |].
  rewrite <- IH. unfold Cplus. ceq; ring.
Qed.

Lemma Csum_zero (n : nat) (f : nat -> C) :
  (forall t, t < n -> f t = C0) -> Csum n f = C0.
Proof.
  induction n as [| n IH]; simpl; intros H; [reflexivity |].
  rewrite IH, H by (intros; auto with arith). apply Cplus_0_l.
Qed.

Lemma Csum_swap (n m : nat) (f : nat -> nat -> C) :
  Csum n (fun i => Csum m (fun j => f i j)) = Csum m (fun j => Csum n (fun i => f i j)).
Proof.
  induction n as [| n IH]; simpl.
  - symmetry. now apply Csum_zero.
  - rewrite IH. apply Csum_plus.
Qed.

Lemma Rsum_ext (n : nat) (f g : nat -> R) :
  (forall t, t < n -> f t = g t) -> Rsum n f = Rsum n g.
Proof.
  induction n as [| n IH]; simpl; intros H; [reflexivity |].
  rewrite IH, H by (intros; auto with arith). reflexivity.
Qed.

Lemma Rsum_const (n : nat) (c : R) : Rsum n (fun _ => c) = (INR n * c)%R.
Proof.
  induction n as [| n IH]; [simpl; ring |].
  cbn [Rsum]. rewrite IH, S_INR. ring.
Qed.

(** ** Shapes and indices *)

Lemma unsnoc_app (l : list nat) (x : nat) : unsnoc (l ++ [x]) = Some (l, x).
Proof. unfold unsnoc. now rewrite rev_unit, rev_involutive. Qed.

Lemma unsnoc2_app (l : list nat) (x y : nat) : unsnoc2 (l ++ [x; y]) = Some (l, x, y).
Proof.
  unfold unsnoc2. change [x; y] with ([x] ++ [y]).
  now rewrite app_assoc, !rev_unit, rev_involutive.
Qed.

Lemma unsnoc3_app (l : list nat) (x y z : nat) :
  unsnoc3 (l ++ [x; y; z]) = Some (l, x, y, z).
Proof.
  unfold unsnoc3. change [x; y; z] with ([x] ++ [y] ++ [z]).
  now rewrite !app_assoc, !rev_unit, rev_involutive.
Qed.

Lemma unsnoc_inv (l b : list nat) (x : nat) : unsnoc l = Some (b, x) -> l = b ++ [x].
Proof.
  unfold unsnoc. destruct (rev l) as [| y r] eqn:E; [discriminate |].
  intros H. inversion H; subst.
  rewrite <- (rev_involutive l), E. reflexivity.
Qed.

Lemma unsnoc2_inv (l b : list nat) (x y : nat) :
  unsnoc2 l = Some (b, x, y) -> l = b ++ [x; y].
Proof.
  unfold unsnoc2. destruct (rev l) as [| y' [| x' r]] eqn:E; try discriminate.
  intros H. inversion H; subst.
  rewrite <- (rev_involutive l), E. simpl. now rewrite <- app_assoc.
Qed.

Lemma unsnoc3_inv (l b : list nat) (x y z : nat) :
  unsnoc3 l = Some (b, x, y, z) -> l = b ++ [x; y; z].
Proof.
  unfold unsnoc3. destruct (rev l) as [| z' [| y' [| x' r]]] eqn:E; try discriminate.
  intros H. inversion H; subst.
  rewrite <- (rev_involutive l), E. simpl. now rewrite <- !app_assoc.
Qed.

Lemma unsnoc2_length (l : list nat) : 2 <= length l -> exists b x y, l = b ++ [x; y].
Proof.
  intros H. destruct (unsnoc2 l) as [[[b x] y] |] eqn:E.
  - exists b, x, y. now apply unsnoc2_inv.
  - unfold unsnoc2 in E. rewrite <- length_rev in H.
    destruct (rev l) as [| y [| x r]]; simpl in H; try lia. discriminate.
Qed.

Lemma bdim_refl (a : nat) : bdim a a = Some a.
Proof. unfold bdim. now rewrite Nat.eqb_refl. Qed.

Lemma bdim_1_l (a : nat) : bdim 1 a = Some a.
Proof. unfold bdim. destruct (1 =? a) eqn:E; [apply Nat.eqb_eq in E; now subst | reflexivity]. Qed.

Lemma bdim_1_r (a : nat) : bdim a 1 = Some a.
Proof.
  unfold bdim. destruct (a =? 1) eqn:E; [reflexivity |]. reflexivity.
Qed.

Lemma bshape_rev_refl (s : list nat) : bshape_rev s s = Some s.
Proof. induction s as [| a s IH]; simpl; [reflexivity |]. now rewrite bdim_refl, IH. Qed.

Lemma bshape_refl (s : list nat) : bshape s s = Some s.
Proof. unfold bshape. rewrite bshape_rev_refl. simpl. now rewrite rev_involutive. Qed.

Lemma bshape_app (s1 s2 : list nat) (a b : nat) :
  bshape (s1 ++ [a]) (s2 ++ [b]) =
  match bdim a b, bshape s1 s2 with
  | Some d, Some s => Some (s ++ [d])
  | _, _ => None
  end.
Proof.
  unfold bshape. rewrite !rev_unit. simpl.
  destruct (bdim a b); [| reflexivity].
  destruct (bshape_rev (rev s1) (rev s2)); reflexivity.
Qed.

Lemma bshape_nil_l (s : list nat) : bshape [] s = Some s.
Proof. unfold bshape. simpl. now rewrite rev_involutive. Qed.

Lemma bshape_nil_r (s : list nat) : bshape s [] = Some s.
Proof.
  unfold bshape. change (rev []) with (@nil nat).
  assert (E : bshape_rev (rev s) [] = Some (rev s)) by (destruct (rev s); reflexivity).
  rewrite E. simpl. now rewrite rev_involutive.
Qed.

Lemma bidx_app (s idx : list nat) (d i : nat) :
  bidx (s ++ [d]) (idx ++ [i]) = bidx s idx ++ [cl d i].
Proof. unfold bidx. now rewrite !rev_unit. Qed.

Lemma bidx_app2 (s idx : list nat) (d1 d2 i1 i2 : nat) :
  bidx (s ++ [d1; d2]) (idx ++ [i1; i2]) = bidx s idx ++ [cl d1 i1; cl d2 i2].
Proof.
  change [d1; d2] with ([d1] ++ [d2]). change [i1; i2] with ([i1] ++ [i2]).
  rewrite !app_assoc, !bidx_app, <- app_assoc. reflexivity.
Qed.

Lemma cl_lt (d i : nat) : i < d -> cl d i = i.
Proof. unfold cl. destruct (d =? 1) eqn:E; [apply Nat.eqb_eq in E; lia | reflexivity]. Qed.

Lemma clamp_id (s idx : list nat) : Forall2 lt idx s -> clamp s idx = idx.
Proof.
  intros H. induction H as [| i d idx s Hi _ IH]; simpl; [reflexivity |].
  now rewrite cl_lt, IH.
Qed.

Lemma Forall2_rev {A B} (P : A -> B -> Prop) (l1 : list A) (l2 : list B) :
  Forall2 P l1 l2 -> Forall2 P (rev l1) (rev l2).
Proof.
  induction 1; simpl; [constructor |].
  apply Forall2_app; [assumption | repeat constructor; assumption].
Qed.

Lemma bidx_id (s idx : list nat) : in_shape s idx -> bidx s idx = idx.
Proof.
  intros H. unfold bidx. rewrite clamp_id by now apply Forall2_rev.
  apply rev_involutive.
Qed.

Lemma in_shape_app (s1 s2 i1 i2 : list nat) :
  length i1 = length s1 ->
  in_shape (s1 ++ s2) (i1 ++ i2) <-> in_shape s1 i1 /\ in_shape s2 i2.
Proof.
  unfold in_shape. revert s1.
  induction i1 as [| i i1 IH]; intros [| d s1] Hl; simpl in Hl; try discriminate.
  - simpl. split; [intros H; split; [constructor | exact H] | intros [_ H]; exact H].
  - simpl. split.
    + intros H. inversion H; subst. apply IH in H5 as [H1 H2]; [| lia].
      split; [constructor |]; assumption.
    + intros [H1 H2]. inversion H1; subst. constructor; [assumption |].
      apply IH; [lia | now split].
Qed.

(** ** Input validation of the wrappers *)

(** C9: each of the three wrappers raises
    [ValueError('At least one mask needs to be present.')] when both masks
    are [None], whatever the mix, the other arguments and the solvers are,
    and the store is left as it was: nothing has been computed. *)
Theorem wrappers_reject_missing_masks
  (gesv : matrix -> list C -> option (list C))
  (np_eigh : matrix -> result (list R * matrix))
  (sp_eigh : matrix -> matrix -> result (list R * matrix))
  (sp_eig : matrix -> matrix -> result (list C * matrix))
  (mix : ndarray C) (normalization : bool) (regularization : option R) (h : heap) :
  gev_wrapper_on_masks sp_eigh sp_eig mix None None normalization h
  = (Raise (ValueError "At least one mask needs to be present."), h)
  /\ pca_wrapper_on_masks np_eigh mix None None h
     = (Raise (ValueError "At least one mask needs to be present."), h)
  /\ pca_mvdr_wrapper_on_masks gesv np_eigh mix None None regularization h
     = (Raise (ValueError "At least one mask needs to be present."), h).
Proof. repeat split. Qed.

(** ** The GEV solver and its fallback *)

Section GevFallback.
Variable sp_eigh : matrix -> matrix -> result (list R * matrix).
Variable sp_eig : matrix -> matrix -> result (list C * matrix).

Lemma assign_row_length (sensors : nat) (col row : list C) :
  assign_row sensors col = Ok row -> length row = sensors.
Proof.
  unfold assign_row. destruct (length col =? sensors) eqn:E.
  - intros H. inversion H; subst. now apply Nat.eqb_eq.
  - destruct (length col =? 1); [| discriminate].
    intros H. inversion H. apply repeat_length.
Qed.

Section Bin.
Variables target noise : ndarray C.
Variables bins sensors cols nb m n : nat.
Hypothesis target_shape : shape target = [bins; sensors; cols].
Hypothesis noise_shape : shape noise = [nb; m; n].

Lemma gev_bin_calls (f : nat) :
  f < nb ->
  fst (gev_bin sp_eigh sp_eig target noise sensors cols f)
  = bin_calls sp_eigh (bin_matrix target f) (bin_matrix noise f) f.
Proof.
  intros Hf. apply Nat.ltb_lt in Hf.
  unfold gev_bin, bin_calls, bin_matrix. rewrite target_shape, noise_shape, Hf.
  cbn [nth]. destruct (sp_eigh _ _) as [[vals vecs] | e]; [reflexivity |].
  destruct e; reflexivity.
Qed.

Lemma gev_bin_row (f : nat) (row : list C) :
  f < nb ->
  snd (gev_bin sp_eigh sp_eig target noise sensors cols f) = Ok row ->
  bin_row sp_eigh sp_eig (bin_matrix target f) (bin_matrix noise f) sensors row.
Proof.
  intros Hf. apply Nat.ltb_lt in Hf.
  unfold gev_bin, bin_row, bin_matrix. rewrite target_shape, noise_shape, Hf.
  cbn [nth]. destruct (sp_eigh _ _) as [[vals vecs] | e] eqn:E1.
  - cbn [snd]. intros H. left.
    destruct (argmax vals) as [j |] eqn:Ej; [| discriminate].
    exists vals, vecs, j. repeat split; assumption.
  - destruct e; try discriminate. cbn [snd]. intros H. right.
    destruct (sp_eig _ _) as [[vals vecs] | e] eqn:E2; [| discriminate].
    destruct (argmaxC vals) as [j |] eqn:Ej; [| discriminate].
    exists vals, vecs, j. repeat split; assumption.
Qed.

Lemma gev_bin_raises (f : nat) (e : exn) :
  f < nb ->
  snd (gev_bin sp_eigh sp_eig target noise sensors cols f) = Raise e ->
  bin_raises sp_eigh sp_eig (bin_matrix target f) (bin_matrix noise f) sensors e.
Proof.
  intros Hf. apply Nat.ltb_lt in Hf.
  unfold gev_bin, bin_raises, bin_matrix. rewrite target_shape, noise_shape, Hf.
  cbn [nth]. destruct (sp_eigh _ _) as [[vals vecs] | e1] eqn:E1.
  - cbn [snd]. intros H. right. right. left. exists vals, vecs. now split.
  - destruct e1; cbn [snd]; intros H;
      try (inversion H; subst; left; split; [reflexivity | discriminate]).
    right. destruct (sp_eig _ _) as [[vals vecs] | e2] eqn:E2.
    + right. right. exists vals, vecs. now repeat split.
    + left. inversion H; subst. now split.
Qed.

End Bin.

(** The loop processes the bins in order and stops at the first one that
    raises. *)
Lemma gev_loop_trace (target noise : ndarray C) (sensors cols count : nat)
  (tr : list call) (r : result (list (list C))) :
  gev_loop sp_eigh sp_eig target noise sensors cols count = (tr, r) ->
  exists k,
    k <= count
    /\ tr = flat_map (fun f => fst (gev_bin sp_eigh sp_eig target noise sensors cols f))
                     (seq 0 k)
    /\ match r with
       | Ok rows =>
           k = count /\ length rows = count
           /\ forall f, f < count ->
                snd (gev_bin sp_eigh sp_eig target noise sensors cols f) = Ok (nth f rows [])
       | Raise e =>
           0 < k /\ snd (gev_bin sp_eigh sp_eig target noise sensors cols (k - 1)) = Raise e
       end.
Proof.
  revert tr r. induction count as [| c IH]; intros tr r; cbn [gev_loop].
  - intros H. inversion H; subst. exists 0.
    split; [lia |]. split; [reflexivity |]. split; [reflexivity |]. split; [reflexivity |].
    intros f Hf. lia.
  - destruct (gev_loop _ _ _ _ _ _ c) as [tr0 [rows0 | e]] eqn:E.
    + destruct (IH _ _ eq_refl) as (k & Hk & Htr & -> & Hlen & Hrows).
      destruct (gev_bin sp_eigh sp_eig target noise sensors cols c) as [tr1 r1] eqn:Ec.
      assert (Htr' : tr0 ++ tr1
                     = flat_map
                         (fun f => fst (gev_bin sp_eigh sp_eig target noise sensors cols f))
                         (seq 0 (S c))).
      { rewrite seq_S, flat_map_app. simpl. now rewrite Ec, app_nil_r, <- Htr. }
      destruct r1 as [v | e]; intros H; inversion H; subst tr r; clear H;
        exists (S c); (split; [lia |]); (split; [exact Htr' |]).
      * split; [reflexivity |]. split; [rewrite length_app; simpl; lia |].
        intros f Hf. destruct (Nat.eq_dec f (length rows0)) as [-> | Hne].
        -- rewrite Hlen, Ec. simpl. now rewrite <- Hlen, nth_middle.
        -- rewrite app_nth1 by lia. apply Hrows. lia.
      * split; [lia |]. replace (S c - 1) with c by lia. now rewrite Ec.
    + destruct (IH _ _ eq_refl) as (k & Hk & Htr & Hpos & Hlast).
      intros H. inversion H; subst tr r. exists k. repeat split; try assumption. lia.
Qed.

Lemma bin_calls_tag (A B : matrix) (f g : nat) :
  In (CallEig g) (bin_calls sp_eigh A B f) <-> g = f /\ sp_eigh A B = Raise LinAlgError.
Proof.
  unfold bin_calls. destruct (sp_eigh A B) as [r | e].
  - simpl. split; [intros [H | []]; discriminate | intros [_ H]; discriminate].
  - destruct e; simpl;
      try (split; [intros [H | []]; discriminate | intros [_ H]; discriminate]).
    split.
    + intros [H | [H | []]]; [discriminate |]. inversion H. now split.
    + intros [-> _]. right. now left.
Qed.

Lemma bin_calls_head (A B : matrix) (f : nat) :
  hd_error (bin_calls sp_eigh A B f) = Some (CallEigh f).
Proof.
  unfold bin_calls. destruct (sp_eigh A B) as [r | e]; [reflexivity |].
  destruct e; reflexivity.
Qed.

Lemma rows_array_row (bins sensors f : nat) (rows : list (list C)) :
  length (nth f rows []) = sensors ->
  vector_at (rows_array bins sensors rows) [f] sensors = nth f rows [].
Proof.
  intros Hl. unfold vector_at, rows_array. cbn [data app nth].
  rewrite <- Hl. generalize (nth f rows []) as row. clear.
  intros row. apply nth_ext with (d := C0) (d' := C0).
  - now rewrite length_map, length_seq.
  - intros k Hk. rewrite length_map, length_seq in Hk.
    rewrite (nth_indep _ C0 (nth 0 row C0)) by (now rewrite length_map, length_seq).
    rewrite (map_nth (fun d => nth d row C0)), seq_nth by assumption. reflexivity.
Qed.

(** C7: for PSD matrices of shape (bins, sensors, sensors), whatever the
    outcome of [get_gev_vector], it processed the bins [0 .. k-1] in order
    (all of them when it returns); every processed bin [f] was first given
    to the Hermitian-definite solver [scipy.linalg.eigh]; the general solver
    [scipy.linalg.eig] was called for [f] if and only if [eigh] raised
    [LinAlgError] there.  When the function returns, row [f] of the result
    is the column of the eigenvector matrix at the argmax of the
    eigenvalues, both as returned by the solver that was used; when it
    raises, the exception comes from the solver used for the last processed
    bin or from selecting and storing its eigenvector. *)
Theorem gev_fallback (target noise : ndarray C) (bins sensors : nat)
  (tr : list call) (r : result (ndarray C)) :
  shape target = [bins; sensors; sensors] ->
  shape noise = [bins; sensors; sensors] ->
  get_gev_vector_traced sp_eigh sp_eig target noise = (tr, r) ->
  let A := bin_matrix target in
  let B := bin_matrix noise in
  get_gev_vector sp_eigh sp_eig target noise = r
  /\ exists k,
       k <= bins
       /\ tr = flat_map (fun f => bin_calls sp_eigh (A f) (B f) f) (seq 0 k)
       /\ (forall f, f < k -> hd_error (bin_calls sp_eigh (A f) (B f) f) = Some (CallEigh f))
       /\ (forall f, In (CallEig f) tr <-> f < k /\ sp_eigh (A f) (B f) = Raise LinAlgError)
       /\ match r with
          | Ok w =>
              k = bins /\ shape w = [bins; sensors]
              /\ forall f, f < bins -> bin_row sp_eigh sp_eig (A f) (B f) sensors (vector_at w [f] sensors)
          | Raise e => 0 < k /\ bin_raises sp_eigh sp_eig (A (k - 1)) (B (k - 1)) sensors e
          end.
Proof.
  intros Hs Hn H A B. split; [unfold get_gev_vector; now rewrite H |].
  revert H. unfold get_gev_vector_traced. rewrite Hs.
  destruct (gev_loop _ _ _ _ _ _ _) as [tr0 r0] eqn:E.
  destruct (gev_loop_trace _ _ _ _ _ _ _ E) as (k & Hk & Htr & Hr).
  assert (Htr' : tr0 = flat_map (fun f => bin_calls sp_eigh (A f) (B f) f) (seq 0 k)).
  { rewrite Htr. clear Htr Hr. induction k as [| c IHc]; [reflexivity |].
    rewrite seq_S, !flat_map_app, IHc by lia. simpl. rewrite !app_nil_r. f_equal.
    eapply gev_bin_calls; [exact Hs | exact Hn | lia]. }
  intros H. exists k. split; [exact Hk |].
  assert (Ht : tr = tr0) by (destruct r0; now inversion H). subst tr.
  split; [exact Htr' |]. split; [intros f _; apply bin_calls_head |].
  split.
  { intros f. rewrite Htr'. split.
    - intros Hin. apply in_flat_map in Hin as (g & Hg & Hin). apply in_seq in Hg.
      apply bin_calls_tag in Hin as [-> Hin]. split; [lia | exact Hin].
    - intros [Hf He]. apply in_flat_map. exists f. split; [apply in_seq; lia |].
      apply bin_calls_tag. now split. }
  destruct r0 as [rows | e]; inversion H; subst r; clear H.
  - destruct Hr as (-> & Hlen & Hrows). split; [reflexivity |]. split; [reflexivity |].
    intros f Hf.
    assert (Hrow := Hrows f Hf). eapply gev_bin_row in Hrow; [| exact Hs | exact Hn | exact Hf].
    rewrite rows_array_row; [exact Hrow |].
    destruct Hrow as [(vals & vecs & j & _ & _ & Ha) | (vals & vecs & j & _ & _ & _ & Ha)];
      now apply assign_row_length in Ha.
  - destruct Hr as (Hpos & Hlast). split; [exact Hpos |].
    eapply gev_bin_raises; [exact Hs | exact Hn | lia | exact Hlast].
Qed.

End GevFallback.

(** *** Reading an operand through a broadcast *)

Lemma cl_idem (d i : nat) : cl d (cl d i) = cl d i.
Proof. unfold cl. destruct (d =? 1) eqn:E; [now rewrite ?E | now rewrite ?E]. Qed.

Lemma cl_bdim_l (a b d i : nat) : bdim a b = Some d -> cl a (cl d i) = cl a i.
Proof.
  unfold bdim, cl. intros H.
  destruct (a =? 1) eqn:Ea; [reflexivity |].
  destruct (a =? b) eqn:Eab.
  - inversion H; subst. now rewrite Ea.
  - destruct (b =? 1) eqn:Eb; [| discriminate]. inversion H; subst. now rewrite Ea.
Qed.

Lemma cl_bdim_r (a b d i : nat) : bdim a b = Some d -> cl b (cl d i) = cl b i.
Proof.
  unfold bdim, cl. intros H.
  destruct (b =? 1) eqn:Eb; [reflexivity |].
  destruct (a =? b) eqn:Eab.
  - inversion H; subst. apply Nat.eqb_eq in Eab. subst. now rewrite Eb.
  - destruct (a =? 1) eqn:Ea; [| discriminate]. inversion H; subst. now rewrite Eb.
Qed.

Lemma clamp_idem (s i : list nat) : clamp s (clamp s i) = clamp s i.
Proof.
  revert i. induction s as [| d s IH]; intros [| x i]; simpl; try reflexivity.
  now rewrite cl_idem, IH.
Qed.

Lemma clamp_bshape_rev (r1 r2 r i : list nat) :
  bshape_rev r1 r2 = Some r ->
  clamp r1 (clamp r i) = clamp r1 i /\ clamp r2 (clamp r i) = clamp r2 i.
Proof.
  revert r2 r i. induction r1 as [| a r1 IH]; intros r2 r i H.
  - simpl in H. inversion H; subst. split; [reflexivity | apply clamp_idem].
  - destruct r2 as [| b r2].
    + simpl in H. inversion H; subst. split; [apply clamp_idem |].
      now destruct (clamp (a :: r1) i).
    + simpl in H. destruct (bdim a b) as [d |] eqn:Ed; [| discriminate].
      destruct (bshape_rev r1 r2) as [r' |] eqn:Er; [| discriminate].
      inversion H; subst. destruct i as [| x i]; [split; reflexivity |].
      destruct (IH _ _ i Er) as [H1 H2]. simpl.
      rewrite (cl_bdim_l a b d x Ed), (cl_bdim_r a b d x Ed), H1, H2. split; reflexivity.
Qed.

Lemma bshape_rev_iff (s1 s2 s : list nat) :
  bshape s1 s2 = Some s <-> bshape_rev (rev s1) (rev s2) = Some (rev s).
Proof.
  unfold bshape. destruct (bshape_rev (rev s1) (rev s2)) as [r |]; simpl.
  - split; intros H; inversion H; subst; now rewrite rev_involutive.
  - split; discriminate.
Qed.

Lemma bidx_bshape (s1 s2 s idx : list nat) :
  bshape s1 s2 = Some s ->
  bidx s1 (bidx s idx) = bidx s1 idx /\ bidx s2 (bidx s idx) = bidx s2 idx.
Proof.
  intros H. apply bshape_rev_iff in H.
  destruct (clamp_bshape_rev _ _ _ (rev idx) H) as [H1 H2].
  unfold bidx. rewrite !rev_involutive, H1, H2. split; reflexivity.
Qed.

Lemma bshape_app_inv (s1 s2 s : list nat) (a b : nat) :
  bshape (s1 ++ [a]) (s2 ++ [b]) = Some s ->
  exists s' d, s = s' ++ [d] /\ bshape s1 s2 = Some s' /\ bdim a b = Some d.
Proof.
  rewrite bshape_app. destruct (bdim a b) as [d |]; [| discriminate].
  destruct (bshape s1 s2) as [s' |]; [| discriminate].
  intros H. inversion H. exists s', d. repeat split.
Qed.

Lemma bshape_app2_inv (s1 s2 s : list nat) (a1 a2 b1 b2 : nat) :
  bshape (s1 ++ [a1; a2]) (s2 ++ [b1; b2]) = Some s ->
  exists s' d1 d2,
    s = s' ++ [d1; d2] /\ bshape s1 s2 = Some s'
    /\ bdim a1 b1 = Some d1 /\ bdim a2 b2 = Some d2.
Proof.
  change [a1; a2] with ([a1] ++ [a2]). change [b1; b2] with ([b1] ++ [b2]).
  rewrite !app_assoc. intros H.
  apply bshape_app_inv in H as (s0 & d2 & -> & H & Hd2).
  apply bshape_app_inv in H as (s' & d1 & -> & H & Hd1).
  exists s', d1, d2. rewrite <- app_assoc. repeat split; assumption.
Qed.

Lemma bget_bmap2 {A B D} (f : A -> B -> D) (a : ndarray A) (b : ndarray B) (w : ndarray D)
  (idx : list nat) :
  bmap2 f a b = Ok w -> bget w idx = f (bget a idx) (bget b idx).
Proof.
  unfold bmap2. destruct (bshape (shape a) (shape b)) as [s |] eqn:E; [| discriminate].
  intros H. inversion H; subst. unfold bget. cbn [shape data].
  destruct (bidx_bshape _ _ _ idx E) as [H1 H2]. now rewrite H1, H2.
Qed.

(** ** Monadic inversion *)

Lemma bind_ok {A B} (m : Py A) (k : A -> Py B) (h h' : heap) (b : B) :
  bind m k h = (Ok b, h') ->
  exists a h1, m h = (Ok a, h1) /\ k a h1 = (Ok b, h').
Proof.
  unfold bind. destruct (m h) as [[a | e] h1]; [| discriminate].
  intros H. now exists a, h1.
Qed.

Lemma lift_ok {A} (r : result A) (h h' : heap) (a : A) :
  lift r h = (Ok a, h') -> r = Ok a /\ h' = h.
Proof. unfold lift. intros H. inversion H. now split. Qed.

Lemma ret_ok {A} (x a : A) (h h' : heap) : ret x h = (Ok a, h') -> a = x /\ h' = h.
Proof. unfold ret. intros H. inversion H. now split. Qed.

Lemma rbind_ok {A B} (r : result A) (k : A -> result B) (b : B) :
  rbind r k = Ok b -> exists a, r = Ok a /\ k a = Ok b.
Proof. destruct r as [a | e]; [| discriminate]. intros H. now exists a. Qed.

Ltac inv_py H :=
  repeat
    match type of H with
    | bind _ _ _ = (Ok _, _) =>
        let a := fresh "a" in let h := fresh "h" in let Ha := fresh "Ha" in
        apply bind_ok in H as (a & h & Ha & H)
    end.

(** ** The PSD matrix is Hermitian *)

Lemma norm_axis_neg (n j : nat) :
  1 <= j <= n -> norm_axis n (- Z.of_nat j) = Some (n - j).
Proof.
  intros H. unfold norm_axis.
  replace ((- Z.of_nat n <=? - Z.of_nat j)%Z) with true by (symmetry; apply Z.leb_le; lia).
  replace ((- Z.of_nat j <? Z.of_nat n)%Z) with true by (symmetry; apply Z.ltb_lt; lia).
  simpl. f_equal.
  replace (- Z.of_nat j)%Z with (Z.of_nat (n - j) + (-1) * Z.of_nat n)%Z by lia.
  rewrite Z.mod_add by lia. rewrite Z.mod_small by lia. apply Nat2Z.id.
Qed.

Lemma firstn_length_app {A} (l r : list A) : firstn (length l) (l ++ r) = l.
Proof. induction l as [| x l IH]; simpl; [now destruct r | now rewrite IH]. Qed.

Lemma skipn_length_app {A} (l r : list A) : skipn (length l) (l ++ r) = r.
Proof. induction l as [| x l IH]; simpl; [reflexivity | exact IH]. Qed.

Lemma insert_at_app (l : list nat) (y v : nat) :
  insert_at (length l) v (l ++ [y]) = l ++ [v; y].
Proof. unfold insert_at. now rewrite firstn_length_app, skipn_length_app. Qed.

Lemma remove_at_app (l : list nat) (x y : nat) :
  remove_at (length l) (l ++ [x; y]) = l ++ [y].
Proof.
  unfold remove_at. rewrite firstn_length_app.
  change (S (length l)) with (1 + length l). rewrite <- skipn_skipn, skipn_length_app.
  reflexivity.
Qed.

(** The shape of a mask with one more axis before its last one. *)
Lemma expand_dims_m2 {A} (m m1 : ndarray A) :
  expand_dims m (-2) = Ok m1 ->
  exists bm tm,
    shape m = bm ++ [tm] /\ shape m1 = bm ++ [1; tm]
    /\ forall bi x t, length bi = length bm -> data m1 (bi ++ [x; t]) = data m (bi ++ [t]).
Proof.
  unfold expand_dims, ndim. intros H.
  destruct (unsnoc (shape m)) as [[bm tm] |] eqn:E.
  - apply unsnoc_inv in E. rewrite E in *. rewrite length_app in H. simpl in H.
    change (-2)%Z with (- Z.of_nat 2)%Z in H.
    rewrite norm_axis_neg in H by lia.
    replace (S (length bm + 1) - 2) with (length bm) in H by lia.
    inversion H; subst. clear H. exists bm, tm. cbn [shape data].
    split; [reflexivity |]. split; [apply insert_at_app |].
    intros bi x t Hl. rewrite <- Hl. now rewrite remove_at_app.
  - unfold unsnoc in E. destruct (rev (shape m)) eqn:Er; [| discriminate].
    apply (f_equal (@length nat)) in Er. rewrite length_rev in Er. rewrite Er in H.
    discriminate.
Qed.

Lemma einsum_dt_et_shape (w x psd : ndarray C) :
  einsum_dt_et w x = Ok psd ->
  exists bw dw tw bx dx tx s T,
    shape w = bw ++ [dw; tw] /\ shape x = bx ++ [dx; tx]
    /\ bshape bw bx = Some s /\ bdim tw tx = Some T
    /\ shape psd = s ++ [dw; dx]
    /\ forall bi d e,
         data psd (bi ++ [d; e])
         = Csum T (fun t => bget w (bi ++ [d; t]) * bget x (bi ++ [e; t]))%C.
Proof.
  unfold einsum_dt_et. intros H.
  destruct (unsnoc2 (shape w)) as [[[bw dw] tw] |] eqn:Ew; [| discriminate].
  destruct (unsnoc2 (shape x)) as [[[bx dx] tx] |] eqn:Ex; [| discriminate].
  destruct (bshape bw bx) as [s |] eqn:Es; [| discriminate].
  destruct (bdim tw tx) as [T |] eqn:ET; [| discriminate].
  inversion H; subst. clear H.
  apply unsnoc2_inv in Ew, Ex.
  exists bw, dw, tw, bx, dx, tx, s, T. cbn [shape data].
  repeat split; try assumption.
  intros bi d e. now rewrite unsnoc2_app.
Qed.

Lemma app_inj_2 (b b' : list nat) (x y x' y' : nat) :
  b ++ [x; y] = b' ++ [x'; y'] -> b = b' /\ x = x' /\ y = y'.
Proof.
  intros H. apply (f_equal unsnoc2) in H. rewrite !unsnoc2_app in H.
  inversion H. repeat split.
Qed.

Lemma app_inj_1 (b b' : list nat) (x x' : nat) :
  b ++ [x] = b' ++ [x'] -> b = b' /\ x = x'.
Proof. intros H. apply app_inj_tail in H. exact H. Qed.

(** The contraction of a real-weighted observation with the conjugate
    observation is Hermitian at every index. *)
Lemma einsum_weighted_hermitian (w x psd : ndarray C) (mu : list nat -> nat -> R) :
  einsum_dt_et w (amap Cconj x) = Ok psd ->
  (forall bi d t, bget w (bi ++ [d; t]) = (RtoC (mu bi t) * bget x (bi ++ [d; t]))%C) ->
  forall bi d e, data psd (bi ++ [d; e]) = Cconj (data psd (bi ++ [e; d])).
Proof.
  intros H Hw bi d e.
  apply einsum_dt_et_shape in H as (bw & dw & tw & bx & dx & tx & s & T & _ & _ & _ & _ & _ & Hd).
  rewrite !Hd, Csum_conj. apply Csum_ext. intros t _.
  rewrite !Hw. unfold bget. cbn [amap shape data].
  rewrite !Cconj_mult, Cconj_conj, Cconj_RtoC.
  rewrite <- !Cmult_assoc. f_equal. apply Cmult_comm.
Qed.

(** *** Moving the source axis keeps the last two axes *)

Lemma index_of_app_in (j : nat) (l1 l2 : list nat) :
  In j l1 -> index_of j (l1 ++ l2) = index_of j l1.
Proof.
  induction l1 as [| x l1 IH]; simpl; [intros [] |].
  intros H. destruct (x =? j) eqn:E; [reflexivity |].
  destruct H as [H | H]; [subst; now rewrite Nat.eqb_refl in E |].
  now rewrite IH.
Qed.

Lemma index_of_app_notin (j : nat) (l1 l2 : list nat) :
  ~ In j l1 -> index_of j (l1 ++ l2) = length l1 + index_of j l2.
Proof.
  induction l1 as [| x l1 IH]; simpl; [reflexivity |].
  intros H. destruct (x =? j) eqn:E.
  - apply Nat.eqb_eq in E. exfalso. apply H. now left.
  - rewrite IH; [reflexivity |]. intros Hin. apply H. now right.
Qed.

Lemma index_of_lt (j : nat) (l : list nat) : In j l -> index_of j l < length l.
Proof.
  induction l as [| x l IH]; simpl; [intros [] |].
  intros H. destruct (x =? j) eqn:E; [lia |].
  destruct H as [H | H]; [subst; now rewrite Nat.eqb_refl in E |].
  apply IH in H. lia.
Qed.

Lemma permute_last2 {A} (a : ndarray A) (q : list nat) (m : nat) :
  length q = m -> (forall j, In j q <-> j < m) -> ndim a = m + 2 ->
  forall bi i j, length bi = m ->
    data (permute a (q ++ [m; S m])) (bi ++ [i; j])
    = data a (map (fun j' => nth (index_of j' q) bi 0) (seq 0 m) ++ [i; j]).
Proof.
  intros Hq Hin Hn bi i j Hbi. unfold permute. cbn [data]. f_equal.
  rewrite Hn, seq_app, map_app. f_equal.
  - apply map_ext_in. intros j' Hj'. apply in_seq in Hj'.
    assert (Hj : In j' q) by (apply Hin; lia).
    rewrite index_of_app_in by assumption.
    apply app_nth1. rewrite Hbi, <- Hq. now apply index_of_lt.
  - cbn [seq map Nat.add].
    assert (Hm : ~ In m q) by (intros H; apply Hin in H; lia).
    assert (HSm : ~ In (S m) q) by (intros H; apply Hin in H; lia).
    rewrite !index_of_app_notin by assumption. rewrite Hq. cbn [index_of].
    rewrite Nat.eqb_refl.
    replace (m =? S m) with false by (symmetry; apply Nat.eqb_neq; lia).
    rewrite Nat.eqb_refl.
    rewrite !app_nth2 by lia. rewrite Hbi.
    replace (m + 0 - m) with 0 by lia. replace (m + 1 - m) with 1 by lia.
    reflexivity.
Qed.

Lemma remove_at_middle (l : list nat) (x : nat) (r : list nat) :
  remove_at (length l) (l ++ x :: r) = l ++ r.
Proof.
  unfold remove_at. rewrite firstn_length_app. f_equal.
  induction l as [| y l IH]; simpl; [reflexivity | exact IH].
Qed.

Lemma remove_at_seq (m : nat) : remove_at m (seq 0 (m + 3)) = seq 0 m ++ [S m; S (S m)].
Proof.
  pose proof (remove_at_middle (seq 0 m) m [S m; S (S m)]) as H.
  rewrite length_seq in H. rewrite <- H. f_equal.
  rewrite seq_app. reflexivity.
Qed.

Lemma insert_at_app_l (st v : nat) (l1 l2 : list nat) :
  st <= length l1 -> insert_at st v (l1 ++ l2) = insert_at st v l1 ++ l2.
Proof.
  intros H. unfold insert_at.
  rewrite firstn_app, skipn_app.
  replace (st - length l1) with 0 by lia. simpl. rewrite app_nil_r, <- app_assoc.
  reflexivity.
Qed.

Lemma in_insert_at (st v j : nat) (l : list nat) :
  In j (insert_at st v l) <-> j = v \/ In j l.
Proof.
  unfold insert_at. rewrite in_app_iff. simpl.
  assert (H : In j l <-> In j (firstn st l) \/ In j (skipn st l)).
  { rewrite <- in_app_iff, firstn_skipn. reflexivity. }
  rewrite H. intuition auto.
Qed.

Lemma length_insert_at (st v : nat) (l : list nat) :
  length (insert_at st v l) = S (length l).
Proof.
  unfold insert_at. rewrite length_app. simpl.
  assert (H : length l = length (firstn st l) + length (skipn st l)).
  { rewrite <- length_app, firstn_skipn. reflexivity. }
  lia.
Qed.

(** [rollaxis(a, -3, start)] with the target position in front of axis -3. *)
Lemma rollaxis_last2 {A} (a r : ndarray A) (start : Z) :
  (0 <= start <= Z.of_nat (ndim a) - 3)%Z ->
  rollaxis a (-3) start = Ok r ->
  exists b d e,
    shape r = b ++ [d; e]
    /\ (exists b0, shape a = b0 ++ [d; e] /\ length b0 = length b)
    /\ forall bi, length bi = length b ->
         exists bi',
           length bi' = length b
           /\ forall i j, data r (bi ++ [i; j]) = data a (bi' ++ [i; j]).
Proof.
  intros Hs H. unfold rollaxis in H.
  set (n := ndim a) in *.
  change (-3)%Z with (- Z.of_nat 3)%Z in H. rewrite norm_axis_neg in H by lia.
  replace (start <? 0)%Z with false in H by (symmetry; apply Z.ltb_ge; lia).
  replace ((0 <=? start)%Z && (start <? Z.of_nat n + 1)%Z) with true in H
    by (symmetry; apply andb_true_iff; split; [apply Z.leb_le | apply Z.ltb_lt]; lia).
  replace (n - 3 <? Z.to_nat start) with false in H
    by (symmetry; apply Nat.ltb_ge; lia).
  destruct (unsnoc2 (shape a)) as [[[b0 d] e] |] eqn:E.
  2:{ unfold unsnoc2 in E. unfold n, ndim in Hs. rewrite <- length_rev in Hs.
      destruct (rev (shape a)) as [| ? [| ? ?]]; simpl in Hs; try lia. discriminate. }
  apply unsnoc2_inv in E.
  assert (Hn : n = length b0 + 2) by (unfold n, ndim; rewrite E, length_app; simpl; lia).
  destruct (n - 3 =? Z.to_nat start) eqn:Eq.
  - inversion H; subst r. exists b0, d, e. split; [assumption |].
    split; [exists b0; now split |].
    intros bi Hbi. exists bi. split; [assumption | reflexivity].
  - apply Nat.eqb_neq in Eq. inversion H; subst r. clear H.
    set (m := n - 2) in *. set (st := Z.to_nat start) in *.
    assert (Hm : n = (m - 1) + 3) by lia.
    assert (Hp : insert_at st (n - 3) (remove_at (n - 3) (seq 0 n))
                 = insert_at st (m - 1) (seq 0 (m - 1)) ++ [m; S m]).
    { replace (n - 3) with (m - 1) by lia. rewrite Hm at 1. rewrite remove_at_seq.
      rewrite insert_at_app_l by (rewrite length_seq; lia).
      replace (S (m - 1)) with m by lia. reflexivity. }
    rewrite Hp. set (q := insert_at st (m - 1) (seq 0 (m - 1))).
    assert (Hq : length q = m) by (unfold q; rewrite length_insert_at, length_seq; lia).
    assert (Hin : forall j, In j q <-> j < m).
    { intros j. unfold q. rewrite in_insert_at, in_seq. lia. }
    exists (map (fun j => nth j (shape a) 0) q), d, e.
    split.
    { unfold permute. cbn [shape]. rewrite map_app. f_equal. cbn [map].
      rewrite E. assert (Hb : length b0 = m) by lia.
      rewrite !app_nth2 by lia. rewrite Hb.
      replace (m - m) with 0 by lia. replace (S m - m) with 1 by lia. reflexivity. }
    split.
    { exists b0. split; [assumption |]. rewrite length_map. lia. }
    intros bi Hbi. rewrite length_map, Hq in Hbi.
    exists (map (fun j' => nth (index_of j' q) bi 0) (seq 0 m)).
    split; [rewrite !length_map, length_seq; lia |].
    intros i j. apply permute_last2; try assumption. unfold ndim. fold (ndim a). lia.
Qed.

Lemma perm_axes_length (n : nat) (axes : list Z) (seen p : list nat) :
  perm_axes n axes seen = Ok p -> length p = length axes.
Proof.
  revert seen p. induction axes as [| ax axes IH]; intros seen p; simpl.
  - intros H. now inversion H.
  - destruct (norm_axis n ax) as [j |]; [| discriminate].
    destruct (existsb (Nat.eqb j) seen); [discriminate |].
    destruct (perm_axes n axes (j :: seen)) as [p' |] eqn:E; [| discriminate].
    simpl. intros H. inversion H; subst. simpl. f_equal. now apply (IH (j :: seen)).
Qed.

Lemma transpose_ndim {A} (a x : ndarray A) (axes : list Z) :
  transpose a axes = Ok x -> ndim x = ndim a.
Proof.
  unfold transpose. destruct (length axes =? ndim a) eqn:E; [| discriminate].
  apply Nat.eqb_eq in E.
  destruct (perm_axes (ndim a) axes []) as [p |] eqn:Ep; [| discriminate].
  simpl. intros H. inversion H; subst. unfold ndim, permute. cbn [shape].
  rewrite length_map. apply perm_axes_length in Ep. unfold ndim in E. lia.
Qed.

Lemma bshape_rev_length (r1 r2 r : list nat) :
  bshape_rev r1 r2 = Some r -> length r1 <= length r /\ length r2 <= length r.
Proof.
  revert r2 r. induction r1 as [| a r1 IH]; intros r2 r; simpl.
  - intros H. inversion H; subst. simpl. lia.
  - destruct r2 as [| b r2].
    + intros H. inversion H; subst. simpl. lia.
    + destruct (bdim a b); [| discriminate].
      destruct (bshape_rev r1 r2) as [r' |] eqn:E; [| discriminate].
      intros H. inversion H; subst. apply IH in E. simpl. lia.
Qed.

Lemma bshape_length (s1 s2 s : list nat) :
  bshape s1 s2 = Some s -> length s1 <= length s /\ length s2 <= length s.
Proof.
  intros H. apply bshape_rev_iff, bshape_rev_length in H. now rewrite !length_rev in H.
Qed.

Lemma einsum_kt_dt_et_shape (m : ndarray R) (x y psd : ndarray C) :
  einsum_kt_dt_et m x y = Ok psd ->
  exists bx dx tx by' dy ty s k T,
    shape x = bx ++ [dx; tx] /\ shape y = by' ++ [dy; ty]
    /\ length bx <= length s
    /\ shape psd = s ++ [k; dx; dy]
    /\ forall bi k d e,
         data psd (bi ++ [k; d; e])
         = Csum T (fun t => RtoC (bget m (bi ++ [k; t])) * bget x (bi ++ [d; t])
                            * bget y (bi ++ [e; t]))%C.
Proof.
  unfold einsum_kt_dt_et. intros H.
  destruct (unsnoc2 (shape m)) as [[[bm km] tm] |] eqn:Em; [| discriminate].
  destruct (unsnoc2 (shape x)) as [[[bx dx] tx] |] eqn:Ex; [| discriminate].
  destruct (unsnoc2 (shape y)) as [[[by' dy] ty] |] eqn:Ey; [| discriminate].
  destruct (bshape3 bm bx by') as [s |] eqn:Es; [| discriminate].
  destruct (bdim3 tm tx ty) as [T |] eqn:ET; [| discriminate].
  inversion H; subst. clear H.
  apply unsnoc2_inv in Ex, Ey.
  exists bx, dx, tx, by', dy, ty, s, km, T. cbn [shape data].
  repeat split; try assumption.
  - unfold bshape3 in Es. destruct (bshape bm bx) as [s0 |] eqn:E0; [| discriminate].
    apply bshape_length in E0, Es. lia.
  - intros bi k d e. now rewrite unsnoc3_app.
Qed.

Lemma to_negative_range (n : nat) (d : Z) :
  n <> 0 -> (- Z.of_nat n <= to_negative n d <= -1)%Z.
Proof.
  intros Hn. unfold to_negative.
  pose proof (Z.mod_pos_bound d (Z.of_nat n)). lia.
Qed.

(** C5: whenever [get_power_spectral_density_matrix] returns, for any
    observation, any mask (a boolean array, a real array or [None]) and any
    axis arguments, the PSD matrix equals its own conjugate transpose on the
    last two axes, exactly. *)
Theorem psd_hermitian (observation : ndarray C) (mask : option mask_t)
  (sensor_dim source_dim time_dim : Z) (h h' : heap) (psd : ndarray C) :
  get_power_spectral_density_matrix observation mask sensor_dim source_dim time_dim h
  = (Ok psd, h') ->
  hermitian psd.
Proof.
  unfold get_power_spectral_density_matrix. intros H.
  destruct (ndim observation =? 0) eqn:En; [discriminate |]. apply Nat.eqb_neq in En.
  apply bind_ok in H as (X & h1 & HX & H). apply lift_ok in HX as [HX ->].
  pose proof (transpose_ndim _ _ _ HX) as HnX.
  destruct mask as [mask |].
  - apply bind_ok in H as (r & h2 & _ & H).
    apply bind_ok in H as (M & h3 & _ & H).
    destruct (ndim M + 1 =? ndim X) eqn:Ebranch.
    + (* a mask without a source axis *)
      apply bind_ok in H as (M1 & h4 & HM1 & H). apply lift_ok in HM1 as [HM1 ->].
      apply bind_ok in H as (W & h5 & HW & H). apply lift_ok in HW as [HW ->].
      apply lift_ok in H as [H ->].
      destruct (expand_dims_m2 _ _ HM1) as (bm & tm & _ & HsM1 & _).
      pose proof (einsum_dt_et_shape _ _ _ H)
        as (bw & dw & tw & bx & dx & tx & s & T & HsW & HsX & _ & _ & Hs & _).
      cbn [amap shape] in HsX.
      assert (dw = dx) as ->.
      { unfold bmap2 in HW. rewrite HsM1, HsX in HW.
        destruct (bshape (bm ++ [1; tm]) (bx ++ [dx; tx])) as [sw |] eqn:Esw; [| discriminate].
        inversion HW; subst W. cbn [shape] in HsW. subst sw.
        apply bshape_app2_inv in Esw as (s' & d1 & d2 & Heq & _ & Hd1 & _).
        apply app_inj_2 in Heq as (_ & -> & _). rewrite bdim_1_l in Hd1. now inversion Hd1. }
      exists s, dx. split; [assumption |]. intros bi i j _.
      apply (einsum_weighted_hermitian W X psd
               (fun bi t => data M1 (bidx bm bi ++ [0; cl tm t])) H).
      intros bi' d t. rewrite (bget_bmap2 _ _ _ _ _ HW). f_equal. f_equal.
      unfold bget. rewrite HsM1, bidx_app2. reflexivity.
    + (* a mask with a source axis *)
      apply bind_ok in H as (MT & h4 & _ & H).
      apply bind_ok in H as (P & h5 & HP & H). apply lift_ok in HP as [HP ->].
      pose proof (einsum_kt_dt_et_shape _ _ _ _ HP)
        as (bx & dx & tx & by' & dy & ty & s & k & T & HsX & HsY & Hlen & Hs & Hd).
      cbn [amap shape] in HsY. rewrite HsX in HsY.
      apply app_inj_2 in HsY as (<- & <- & <-).
      assert (HP' : forall bi k d e,
                data P (bi ++ [k; d; e]) = Cconj (data P (bi ++ [k; e; d]))).
      { intros bi k' d e. rewrite !Hd, Csum_conj. apply Csum_ext. intros t _.
        unfold bget. cbn [amap shape data].
        rewrite !Cconj_mult, Cconj_conj, Cconj_RtoC.
        rewrite <- !Cmult_assoc. f_equal. apply Cmult_comm. }
      destruct (to_negative (ndim observation) source_dim <? -2)%Z eqn:Esrc.
      * apply lift_ok in H as [H ->]. apply Z.ltb_lt in Esrc.
        pose proof (to_negative_range (ndim observation) source_dim En) as Hrange.
        assert (HndX : ndim X = length bx + 2)
          by (unfold ndim; rewrite HsX, length_app; simpl; lia).
        assert (HndP : ndim P = length s + 3)
          by (unfold ndim; rewrite Hs, length_app; simpl; lia).
        apply rollaxis_last2 in H.
        2:{ rewrite HndP. unfold to_negative in *.
            pose proof (Z.mod_pos_bound source_dim (Z.of_nat (ndim observation))) as Hb.
            rewrite Zminus_mod_idemp_l.
            replace (source_dim - Z.of_nat (ndim observation))%Z
              with (source_dim + (-1) * Z.of_nat (ndim observation))%Z by lia.
            rewrite Z.mod_add by lia. lia. }
        destruct H as (b & d & e & Hsr & (b0 & HsP & Hb0) & Hdata).
        rewrite Hs in HsP.
        change (s ++ [k; dx; dx]) with (s ++ [k] ++ [dx; dx]) in HsP.
        rewrite app_assoc in HsP. apply app_inj_2 in HsP as (<- & <- & <-).
        exists b, dx. split; [assumption |]. intros bi i j Hin.
        assert (Hbi : length bi = length b).
        { apply Forall2_length in Hin. rewrite !length_app in Hin. simpl in Hin. lia. }
        destruct (Hdata bi Hbi) as (bi' & Hlen' & Hbi').
        rewrite !Hbi'.
        destruct (unsnoc bi') as [[bi0 k0] |] eqn:Eu.
        -- apply unsnoc_inv in Eu. subst bi'. rewrite <- !app_assoc. apply HP'.
        -- unfold unsnoc in Eu. destruct (rev bi') eqn:Er; [| discriminate].
           apply (f_equal (@length nat)) in Er. rewrite length_rev in Er.
           rewrite Hlen', <- Hb0, length_app in Er. simpl in Er. lia.
      * apply ret_ok in H as [-> ->].
        exists (s ++ [k]), dx. split; [rewrite Hs, <- app_assoc; reflexivity |].
        intros bi i j Hin.
        assert (Hbi : exists bi0 k0, bi = bi0 ++ [k0]).
        { apply Forall2_length in Hin. rewrite !length_app in Hin. simpl in Hin.
          destruct (unsnoc bi) as [[bi0 k0] |] eqn:Eu.
          - apply unsnoc_inv in Eu. now exists bi0, k0.
          - unfold unsnoc in Eu. destruct (rev bi) eqn:Er; [| discriminate].
            apply (f_equal (@length nat)) in Er. rewrite length_rev in Er. simpl in Er. lia. }
        destruct Hbi as (bi0 & k0 & ->). rewrite <- !app_assoc. apply HP'.
  - (* no mask *)
    apply bind_ok in H as (P & h2 & HP & H). apply lift_ok in HP as [HP ->].
    apply bind_ok in H as (frames & h3 & _ & H). apply ret_ok in H as [-> ->].
    pose proof (einsum_dt_et_shape _ _ _ HP)
      as (bw & dw & tw & bx & dx & tx & s & T & HsW & HsX & _ & _ & Hs & _).
    cbn [amap shape] in HsX. rewrite HsW in HsX.
    apply app_inj_2 in HsX as (<- & <- & <-).
    exists s, dw. split; [exact Hs |]. intros bi i j _. cbn [amap data].
    rewrite Cconj_div, Cconj_RtoC. f_equal.
    apply (einsum_weighted_hermitian X X P (fun _ _ => 1%R) HP).
    intros bi' d t. symmetry. apply Cmult_1_l.
Qed.

(** ** The PSD estimator as a function of the store *)

Lemma get_psd_masked (observation : ndarray C) (mask : mask_t)
  (sensor_dim source_dim time_dim : Z) (h : heap) :
  let n := ndim observation in
  get_power_spectral_density_matrix observation (Some mask) sensor_dim source_dim time_dim h
  = if n =? 0 then (Raise ZeroDivisionError, h) else
      match transpose observation
                      (axes_to_end n (to_negative n sensor_dim) (to_negative n time_dim)) with
      | Raise e => (Raise e, h)
      | Ok X =>
          let (r, h1) := mask_cell mask h in
          match normalized (view r h1) (to_negative n time_dim) with
          | Raise e => (Raise e, h1)
          | Ok M =>
              (weighted_psd n X M (to_negative n source_dim) (to_negative n time_dim),
               write r M h1)
          end
      end.
Proof.
  intros n. unfold get_power_spectral_density_matrix. fold n.
  destruct (n =? 0); [reflexivity |].
  unfold bind at 1. unfold lift at 1.
  destruct (transpose _ _) as [X | e]; [| reflexivity].
  unfold bind at 1.
  assert (Hcell : match mask with
                  | MaskBool a => alloc (amap bool_to_R a)
                  | MaskFloat r => ret r
                  end h
                  = (Ok (fst (mask_cell mask h)), snd (mask_cell mask h))).
  { destruct mask; reflexivity. }
  rewrite Hcell. destruct (mask_cell mask h) as [r h1]. cbn [fst snd].
  unfold bind at 1. unfold normalize_mask, normalized.
  unfold bind at 1. unfold load at 1. fold (view r h1).
  unfold bind at 1. unfold lift at 1.
  destruct (sum_keepdims (view r h1) (to_negative n time_dim)) as [s | e]; [| reflexivity].
  cbn [rbind]. unfold bind at 1. unfold lift at 1.
  destruct (inplace2 Rdiv (view r h1) _) as [M | e]; [| reflexivity].
  unfold bind at 1. unfold store at 1. fold (write r M h1). unfold ret at 1.
  unfold weighted_psd.
  destruct (ndim M + 1 =? ndim X).
  - unfold bind, lift. destruct (expand_dims M (-2)) as [M1 | e]; [| reflexivity].
    cbn [rbind]. destruct (bmap2 _ M1 X) as [W | e]; reflexivity.
  - unfold bind, lift, ret. destruct (transpose M _) as [MT | e]; [| reflexivity].
    cbn [rbind]. destruct (einsum_kt_dt_et MT X _) as [P | e]; [| reflexivity].
    cbn [rbind]. destruct (_ <? -2)%Z; [| reflexivity].
    destruct (rollaxis P _ _); reflexivity.
Qed.

Lemma upd_same (f : nat -> ndarray R) (l : nat) (a : ndarray R) : upd f l a l = a.
Proof. unfold upd. now rewrite Nat.eqb_refl. Qed.

Lemma view_mask_cell_bool (a : ndarray bool) (h : heap) :
  view (fst (mask_cell (MaskBool a) h)) (snd (mask_cell (MaskBool a) h)) = amap bool_to_R a.
Proof. unfold view, mask_cell. cbn [fst snd ref_T ref_loc cells]. apply upd_same. Qed.

(** ** Shapes of the PSD matrix *)

Lemma returned_shape_ok {A} (r : result (ndarray A) * heap) (s : list nat) :
  returned_shape r = Some s -> exists a h', r = (Ok a, h') /\ shape a = s.
Proof.
  destruct r as [[a | e] h']; unfold returned_shape; simpl; [| discriminate].
  intros H. inversion H. now exists a, h'.
Qed.

Lemma rev_eq_inv {A} (l l' : list A) : rev l = l' -> l = rev l'.
Proof. intros <-. now rewrite rev_involutive. Qed.

(** C8: for an observation of shape (51, 6, 31) and the default axis
    arguments, a mask of shape (51, 31) gives a PSD matrix of shape
    (51, 6, 6), and a mask of shape (51, 2, 31) one of shape (51, 2, 6, 6). *)
Theorem psd_shape_examples (observation : ndarray C) (mask : mask_t) (h : heap) :
  shape observation = [51; 6; 31] ->
  (mask_shape h mask = [51; 31] ->
   exists psd h',
     get_power_spectral_density_matrix observation (Some mask) (-2) (-2) (-1) h
     = (Ok psd, h')
     /\ shape psd = [51; 6; 6])
  /\ (mask_shape h mask = [51; 2; 31] ->
      exists psd h',
        get_power_spectral_density_matrix observation (Some mask) (-2) (-2) (-1) h
        = (Ok psd, h')
        /\ shape psd = [51; 2; 6; 6]).
Proof.
  intros Ho. destruct observation as [so od]. cbn [shape] in Ho. subst so.
  assert (Hv : forall s, mask_shape h mask = s ->
             exists md, view (fst (mask_cell mask h)) (snd (mask_cell mask h)) = mkarr s md).
  { intros s Hm. destruct mask as [[sm md] | [l t]].
    - rewrite view_mask_cell_bool. cbn in Hm. subst sm. eexists. reflexivity.
    - unfold view, mask_cell. cbn [fst snd ref_T ref_loc mask_shape] in *.
      destruct (cells h l) as [sm md]. cbn [shape] in Hm.
      destruct t; subst s; eexists; reflexivity. }
  split; intros Hm; apply returned_shape_ok; rewrite get_psd_masked;
    destruct (Hv _ Hm) as (md & Hview);
    destruct (mask_cell mask h) as [r h1]; cbn [fst snd] in Hview;
    rewrite Hview; vm_compute; reflexivity.
Qed.



(** ** What the call does to the caller's mask *)

(** Evaluation of the array operations that leaves real arithmetic alone. *)
Ltac eval_arrays_in H :=
  cbv - [IZR Rplus Rmult Rinv Rdiv Rminus Ropp Rmax Rmin Rle_dec Rlt_dec Req_dec_T
         INR sqrt] in H.
Ltac eval_arrays :=
  cbv - [IZR Rplus Rmult Rinv Rdiv Rminus Ropp Rmax Rmin Rle_dec Rlt_dec Req_dec_T
         INR sqrt].

(** A mask [[1., 1.]] over two frames is [[0.5, 0.5]] after the call. *)
Lemma mask_is_normalized_in_place :
  ~ mask_unchanged two_frames (mkref 0 false) (-2) (-2) (-1) ones_heap.
Proof.
  intros H.
  destruct (get_power_spectral_density_matrix two_frames (Some (MaskFloat (mkref 0 false)))
              (-2) (-2) (-1) ones_heap) as [res h'] eqn:E.
  specialize (H res h' E). rewrite get_psd_masked in E.
  unfold two_frames, ones_heap in *. eval_arrays_in E. inversion E; subst h'. clear E.
  destruct H as [_ H]. specialize (H [0]).
  assert (Hin : in_shape [2] [0]) by (repeat constructor).
  eval_arrays_in H. specialize (H Hin). unfold Rmax in H.
  destruct (Rle_dec (0 + 1 + 1) _) as [Hle | Hle]; lra.
Qed.

Lemma arr_eq_refl {A} (a : ndarray A) : arr_eq a a.
Proof. split; [reflexivity |]. intros; reflexivity. Qed.

Lemma view_write (r : mref) (M : ndarray R) (h : heap) : arr_eq (view r (write r M h)) M.
Proof.
  unfold view, write. cbn [cells ref_loc ref_T]. rewrite upd_same.
  destruct (ref_T r); [| apply arr_eq_refl].
  unfold transposeT. split; cbn [shape data].
  - apply rev_involutive.
  - intros idx _. now rewrite rev_involutive.
Qed.

Lemma write_other (r : mref) (M : ndarray R) (h : heap) (l : nat) :
  l <> ref_loc r -> cells (write r M h) l = cells h l.
Proof.
  intros H. unfold write, upd. cbn [cells].
  destruct (l =? ref_loc r) eqn:E; [apply Nat.eqb_eq in E; contradiction | reflexivity].
Qed.

(** C2, amended: when the call returns, a float mask has been replaced in
    place by [mask / np.maximum(np.sum(mask, axis=time_dim, keepdims=True),
    1e-10)] and no other array of the store has changed; a boolean mask is
    normalized in a new float array and every array the caller holds is
    unchanged. *)
Theorem mask_after_call (observation : ndarray C) (mask : mask_t)
  (sensor_dim source_dim time_dim : Z) (h h' : heap) (psd : ndarray C) :
  get_power_spectral_density_matrix observation (Some mask) sensor_dim source_dim time_dim h
  = (Ok psd, h') ->
  match mask with
  | MaskBool _ => forall l, l < next_loc h -> cells h' l = cells h l
  | MaskFloat r =>
      exists M,
        normalized (view r h) (to_negative (ndim observation) time_dim) = Ok M
        /\ arr_eq (view r h') M
        /\ forall l, l <> ref_loc r -> cells h' l = cells h l
  end.
Proof.
  rewrite get_psd_masked. cbv zeta.
  destruct (ndim observation =? 0); [discriminate |].
  destruct (transpose _ _) as [X | e]; [| discriminate].
  destruct mask as [a | r]; cbn [mask_cell].
  - destruct (normalized _ _) as [M | e]; [| discriminate].
    intros H. inversion H; subst h'. intros l Hl.
    unfold write, upd. cbn [cells ref_loc ref_T].
    replace (l =? next_loc h) with false by (symmetry; apply Nat.eqb_neq; lia).
    reflexivity.
  - destruct (normalized _ _) as [M | e]; [| discriminate].
    intros H. inversion H; subst h'. exists M.
    split; [reflexivity |]. split; [apply view_write |].
    intros l Hl. now apply write_other.
Qed.

(** ** The default axis arguments *)

Lemma to_negative_default (n : nat) (j : nat) :
  1 <= j <= n -> to_negative n (- Z.of_nat j) = (- Z.of_nat j)%Z.
Proof.
  intros H. unfold to_negative.
  replace (- Z.of_nat j)%Z with (Z.of_nat (n - j) + (-1) * Z.of_nat n)%Z at 1 by lia.
  rewrite Z.mod_add by lia. rewrite Z.mod_small by lia. lia.
Qed.

Lemma axes_to_end_default (m : nat) :
  axes_to_end (m + 2) (-2) (-1) = range_neg (m + 2).
Proof.
  unfold axes_to_end, range_neg. rewrite seq_app, map_app, filter_app.
  cbn [seq map Nat.add].
  replace (Z.of_nat m - Z.of_nat (m + 2))%Z with (-2)%Z by lia.
  replace (Z.of_nat (S m) - Z.of_nat (m + 2))%Z with (-1)%Z by lia.
  change (filter (fun i => negb (existsb (Z.eqb i) [(-2)%Z; (-1)%Z])) [(-2)%Z; (-1)%Z])
    with (@nil Z).
  rewrite app_nil_r. f_equal.
  apply forallb_filter_id. apply forallb_forall. intros z Hz.
  apply in_map_iff in Hz as (i & <- & Hi). apply in_seq in Hi.
  cbn [existsb].
  replace (Z.of_nat i - Z.of_nat (m + 2) =? -2)%Z with false
    by (symmetry; apply Z.eqb_neq; lia).
  replace (Z.of_nat i - Z.of_nat (m + 2) =? -1)%Z with false
    by (symmetry; apply Z.eqb_neq; lia).
  reflexivity.
Qed.

Lemma norm_axis_range_neg (n k : nat) :
  k < n -> norm_axis n (Z.of_nat k - Z.of_nat n) = Some k.
Proof.
  intros H. replace (Z.of_nat k - Z.of_nat n)%Z with (- Z.of_nat (n - k))%Z by lia.
  rewrite norm_axis_neg by lia. f_equal. lia.
Qed.

Lemma perm_axes_range (n len k : nat) (seen : list nat) :
  k + len <= n -> (forall j, In j seen -> j < k) ->
  perm_axes n (map (fun i => (Z.of_nat i - Z.of_nat n)%Z) (seq k len)) seen
  = Ok (seq k len).
Proof.
  revert k seen. induction len as [| len IH]; intros k seen Hle Hseen; [reflexivity |].
  cbn [seq map perm_axes]. rewrite norm_axis_range_neg by lia.
  replace (existsb (Nat.eqb k) seen) with false.
  - rewrite IH; [reflexivity | lia |].
    intros j [<- | Hj]; [lia |]. apply Hseen in Hj. lia.
  - symmetry. apply not_true_is_false. intros He.
    apply existsb_exists in He as (j & Hj & Hjk). apply Nat.eqb_eq in Hjk. subst j.
    apply Hseen in Hj. lia.
Qed.

Lemma map_nth_seq (s : list nat) : map (fun j => nth j s 0) (seq 0 (length s)) = s.
Proof.
  apply nth_ext with (d := 0) (d' := 0).
  - now rewrite length_map, length_seq.
  - intros k Hk. rewrite length_map, length_seq in Hk.
    rewrite (nth_indep _ 0 (nth 0 s 0)) by (now rewrite length_map, length_seq).
    rewrite (map_nth (fun j => nth j s 0)), seq_nth by assumption. reflexivity.
Qed.

(** With the default axis arguments the observation keeps its shape. *)
Lemma transpose_default (observation : ndarray C) (b : list nat) (D T : nat) :
  shape observation = b ++ [D; T] ->
  let n := ndim observation in
  exists X,
    transpose observation (axes_to_end n (to_negative n (-2)) (to_negative n (-1))) = Ok X
    /\ shape X = b ++ [D; T].
Proof.
  intros Hs. cbv zeta.
  assert (Hn : ndim observation = length b + 2)
    by (unfold ndim; rewrite Hs, length_app; simpl; lia).
  change (-2)%Z with (- Z.of_nat 2)%Z. change (-1)%Z with (- Z.of_nat 1)%Z.
  rewrite !to_negative_default by lia. cbn [Z.of_nat Pos.of_succ_nat Pos.succ Z.opp].
  rewrite Hn, axes_to_end_default.
  exists (permute observation (seq 0 (length b + 2))). split.
  - unfold transpose. rewrite Hn. unfold range_neg.
    rewrite length_map, length_seq, Nat.eqb_refl.
    rewrite perm_axes_range; [reflexivity | lia | intros j []].
  - unfold permute. cbn [shape]. rewrite <- Hn. unfold ndim. rewrite map_nth_seq. exact Hs.
Qed.

(** ** The value of the PSD matrix *)

Lemma set_nth_app (l : list nat) (x v : nat) : set_nth (length l) v (l ++ [x]) = l ++ [v].
Proof.
  unfold set_nth. rewrite firstn_length_app.
  change (S (length l)) with (1 + length l). rewrite <- skipn_skipn, skipn_length_app.
  reflexivity.
Qed.

Lemma cl_1 (i : nat) : cl 1 i = 0.
Proof. reflexivity. Qed.

Lemma in_shape_length (s idx : list nat) : in_shape s idx -> length idx = length s.
Proof. apply Forall2_length. Qed.

(** The mask divided by its sum over the last axis, floored at [1e-10]. *)
Lemma normalized_last (M : ndarray R) (b : list nat) (T : nat) :
  shape M = b ++ [T] ->
  exists M',
    normalized M (-1) = Ok M' /\ shape M' = b ++ [T]
    /\ forall bi t, in_shape b bi ->
         data M' (bi ++ [t])
         = (data M (bi ++ [t]) / Rmax (Rsum T (fun t' => data M (bi ++ [t']))) 1e-10)%R.
Proof.
  intros Hs. unfold normalized, sum_keepdims.
  assert (Hn : ndim M = length b + 1) by (unfold ndim; rewrite Hs, length_app; simpl; lia).
  change (-1)%Z with (- Z.of_nat 1)%Z. rewrite norm_axis_neg by lia.
  replace (ndim M - 1) with (length b) by lia.
  rewrite Hs, set_nth_app. cbn [rbind]. unfold inplace2. cbn [amap shape].
  rewrite Hs, bshape_app, bdim_1_r, bshape_refl.
  destruct (list_eq_dec Nat.eq_dec (b ++ [T]) (b ++ [T])) as [_ | Hne]; [| contradiction].
  eexists. split; [reflexivity |]. split; [reflexivity |].
  intros bi t Hbi. cbn [data]. unfold bget, amap. cbn [shape data].
  rewrite bidx_app, cl_1, (bidx_id _ _ Hbi).
  rewrite app_nth2 by lia. rewrite Nat.sub_diag. cbn [nth].
  f_equal. f_equal. apply Rsum_ext. intros t' _.
  rewrite <- (in_shape_length _ _ Hbi), set_nth_app. reflexivity.
Qed.

(** Spec 4.1 for a mask without a source axis:
    [PSD[..., d, e] = sum_t mask[..., t] * obs[..., d, t] * conj(obs[..., e, t])]. *)
Lemma weighted_psd_value (n : nat) (X : ndarray C) (M : ndarray R) (b : list nat)
  (D T : nat) (source_dim time_dim : Z) :
  shape X = b ++ [D; T] -> shape M = b ++ [T] ->
  exists psd,
    weighted_psd n X M source_dim time_dim = Ok psd
    /\ shape psd = b ++ [D; D]
    /\ forall bi d e, in_shape b bi -> d < D -> e < D ->
         data psd (bi ++ [d; e])
         = Csum T (fun t => (RtoC (data M (bi ++ [t])) * data X (bi ++ [d; t])
                             * Cconj (data X (bi ++ [e; t])))%C).
Proof.
  intros HX HM. unfold weighted_psd.
  assert (Hnd : (ndim M + 1 =? ndim X) = true).
  { apply Nat.eqb_eq. unfold ndim. rewrite HX, HM, !length_app. simpl. lia. }
  rewrite Hnd.
  destruct (expand_dims M (-2)) as [M1 | e] eqn:E1.
  2:{ exfalso. unfold expand_dims in E1. unfold ndim in E1.
      rewrite HM, length_app in E1. simpl in E1.
      change (-2)%Z with (- Z.of_nat 2)%Z in E1. rewrite norm_axis_neg in E1 by lia.
      discriminate. }
  destruct (expand_dims_m2 _ _ E1) as (bm & tm & HM' & HM1 & HdM1).
  rewrite HM in HM'. apply app_inj_1 in HM' as [<- <-].
  cbn [rbind]. unfold bmap2. rewrite HM1, HX.
  change [1; T] with ([1] ++ [T]). change [D; T] with ([D] ++ [T]).
  rewrite !app_assoc, bshape_app, bdim_refl, bshape_app, bdim_1_l, bshape_refl.
  rewrite <- !app_assoc. cbn [app rbind].
  unfold einsum_dt_et. cbn [shape amap]. rewrite HX, !unsnoc2_app, bshape_refl, bdim_refl.
  eexists. split; [reflexivity |]. split; [reflexivity |].
  intros bi d e Hbi Hd He. cbn [data]. rewrite unsnoc2_app.
  apply Csum_ext. intros t Ht.
  assert (Hidx : forall d', d' < D -> bidx (b ++ [D; T]) (bi ++ [d'; t]) = bi ++ [d'; t]).
  { intros d' Hd'. apply bidx_id. apply in_shape_app; [now apply in_shape_length |].
    split; [assumption |]. repeat constructor; assumption. }
  unfold bget, amap. cbn [shape data]. rewrite HM1, HX, !Hidx by assumption.
  rewrite bidx_app2, cl_1, (bidx_id _ _ Hbi), (cl_lt _ _ Ht).
  rewrite HdM1 by now apply in_shape_length. reflexivity.
Qed.

(** Spec 4.1 without a mask: the sample covariance divided by the number
    of frames. *)
Lemma unweighted_psd_value (observation : ndarray C) (b : list nat) (D T : nat) (h : heap) :
  shape observation = b ++ [D; T] ->
  exists X psd,
    transpose observation
              (axes_to_end (ndim observation) (to_negative (ndim observation) (-2))
                           (to_negative (ndim observation) (-1))) = Ok X
    /\ shape X = b ++ [D; T]
    /\ get_power_spectral_density_matrix observation None (-2) (-2) (-1) h = (Ok psd, h)
    /\ shape psd = b ++ [D; D]
    /\ forall bi d e, in_shape b bi -> d < D -> e < D ->
         data psd (bi ++ [d; e])
         = (Csum T (fun t => data X (bi ++ [d; t]) * Cconj (data X (bi ++ [e; t])))
            / RtoC (INR T))%C.
Proof.
  intros Hs. destruct (transpose_default observation b D T Hs) as (X & HX & HsX).
  exists X. unfold get_power_spectral_density_matrix.
  assert (Hn : (ndim observation =? 0) = false).
  { apply Nat.eqb_neq. unfold ndim. rewrite Hs, length_app. simpl. lia. }
  rewrite Hn. unfold bind at 1. unfold lift at 1. rewrite HX.
  unfold bind at 1. unfold lift at 1.
  unfold einsum_dt_et. cbn [shape amap]. rewrite HsX, !unsnoc2_app, bshape_refl, bdim_refl.
  unfold bind at 1. unfold lift at 1.
  change (b ++ [D; T]) with (b ++ [D] ++ [T]). rewrite app_assoc, unsnoc_app.
  unfold ret. eexists. split; [reflexivity |]. split; [now rewrite <- app_assoc |].
  split; [reflexivity |]. split; [reflexivity |].
  intros bi d e Hbi Hd He. cbn [amap data]. rewrite unsnoc2_app. f_equal.
  apply Csum_ext. intros t Ht.
  assert (Hidx : forall d', d' < D -> bidx (b ++ [D; T]) (bi ++ [d'; t]) = bi ++ [d'; t]).
  { intros d' Hd'. apply bidx_id. apply in_shape_app; [now apply in_shape_length |].
    split; [assumption |]. repeat constructor; assumption. }
  unfold bget, amap. cbn [shape data]. rewrite HsX, !Hidx by assumption. reflexivity.
Qed.

(** ** Masks and indices *)

Lemma view_mask_cell (m : mask_t) (h : heap) :
  view (fst (mask_cell m h)) (snd (mask_cell m h)) = mask_array h m.
Proof. destruct m; [apply view_mask_cell_bool | reflexivity]. Qed.

Lemma in_shape_app2_inv (b idx : list nat) (D E : nat) :
  in_shape (b ++ [D; E]) idx ->
  exists bi d e, idx = bi ++ [d; e] /\ in_shape b bi /\ d < D /\ e < E.
Proof.
  intros H. pose proof (in_shape_length _ _ H) as Hl.
  rewrite length_app in Hl. simpl in Hl.
  destruct (unsnoc2_length idx ltac:(lia)) as (bi & d & e & ->).
  rewrite length_app in Hl. simpl in Hl.
  apply in_shape_app in H as [Hb Hde]; [| lia].
  inversion Hde as [| ? ? ? ? Hd Hde']; subst. inversion Hde' as [| ? ? ? ? He _]; subst.
  exists bi, d, e. repeat split; assumption.
Qed.

Lemma INR_ge_1 (T : nat) : 0 < T -> (1 <= INR T)%R.
Proof. intros H. change 1%R with (INR 1). apply le_INR. lia. Qed.

(** ** MVDR: the distortionless response *)

Lemma bdim_absorb (a b d : nat) :
  bdim a b = Some d -> bdim a d = Some d /\ bdim b d = Some d.
Proof.
  unfold bdim at 1. destruct (a =? b) eqn:Eab.
  - apply Nat.eqb_eq in Eab. subst b. intros H. inversion H; subst.
    split; apply bdim_refl.
  - destruct (a =? 1) eqn:Ea.
    + apply Nat.eqb_eq in Ea. subst a. intros H. inversion H; subst.
      split; [apply bdim_1_l | apply bdim_refl].
    + destruct (b =? 1) eqn:Eb; [| discriminate].
      apply Nat.eqb_eq in Eb. subst b. intros H. inversion H; subst.
      split; [apply bdim_refl | apply bdim_1_l].
Qed.

Lemma bshape_rev_absorb (r1 r2 r : list nat) :
  bshape_rev r1 r2 = Some r -> bshape_rev r1 r = Some r /\ bshape_rev r2 r = Some r.
Proof.
  revert r2 r. induction r1 as [| a r1 IH]; intros r2 r H.
  - simpl in H. inversion H; subst. split; [reflexivity | apply bshape_rev_refl].
  - destruct r2 as [| b r2].
    + simpl in H. inversion H; subst. split; [apply bshape_rev_refl | reflexivity].
    + simpl in H. destruct (bdim a b) as [d |] eqn:Ed; [| discriminate].
      destruct (bshape_rev r1 r2) as [r' |] eqn:Er; [| discriminate].
      inversion H; subst. destruct (IH _ _ Er) as [H1 H2].
      destruct (bdim_absorb _ _ _ Ed) as [Hd1 Hd2].
      simpl. now rewrite Hd1, Hd2, H1, H2.
Qed.

Lemma bshape_absorb (s1 s2 s : list nat) :
  bshape s1 s2 = Some s -> bshape s1 s = Some s /\ bshape s2 s = Some s.
Proof.
  intros H. apply bshape_rev_iff in H. apply bshape_rev_absorb in H as [H1 H2].
  split; now apply bshape_rev_iff.
Qed.

Section Solve.
Variable gesv : matrix -> list C -> option (list C).


Lemma einsum_d_d_inv (a b r : ndarray C) :
  einsum_d_d a b = Ok r ->
  exists ba da bb db s D,
    shape a = ba ++ [da] /\ shape b = bb ++ [db]
    /\ bshape ba bb = Some s /\ bdim da db = Some D
    /\ r = mkarr s (fun bi => Csum D (fun d => (bget a (bi ++ [d]) * bget b (bi ++ [d]))%C)).
Proof.
  unfold einsum_d_d.
  destruct (unsnoc (shape a)) as [[ba da] |] eqn:Ea; [| discriminate].
  destruct (unsnoc (shape b)) as [[bb db] |] eqn:Eb; [| discriminate].
  destruct (bshape ba bb) as [s |] eqn:Es; [| discriminate].
  destruct (bdim da db) as [D |] eqn:Ed; [| discriminate].
  apply unsnoc_inv in Ea, Eb. intros H. inversion H.
  exists ba, da, bb, db, s, D. repeat split; assumption.
Qed.

Lemma remove_at_last (l : list nat) (x : nat) : remove_at (length l) (l ++ [x]) = l.
Proof.
  unfold remove_at. rewrite firstn_length_app.
  change (S (length l)) with (1 + length l). rewrite <- skipn_skipn, skipn_length_app.
  simpl. apply app_nil_r.
Qed.

Lemma insert_at_end (l : list nat) (v : nat) : insert_at (length l) v l = l ++ [v].
Proof.
  unfold insert_at. now rewrite firstn_all, skipn_all.
Qed.



End Solve.

(** ** The contract of the linear solver *)

Lemma nth_map_seq {A} (f : nat -> A) (n i : nat) (d : A) :
  i < n -> nth i (map f (seq 0 n)) d = f i.
Proof.
  intros H. rewrite (nth_indep _ d (f 0)) by (now rewrite length_map, length_seq).
  rewrite (map_nth f), seq_nth by assumption. reflexivity.
Qed.

Lemma nth_matrix_at (a : ndarray C) (bi : list nat) (m n i j : nat) :
  i < m -> j < n -> nth j (nth i (matrix_at a bi m n) []) C0 = data a (bi ++ [i; j]).
Proof.
  intros Hi Hj. unfold matrix_at. rewrite nth_map_seq by assumption.
  now rewrite nth_map_seq by assumption.
Qed.

Lemma nth_vector_at (a : ndarray C) (bi : list nat) (m i : nat) :
  i < m -> nth i (vector_at a bi m) C0 = data a (bi ++ [i]).
Proof. intros Hi. unfold vector_at. now rewrite nth_map_seq. Qed.

Lemma length_vector_at (a : ndarray C) (bi : list nat) (m : nat) :
  length (vector_at a bi m) = m.
Proof. unfold vector_at. now rewrite length_map, length_seq. Qed.

Lemma square_matrix_at (a : ndarray C) (bi : list nat) (m : nat) :
  square m (matrix_at a bi m m).
Proof.
  unfold square, matrix_at. split; [now rewrite length_map, length_seq |].
  apply Forall_forall. intros row Hrow. apply in_map_iff in Hrow as (i & <- & _).
  now rewrite length_map, length_seq.
Qed.

Lemma indices_in (s bi : list nat) : in_shape s bi -> In bi (indices s).
Proof.
  unfold in_shape. intros H. induction H as [| i n bi s Hi _ IH]; simpl; [now left |].
  apply in_flat_map. exists i. split; [apply in_seq; lia |].
  apply in_map. exact IH.
Qed.

(** ** LCMV: the constraints are met *)

Section Lcmv.
Variable gesv : matrix -> list C -> option (list C).

(** [numpy.linalg.solve] on a stack of vectors solves every system of the
    stack with the driver. *)
Lemma solve_vectors_spec (a b x : ndarray C) (ba bb : list nat) (m : nat) :
  shape a = ba ++ [m; m] -> shape b = bb ++ [m] -> length bb = length ba ->
  solve gesv a b = Ok x ->
  exists s,
    bshape ba bb = Some s /\ shape x = s ++ [m]
    /\ forall bi, in_shape s bi ->
         exists sol,
           gesv (matrix_at a (bidx ba bi) m m) (vector_at b (bidx bb bi) m) = Some sol
           /\ forall i, data x (bi ++ [i]) = nth i sol C0.
Proof.
  intros Ha Hb Hlen. unfold solve. rewrite Ha, unsnoc2_app, Nat.eqb_refl.
  replace (ndim b =? ndim a - 1) with true
    by (symmetry; apply Nat.eqb_eq; unfold ndim; rewrite Ha, Hb, !length_app; simpl; lia).
  unfold solve_vectors. rewrite Hb, unsnoc_app, Nat.eqb_refl.
  destruct (bshape ba bb) as [s |] eqn:Es; [| discriminate].
  destruct (forallb _ (indices s)) eqn:Eall; [| discriminate].
  intros H. inversion H; subst x. clear H. exists s. cbn [shape data].
  split; [reflexivity |]. split; [reflexivity |].
  intros bi Hbi. rewrite forallb_forall in Eall.
  specialize (Eall bi (indices_in _ _ Hbi)).
  destruct (gesv _ _) as [sol |] eqn:Esol; [| discriminate].
  exists sol. split; [reflexivity |].
  intros i. now rewrite unsnoc_app, Esol.
Qed.

Lemma expand_dims_0 {A} (a : ndarray A) :
  expand_dims a 0 = Ok (mkarr (1 :: shape a) (fun idx => data a (skipn 1 idx))).
Proof. reflexivity. Qed.

(** C4: for ATF vectors of shape (targets, bins, sensors), a noise PSD of
    shape (bins, sensors, sensors) and the response vector [1, 0, ..., 0],
    a driver that returns solutions makes the returned vector [w] satisfy,
    in every bin, [conj(atf[0]) . w = 1] and [conj(atf[k]) . w = 0] for
    every [k > 0]. *)
Theorem lcmv_constraints (atf response noise w : ndarray C) (K F D : nat) :
  gesv_sound gesv ->
  shape atf = [K; F; D] -> shape noise = [F; D; D] -> shape response = [K] ->
  data response [0] = C1 ->
  (forall k, 0 < k < K -> data response [k] = C0) ->
  get_lcmv_vector gesv atf response noise = Ok w ->
  shape w = [F; D]
  /\ forall f k, f < F -> k < K ->
       Csum D (fun d => (Cconj (data atf [k; f; d]) * data w [f; d])%C)
       = if k =? 0 then C1 else C0.
Proof.
  intros Hsound Hatf Hnoise Hresp Hr0 Hrk Hw.
  unfold get_lcmv_vector in Hw. rewrite !expand_dims_0 in Hw. cbn [rbind] in Hw.
  apply rbind_ok in Hw as (X & HX & Hw).
  apply rbind_ok in Hw as (G & HG & Hw).
  apply rbind_ok in Hw as (temp & Htemp & Hw).
  (* the first solve *)
  apply (solve_vectors_spec _ _ _ [1; F] [K; F] D) in HX;
    [| cbn [shape]; now rewrite Hnoise | exact Hatf | reflexivity].
  destruct HX as (s1 & Hs1 & HsX & _).
  change [1; F] with ([1] ++ [F]) in Hs1. change [K; F] with ([K] ++ [F]) in Hs1.
  rewrite bshape_app, bdim_refl in Hs1.
  change [1] with ([] ++ [1]) in Hs1. change [K] with ([] ++ [K]) in Hs1.
  rewrite bshape_app, bdim_1_l, bshape_nil_l in Hs1. cbn [app] in Hs1.
  inversion Hs1; subst s1. clear Hs1. cbn [app] in HsX.
  (* the Gram matrix *)
  unfold einsum_kd_ld in HG. cbn [amap shape] in HG. rewrite Hatf, HsX in HG.
  change [F; D] with ([F] ++ [D]) in HG.
  rewrite !unsnoc_app, bshape_refl, bdim_refl in HG.
  inversion HG; subst G. clear HG.
  (* the second solve *)
  apply (solve_vectors_spec _ _ _ [F] [1] K) in Htemp;
    [| reflexivity | cbn [shape]; now rewrite Hresp | reflexivity].
  destruct Htemp as (s2 & Hs2 & Hst & Htemp).
  change [F] with ([] ++ [F]) in Hs2. change [1] with ([] ++ [1]) in Hs2.
  rewrite bshape_app, bdim_1_r, bshape_nil_l in Hs2. cbn [app] in Hs2.
  inversion Hs2; subst s2. clear Hs2. cbn [app] in Hst.
  (* the beamforming vector *)
  unfold einsum_kd_k in Hw. rewrite HsX, Hst in Hw.
  change [F; K] with ([F] ++ [K]) in Hw. change [F; D] with ([F] ++ [D]) in Hw.
  rewrite !unsnoc_app, bshape_refl, bdim_refl in Hw.
  inversion Hw; subst w. clear Hw. cbn [shape data app].
  split; [reflexivity |].
  intros f k Hf Hk.
  assert (Hinf : in_shape [F] [f]) by (repeat constructor; assumption).
  destruct (Htemp [f] Hinf) as (sol & Hsol & Hdata).
  rewrite (bidx_id _ _ Hinf) in Hsol.
  apply (Hsound K) in Hsol; [| apply square_matrix_at | apply length_vector_at].
  destruct Hsol as [Hlen Hsol]. specialize (Hsol k Hk).
  rewrite nth_vector_at in Hsol by assumption.
  cbn [data] in Hsol.
  replace (data response (skipn 1 (bidx [1] [f] ++ [k]))) with (data response [k]) in Hsol
    by reflexivity.
  assert (Hrhs : data response [k] = if k =? 0 then C1 else C0).
  { destruct k as [| k]; [exact Hr0 |]. apply Hrk. lia. }
  rewrite <- Hrhs, <- Hsol. unfold mulmv.
  (* exchange the two sums *)
  transitivity
    (Csum D (fun d => Csum K (fun l =>
       (Cconj (data atf [k; f; d]) * (data X [l; f; d] * nth l sol C0))%C))).
  { apply Csum_ext. intros d Hd.
    change ([f] ++ [d]) with ([f; d]). change [f; d] with ([f] ++ [d]) at 2.
    rewrite unsnoc_app, Csum_mult_l. apply Csum_ext. intros l Hl.
    f_equal. f_equal.
    - rewrite (cl_lt _ _ Hl), (bidx_id _ _ Hinf). reflexivity.
    - unfold bget. rewrite Hst. change [F; K] with ([F] ++ [K]).
      rewrite bidx_app, (bidx_id _ _ Hinf), (cl_lt _ _ Hl). apply Hdata. }
  rewrite Csum_swap. apply Csum_ext. intros l Hl.
  rewrite nth_matrix_at by assumption. cbn [data app].
  change [f; k; l] with ([f] ++ [k; l]). rewrite unsnoc2_app, Csum_mult_r.
  apply Csum_ext. intros d Hd.
  rewrite (bidx_id _ _ Hinf), (cl_lt _ _ Hd). cbn [app].
  rewrite Cmult_assoc. reflexivity.
Qed.

End Lcmv.

(** ** MVDR: scaling the noise PSD *)

Lemma nth_scaleV (c : C) (x : list C) (j : nat) :
  nth j (scaleV c x) C0 = (c * nth j x C0)%C.
Proof.
  unfold scaleV. rewrite <- (Cmult_0_r c) at 1. apply map_nth.
Qed.

Lemma nth_scaleM (c : C) (A : matrix) (i j : nat) :
  nth j (nth i (scaleM c A) []) C0 = (c * nth j (nth i A []) C0)%C.
Proof.
  unfold scaleM. change (@nil C) with (map (Cmult c) []) at 1.
  rewrite map_nth. apply nth_scaleV.
Qed.

Lemma square_scaleM (n : nat) (c : C) (A : matrix) : square n A -> square n (scaleM c A).
Proof.
  unfold square, scaleM. intros [Hl Hr]. split; [now rewrite length_map |].
  apply Forall_map. eapply Forall_impl; [| exact Hr].
  intros row Hrow. now rewrite length_map.
Qed.

Lemma mulmv_scaleM (n : nat) (c : C) (A : matrix) (x : list C) (i : nat) :
  mulmv n (scaleM c A) x i = (c * mulmv n A x i)%C.
Proof.
  unfold mulmv. rewrite Csum_mult_l. apply Csum_ext. intros j _.
  rewrite nth_scaleM. symmetry. apply Cmult_assoc.
Qed.

Lemma mulmv_scaleV (n : nat) (c : C) (A : matrix) (x : list C) (i : nat) :
  mulmv n A (scaleV c x) i = (c * mulmv n A x i)%C.
Proof.
  unfold mulmv. rewrite Csum_mult_l. apply Csum_ext. intros j _.
  rewrite nth_scaleV, !Cmult_assoc. f_equal. apply Cmult_comm.
Qed.

Lemma scaleV_scaleV (c d : C) (x : list C) : (c * d)%C = C1 -> scaleV c (scaleV d x) = x.
Proof.
  intros H. unfold scaleV. rewrite map_map. rewrite <- (map_id x) at 2.
  apply map_ext. intros z. now rewrite Cmult_assoc, H, Cmult_1_l.
Qed.

Lemma scaleM_scaleM (c d : C) (A : matrix) : (c * d)%C = C1 -> scaleM c (scaleM d A) = A.
Proof.
  intros H. unfold scaleM. rewrite map_map. rewrite <- (map_id A) at 2.
  apply map_ext. intros row. now apply scaleV_scaleV.
Qed.

Lemma solves_scale (n : nat) (c d : C) (A : matrix) (x b : list C) :
  (c * d)%C = C1 -> solves n A x b -> solves n (scaleM c A) (scaleV d x) b.
Proof.
  intros H [Hl Hs]. split; [unfold scaleV; now rewrite length_map |].
  intros i Hi. rewrite mulmv_scaleM, mulmv_scaleV, Cmult_assoc, H, Cmult_1_l.
  now apply Hs.
Qed.

Lemma nonsingular_scale (n : nat) (c d : C) (A : matrix) :
  (c * d)%C = C1 -> nonsingular n A -> nonsingular n (scaleM c A).
Proof.
  intros H HA b Hb. destruct (HA b Hb) as (x & Hx & Huniq).
  assert (H' : (d * c)%C = C1) by now rewrite Cmult_comm.
  exists (scaleV d x). split; [now apply solves_scale |].
  intros y Hy. apply (solves_scale n d c) in Hy; [| assumption].
  rewrite (scaleM_scaleM d c A H') in Hy. apply Huniq in Hy.
  rewrite <- Hy. symmetry. now apply scaleV_scaleV.
Qed.

Section ScaledSolver.
Variable gesv : matrix -> list C -> option (list C).
Hypothesis gesv_is_sound : gesv_sound gesv.
Hypothesis gesv_is_exact : gesv_exact gesv.

(** The driver on [c A]: the solution is divided by [c], and it fails
    exactly when it fails on [A]. *)
Lemma gesv_scale (n : nat) (c d : C) (A : matrix) (b : list C) :
  (c * d)%C = C1 -> square n A -> length b = n ->
  gesv (scaleM c A) b = option_map (scaleV d) (gesv A b).
Proof.
  intros H HA Hb.
  assert (H' : (d * c)%C = C1) by now rewrite Cmult_comm.
  pose proof (square_scaleM n c A HA) as HcA.
  destruct (gesv A b) as [x |] eqn:Ex; cbn [option_map].
  - assert (Hns : nonsingular n A) by (apply (gesv_is_exact n A b HA Hb); now exists x).
    pose proof (nonsingular_scale n c d A H Hns) as Hns'.
    apply (gesv_is_exact n _ b HcA Hb) in Hns' as (x' & Ex').
    rewrite Ex'. f_equal.
    pose proof (gesv_is_sound n _ b x' HcA Hb Ex') as Hs'.
    pose proof (gesv_is_sound n _ b x HA Hb Ex) as Hs.
    apply (solves_scale n d c) in Hs'; [| assumption].
    rewrite (scaleM_scaleM d c A H') in Hs'.
    destruct (Hns b Hb) as (x0 & _ & Huniq).
    rewrite <- (scaleV_scaleV d c x' H'), (Huniq _ Hs'), (Huniq _ Hs). reflexivity.
  - destruct (gesv (scaleM c A) b) as [x' |] eqn:Ex'; [| reflexivity].
    exfalso.
    assert (Hns : nonsingular n (scaleM c A))
      by (apply (gesv_is_exact n _ b HcA Hb); now exists x').
    apply (nonsingular_scale n d c) in Hns; [| assumption].
    rewrite (scaleM_scaleM d c A H') in Hns.
    apply (gesv_is_exact n A b HA Hb) in Hns as (x & Hx). congruence.
Qed.

End ScaledSolver.

Lemma scaled_by_ndim (c : C) (a' a : ndarray C) : scaled_by c a' a -> ndim a' = ndim a.
Proof. intros [H _]. unfold ndim. now rewrite H. Qed.

Lemma scaled_by_bget (c : C) (a' a : ndarray C) (idx : list nat) :
  scaled_by c a' a -> bget a' idx = (c * bget a idx)%C.
Proof. intros [Hs Hd]. unfold bget. now rewrite Hs, Hd. Qed.

Lemma expand_front_scaled (c : C) (k : nat) (a' a e : ndarray C) :
  scaled_by c a' a -> expand_front k a = Ok e ->
  exists e', expand_front k a' = Ok e' /\ scaled_by c e' e.
Proof.
  revert a' a. induction k as [| k IH]; intros a' a Hsc; cbn [expand_front].
  - intros H. inversion H; subst. now exists a'.
  - rewrite !expand_dims_0. cbn [rbind]. apply IH.
    destruct Hsc as [Hs Hd]. split; cbn [shape data]; [now rewrite Hs | intros; apply Hd].
Qed.

Lemma swapaxes_last_scaled (c : C) (a' a e : ndarray C) :
  scaled_by c a' a -> swapaxes_last a = Ok e ->
  exists e', swapaxes_last a' = Ok e' /\ scaled_by c e' e.
Proof.
  intros [Hs Hd]. unfold swapaxes_last. rewrite Hs.
  destruct (unsnoc2 (shape a)) as [[[b m] n] |]; [| discriminate].
  intros H. inversion H; subst e. eexists. split; [reflexivity |].
  split; cbn [shape data]; [reflexivity |].
  intros idx. destruct (unsnoc2 idx) as [[[bi i] j] |]; apply Hd.
Qed.

Lemma Cconj_real_mult (c : R) (z : C) : Cconj (RtoC c * z) = (RtoC c * Cconj z)%C.
Proof. now rewrite Cconj_mult, Cconj_RtoC. Qed.

Section ScaledNoise.
Variable gesv : matrix -> list C -> option (list C).
Hypothesis gesv_is_sound : gesv_sound gesv.
Hypothesis gesv_is_exact : gesv_exact gesv.
Variable c : R.
Hypothesis c_pos : (0 < c)%R.

Lemma c_inv : (RtoC c * RtoC (/ c))%C = C1.
Proof. rewrite <- RtoC_mult. unfold C1. f_equal. field. lra. Qed.

Lemma mvdr_noise_scaled (atf noise' noise Nh : ndarray C) :
  scaled_by (RtoC c) noise' noise ->
  mvdr_noise atf noise = Ok Nh ->
  exists Nh', mvdr_noise atf noise' = Ok Nh' /\ scaled_by (RtoC c) Nh' Nh.
Proof.
  intros Hsc H. unfold mvdr_noise in *. rewrite (scaled_by_ndim _ _ _ Hsc).
  apply rbind_ok in H as (e & He & H).
  destruct (expand_front_scaled _ _ _ _ _ Hsc He) as (e' & He' & Hsce).
  rewrite He'. cbn [rbind].
  apply rbind_ok in H as (sw & Hsw & H).
  destruct (swapaxes_last_scaled _ _ _ _ Hsce Hsw) as (sw' & Hsw' & Hscs).
  rewrite Hsw'. cbn [rbind].
  apply rbind_ok in H as (sum & Hsum & H). inversion H; subst Nh. clear H.
  unfold bmap2 in *. cbn [amap shape] in *.
  destruct Hsce as [Hse Hde]. destruct Hscs as [Hss Hds].
  rewrite Hse, Hss.
  destruct (bshape (shape e) (shape sw)) as [s |]; [| discriminate].
  inversion Hsum; subst sum. clear Hsum. cbn [rbind].
  eexists. split; [reflexivity |]. split; cbn [amap shape data]; [reflexivity |].
  intros idx. unfold bget, amap. cbn [shape data]. rewrite Hse, Hss, Hde, Hds.
  rewrite Cconj_real_mult. rewrite <- Cmult_plus_distr_l.
  rewrite !Cmult_assoc. f_equal. apply Cmult_comm.
Qed.

Lemma matrix_at_scaled (k : C) (a' a : ndarray C) (bi : list nat) (m n : nat) :
  scaled_by k a' a -> matrix_at a' bi m n = scaleM k (matrix_at a bi m n).
Proof.
  intros [_ Hd]. unfold matrix_at, scaleM. rewrite map_map.
  apply map_ext. intros i. rewrite map_map. apply map_ext. intros j. apply Hd.
Qed.

Lemma forallb_ext {A} (f g : A -> bool) (l : list A) :
  (forall x, f x = g x) -> forallb f l = forallb g l.
Proof. intros H. induction l as [| x l IH]; simpl; [reflexivity | now rewrite H, IH]. Qed.

Lemma is_some_map {A B} (f : A -> B) (o : option A) : is_some (option_map f o) = is_some o.
Proof. now destruct o. Qed.

Lemma length_column_at (a : ndarray C) (bi : list nat) (m j : nat) :
  length (column_at a bi m j) = m.
Proof. unfold column_at. now rewrite length_map, length_seq. Qed.

(** Solving with [c N] gives the solution for [N] divided by [c]. *)
Lemma solve_scaled (N' N b X : ndarray C) :
  scaled_by (RtoC c) N' N ->
  solve gesv N b = Ok X ->
  exists X', solve gesv N' b = Ok X' /\ scaled_by (RtoC (/ c)) X' X.
Proof.
  intros Hsc. pose proof (scaled_by_ndim _ _ _ Hsc) as Hnd. pose proof Hsc as [Hs _].
  unfold solve. rewrite Hs, Hnd.
  destruct (unsnoc2 (shape N)) as [[[ba m] m'] |]; [| discriminate].
  destruct (m =? m'); [| discriminate].
  assert (Hg : forall bi v, length v = m ->
             gesv (matrix_at N' bi m m) v
             = option_map (scaleV (RtoC (/ c))) (gesv (matrix_at N bi m m) v)).
  { intros bi v Hv. rewrite (matrix_at_scaled _ _ _ _ _ _ Hsc).
    apply (gesv_scale gesv gesv_is_sound gesv_is_exact m);
      [apply c_inv | apply square_matrix_at | assumption]. }
  destruct (ndim b =? ndim N - 1).
  - unfold solve_vectors.
    destruct (unsnoc (shape b)) as [[bb mb] |]; [| discriminate].
    destruct (mb =? m); [| discriminate].
    destruct (bshape ba bb) as [s |]; [| discriminate].
    intros H.
    rewrite (forallb_ext (fun bi => is_some (gesv (matrix_at N' (bidx ba bi) m m)
                                                   (vector_at b (bidx bb bi) m)))
                         (fun bi => is_some (gesv (matrix_at N (bidx ba bi) m m)
                                                   (vector_at b (bidx bb bi) m)))).
    2:{ intros bi. now rewrite Hg, is_some_map by apply length_vector_at. }
    destruct (forallb _ _); [| discriminate].
    inversion H; subst X. clear H.
    eexists. split; [reflexivity |]. split; cbn [shape data]; [reflexivity |].
    intros idx. destruct (unsnoc idx) as [[bi i] |]; [| now rewrite Cmult_0_r].
    rewrite Hg by apply length_vector_at.
    destruct (gesv _ _) as [x |]; cbn [option_map]; [apply nth_scaleV | now rewrite Cmult_0_r].
  - unfold solve_matrices.
    destruct (unsnoc2 (shape b)) as [[[bb mb] nb] |]; [| discriminate].
    destruct (mb =? m); [| discriminate].
    destruct (bshape ba bb) as [s |]; [| discriminate].
    intros H.
    rewrite (forallb_ext
               (fun bi =>
                  is_some (gesv (matrix_at N' (bidx ba bi) m m) (repeat C0 m))
                  && forallb (fun j => is_some (gesv (matrix_at N' (bidx ba bi) m m)
                                                     (column_at b (bidx bb bi) m j)))
                             (seq 0 nb))
               (fun bi =>
                  is_some (gesv (matrix_at N (bidx ba bi) m m) (repeat C0 m))
                  && forallb (fun j => is_some (gesv (matrix_at N (bidx ba bi) m m)
                                                     (column_at b (bidx bb bi) m j)))
                             (seq 0 nb))).
    2:{ intros bi. rewrite Hg, is_some_map by apply repeat_length. f_equal.
        apply forallb_ext. intros j. now rewrite Hg, is_some_map by apply length_column_at. }
    destruct (forallb _ _); [| discriminate].
    inversion H; subst X. clear H.
    eexists. split; [reflexivity |]. split; cbn [shape data]; [reflexivity |].
    intros idx. destruct (unsnoc2 idx) as [[[bi i] j] |]; [| now rewrite Cmult_0_r].
    rewrite Hg by apply length_column_at.
    destruct (gesv _ _) as [x |]; cbn [option_map]; [apply nth_scaleV | now rewrite Cmult_0_r].
Qed.

End ScaledNoise.

Lemma Cinv_unique (x y : C) : (x * y)%C = C1 -> y = Cinv x.
Proof.
  intros H.
  assert (Hx : x <> C0).
  { intros ->. rewrite Cmult_0_l in H. unfold C0, C1, RtoC in H. inversion H. lra. }
  rewrite <- (Cmult_1_l (Cinv x)), <- H, (Cmult_comm x y), <- Cmult_assoc, (Cinv_r x Hx).
  now rewrite Cmult_1_r.
Qed.

Lemma Cdiv_scale (k a b : C) : k <> C0 -> b <> C0 -> ((k * a) / (k * b))%C = (a / b)%C.
Proof.
  intros Hk Hb. unfold Cdiv.
  assert (Hinv : Cinv (k * b) = (Cinv k * Cinv b)%C).
  { symmetry. apply Cinv_unique.
    rewrite <- Cmult_assoc, (Cmult_assoc b), (Cmult_comm b (Cinv k)), <- (Cmult_assoc (Cinv k)).
    rewrite (Cinv_r b Hb), Cmult_1_r. now apply Cinv_r. }
  rewrite Hinv, <- Cmult_assoc, (Cmult_assoc a), (Cmult_comm a (Cinv k)).
  rewrite <- (Cmult_assoc (Cinv k)), Cmult_assoc, (Cinv_r k Hk). apply Cmult_1_l.
Qed.

(** [numerator / np.expand_dims(denominator, axis=-1)] *)
Lemma divide_by_denominator (x den : ndarray C) (bx : list nat) (dx : nat) :
  shape x = bx ++ [dx] -> bshape bx (shape den) = Some (shape den) ->
  exists w,
    (den1 <- expand_dims den (-1) ;; bmap2 Cdiv x den1)%res = Ok w
    /\ shape w = shape den ++ [dx]
    /\ forall bi d, in_shape (shape den) bi ->
         data w (bi ++ [d]) = (bget x (bi ++ [d]) / data den bi)%C.
Proof.
  intros Hx Hb. unfold expand_dims. unfold ndim at 1.
  change (-1)%Z with (- Z.of_nat 1)%Z. rewrite norm_axis_neg by lia.
  replace (S (length (shape den)) - 1) with (length (shape den)) by lia.
  rewrite insert_at_end. cbn [rbind]. unfold bmap2. cbn [shape].
  rewrite Hx, bshape_app, bdim_1_r, Hb.
  eexists. split; [reflexivity |]. cbn [shape data]. split; [reflexivity |].
  intros bi d Hbi. f_equal.
  unfold bget. cbn [shape data]. rewrite bidx_app, cl_1, (bidx_id _ _ Hbi).
    rewrite <- (in_shape_length _ _ Hbi), remove_at_last. reflexivity.
Qed.

Lemma in_shape_app1_inv (b idx : list nat) (D : nat) :
  in_shape (b ++ [D]) idx -> exists bi d, idx = bi ++ [d] /\ in_shape b bi /\ d < D.
Proof.
  intros H. pose proof (in_shape_length _ _ H) as Hl.
  rewrite length_app in Hl. simpl in Hl.
  destruct (unsnoc idx) as [[bi d] |] eqn:E.
  - apply unsnoc_inv in E. subst idx. rewrite length_app in Hl. simpl in Hl.
    apply in_shape_app in H as [Hb Hd]; [| lia].
    inversion Hd; subst. exists bi, d. repeat split; assumption.
  - unfold unsnoc in E. destruct (rev idx) eqn:Er; [| discriminate].
    apply (f_equal (@length nat)) in Er. rewrite length_rev in Er. simpl in Er. lia.
Qed.

(** C10: for a solver that returns solutions and fails exactly on singular
    matrices, when the solve of [get_mvdr_vector(a, N)] succeeds with a
    denominator that is nowhere zero and [c] is a positive real,
    [get_mvdr_vector(a, c N)] returns the same vector as
    [get_mvdr_vector(a, N)]. *)
Theorem mvdr_scale_invariant (gesv : matrix -> list C -> option (list C))
  (c : R) (atf noise numerator denominator : ndarray C) :
  gesv_sound gesv -> gesv_exact gesv -> (0 < c)%R ->
  mvdr_numerator gesv atf noise = Ok numerator ->
  mvdr_denominator atf numerator = Ok denominator ->
  (forall bi, in_shape (shape denominator) bi -> data denominator bi <> C0) ->
  exists w w',
    get_mvdr_vector gesv atf noise = Ok w
    /\ get_mvdr_vector gesv atf (amap (Cmult (RtoC c)) noise) = Ok w'
    /\ arr_eq w' w.
Proof.
  intros Hsound Hexact Hc Hnum Hden Hnz.
  assert (Hsc : scaled_by (RtoC c) (amap (Cmult (RtoC c)) noise) noise)
    by (split; reflexivity).
  unfold get_mvdr_vector. rewrite Hnum. cbn [rbind]. rewrite Hden. cbn [rbind].
  unfold mvdr_numerator in *. apply rbind_ok in Hnum as (Nh & HNh & Hsolve).
  destruct (mvdr_noise_scaled c atf _ _ _ Hsc HNh) as (Nh' & HNh' & HscN).
  destruct (solve_scaled gesv Hsound Hexact c Hc _ _ _ _ HscN Hsolve) as (X' & HX' & HscX).
  rewrite HNh'. cbn [rbind]. rewrite HX'. cbn [rbind].
  unfold mvdr_denominator in *.
  apply einsum_d_d_inv in Hden as (ba & da & bx & dx & s & D & Ha & Hx & Hs & HD & ->).
  cbn [amap shape] in Ha. cbn [shape data] in Hnz.
  destruct HscX as [HsX' HdX'].
  unfold einsum_d_d at 1. cbn [amap shape]. rewrite HsX', Ha, Hx, !unsnoc_app, Hs, HD.
  cbn [rbind].
  destruct (bshape_absorb _ _ _ Hs) as [_ Hxs].
  match goal with
  | |- context [expand_dims ?den _] =>
      destruct (divide_by_denominator numerator den bx dx Hx Hxs) as (w & Hw & Hsw & Hdw)
  end.
  match goal with
  | |- context [rbind (expand_dims ?den' _) (fun d => bmap2 Cdiv X' d)] =>
      destruct (divide_by_denominator X' den' bx dx (eq_trans HsX' Hx) Hxs)
        as (w' & Hw' & Hsw' & Hdw')
  end.
  cbn [shape data] in *. rewrite Hw, Hw'.
  exists w, w'. split; [reflexivity |]. split; [reflexivity |].
  split; [now rewrite Hsw, Hsw' |].
  intros idx Hidx. rewrite Hsw' in Hidx.
  apply in_shape_app1_inv in Hidx as (bi & d & -> & Hbi & _).
  rewrite Hdw, Hdw' by assumption.
  assert (Hk : RtoC (/ c) <> C0).
  { intros E. apply RtoC_inj in E. pose proof (Rinv_0_lt_compat c Hc). lra. }
  rewrite <- (Cdiv_scale (RtoC (/ c)) _ _ Hk (Hnz bi Hbi)). f_equal.
  - unfold bget. now rewrite HsX', HdX'.
  - rewrite Csum_mult_l. apply Csum_ext. intros d' _.
    unfold bget at 2. rewrite HsX', HdX'. unfold bget at 3.
    rewrite !Cmult_assoc. f_equal. apply Cmult_comm.
Qed.

(** ** The PCA-then-MVDR wrapper *)

(** Whatever the inputs and the solvers are, when
    [pca_mvdr_wrapper_on_masks] returns, its result is the PCA vector
    [W_pca] applied to the mix, transposed back: the MVDR vector [W_mvdr]
    that the wrapper computes does not enter the result. *)
Lemma pca_mvdr_wrapper_applies_W_pca
  (gesv : matrix -> list C -> option (list C))
  (np_eigh : matrix -> result (list R * matrix))
  (mix : ndarray C) (noise_mask target_mask : option mask_t) (regularization : option R)
  (h h' : heap) (out : ndarray C) :
  pca_mvdr_wrapper_on_masks gesv np_eigh mix noise_mask target_mask regularization h
  = (Ok out, h') ->
  exists noise target h0 st output,
    pca_mvdr_vectors gesv np_eigh (transposeT mix) noise target regularization h0
    = (Ok st, h')
    /\ apply_beamforming_vector (st_W_pca st) (transposeT mix) = Ok output
    /\ out = transposeT output.
Proof.
  unfold pca_mvdr_wrapper_on_masks. intros H.
  assert (H' : exists h0 noise target,
             bind (pca_mvdr_vectors gesv np_eigh (transposeT mix) noise target regularization)
                  (fun st =>
                     bind (lift (apply_beamforming_vector (st_W_pca st) (transposeT mix)))
                          (fun output => ret (transposeT output))) h0
             = (Ok out, h')).
  { destruct noise_mask as [nm |], target_mask as [tm |]; try discriminate;
      apply bind_ok in H as (target & h1 & _ & H);
      apply bind_ok in H as (noise & h2 & _ & H);
      apply bind_ok in H as (u & h3 & Hu & H); apply lift_ok in Hu as [_ ->];
      now exists h2, noise, target. }
  destruct H' as (h0 & noise & target & H').
  apply bind_ok in H' as (st & h1 & Hst & H').
  apply bind_ok in H' as (output & h2 & Ho & H'). apply lift_ok in Ho as [Ho ->].
  apply ret_ok in H' as [-> ->].
  now exists noise, target, h0, st, output.
Qed.

(** ** A reference solver

    The exact solver: it returns the solution of a nonsingular system and
    fails on a singular one.  It meets the contract above, so the
    statements that assume the contract are not vacuous. *)

Lemma gesv_ref_sound : gesv_sound gesv_ref.
Proof.
  intros n A b x _ Hb. subst n. unfold gesv_ref.
  destruct (excluded_middle_informative _) as [H | H]; [| discriminate].
  destruct (constructive_indefinite_description _ _) as (x0 & Hx0 & Huniq). cbn [proj1_sig].
  intros E. inversion E; subst. exact Hx0.
Qed.

Lemma gesv_ref_exact : gesv_exact gesv_ref.
Proof.
  intros n A b _ Hb. unfold gesv_ref. subst n.
  destruct (excluded_middle_informative _) as [H | H].
  - split; [intros ?; exact H | intros ?; eexists; reflexivity].
  - split; [intros (x & Hx); discriminate | intros H'; contradiction].
Qed.

Lemma gesv_ref_solution (n : nat) (A : matrix) (b x : list C) :
  length b = n -> nonsingular n A -> solves n A x b -> gesv_ref A b = Some x.
Proof.
  intros Hb Hns Hx. subst n. unfold gesv_ref.
  destruct (excluded_middle_informative _) as [H | H]; [| contradiction].
  destruct (constructive_indefinite_description _ _) as (x0 & Hx0 & Huniq). cbn [proj1_sig].
  f_equal. symmetry. now apply Huniq.
Qed.

Lemma nonsingular_1x1 (a : C) : a <> C0 -> nonsingular 1 [[a]].
Proof.
  intros Ha b Hb. destruct b as [| r [| ? ?]]; try discriminate.
  exists [(r / a)%C]. split.
  - split; [reflexivity |]. intros i Hi. assert (i = 0) as -> by lia.
    unfold mulmv. cbn [Csum nth]. rewrite Cplus_0_l.
    unfold Cdiv. rewrite (Cmult_comm r), Cmult_assoc, (Cinv_r a Ha). apply Cmult_1_l.
  - intros y [Hl Hy]. destruct y as [| y0 [| ? ?]]; try discriminate.
    specialize (Hy 0 ltac:(lia)). unfold mulmv in Hy. cbn [Csum nth] in Hy.
    rewrite Cplus_0_l in Hy. f_equal. rewrite <- Hy.
    unfold Cdiv. rewrite (Cmult_comm a), <- Cmult_assoc, (Cinv_r a Ha). now rewrite Cmult_1_r.
Qed.

Lemma gesv_ref_1x1 (a r : C) : a <> C0 -> gesv_ref [[a]] [r] = Some [(r / a)%C].
Proof.
  intros Ha. apply (gesv_ref_solution 1); [reflexivity | now apply nonsingular_1x1 |].
  split; [reflexivity |]. intros i Hi. assert (i = 0) as -> by lia.
  unfold mulmv. cbn [Csum nth]. rewrite Cplus_0_l.
  unfold Cdiv. rewrite (Cmult_comm r), Cmult_assoc, (Cinv_r a Ha). apply Cmult_1_l.
Qed.

(** ** Runs on concrete inputs *)

(** With the default axes an observation of shape (..., sensors, frames) and
    a mask of shape (..., frames) are accepted. *)
Lemma masked_psd_returns (observation : ndarray C) (mask : mask_t) (h : heap)
  (b : list nat) (D T : nat) :
  shape observation = b ++ [D; T] ->
  shape (mask_array h mask) = b ++ [T] ->
  exists psd h',
    get_power_spectral_density_matrix observation (Some mask) (-2) (-2) (-1) h = (Ok psd, h')
    /\ shape psd = b ++ [D; D].
Proof.
  intros Hs Hms.
  destruct (transpose_default observation b D T Hs) as (X & HX & HsX).
  rewrite get_psd_masked. cbv zeta.
  assert (Hnd : ndim observation = length b + 2)
    by (unfold ndim; rewrite Hs, length_app; simpl; lia).
  replace (ndim observation =? 0) with false by (symmetry; apply Nat.eqb_neq; lia).
  rewrite HX.
  pose proof (view_mask_cell mask h) as Hview.
  destruct (mask_cell mask h) as [r h1]. cbn [fst snd] in Hview. rewrite Hview.
  change (-1)%Z with (- Z.of_nat 1)%Z. rewrite to_negative_default by lia.
  cbn [Z.of_nat Pos.of_succ_nat Z.opp].
  destruct (normalized_last (mask_array h mask) b T Hms) as (M & HM & HsM & _).
  rewrite HM.
  destruct (weighted_psd_value (ndim observation) X M b D T
              (to_negative (ndim observation) (-2)) (-1) HsX HsM)
    as (psd & Hpsd & Hsp & _).
  rewrite Hpsd. now exists psd, (write r M h1).
Defined.

Lemma two_frames_psd :
  exists psd h',
    get_power_spectral_density_matrix two_frames (Some ones_mask) (-2) (-2) (-1) ones_heap
    = (Ok psd, h')
    /\ shape psd = [1; 1].
Proof. apply (masked_psd_returns two_frames ones_mask ones_heap [] 1 2); reflexivity. Defined.

Lemma psd_hermitian_witness :
  exists psd h',
    get_power_spectral_density_matrix two_frames (Some ones_mask) (-2) (-2) (-1) ones_heap
    = (Ok psd, h')
    /\ hermitian psd.
Proof.
  destruct two_frames_psd as (psd & h' & H & _). exists psd, h'.
  split; [exact H |].
  exact (psd_hermitian two_frames (Some ones_mask) (-2) (-2) (-1) ones_heap h' psd H).
Defined.

Lemma mask_after_call_witness :
  exists psd h' M,
    get_power_spectral_density_matrix two_frames (Some ones_mask) (-2) (-2) (-1) ones_heap
    = (Ok psd, h')
    /\ normalized (view (mkref 0 false) ones_heap) (to_negative (ndim two_frames) (-1)) = Ok M
    /\ arr_eq (view (mkref 0 false) h') M.
Proof.
  destruct two_frames_psd as (psd & h' & H & _).
  destruct (mask_after_call two_frames ones_mask (-2) (-2) (-1) ones_heap h' psd H)
    as (M & HM & Hview & _).
  exists psd, h', M. split; [exact H | split; [exact HM | exact Hview]].
Defined.

Lemma psd_shape_examples_witness :
  (exists psd h',
      get_power_spectral_density_matrix example_observation (Some example_mask)
                                        (-2) (-2) (-1) ones_heap = (Ok psd, h')
      /\ shape psd = [51; 6; 6])
  /\ (exists psd h',
         get_power_spectral_density_matrix example_observation (Some example_source_mask)
                                           (-2) (-2) (-1) ones_heap = (Ok psd, h')
         /\ shape psd = [51; 2; 6; 6]).
Proof.
  split.
  - apply (proj1 (psd_shape_examples example_observation example_mask ones_heap eq_refl)).
    reflexivity.
  - apply (proj2 (psd_shape_examples example_observation example_source_mask ones_heap
                                     eq_refl)).
    reflexivity.
Defined.

Lemma gev_fallback_witness :
  shape unit_cube = [1; 1; 1]
  /\ get_gev_vector_traced failing_eigh unit_eig unit_cube unit_cube
     = ([CallEigh 0; CallEig 0], Ok (rows_array 1 1 [[C1]]))
  /\ get_gev_vector failing_eigh unit_eig unit_cube unit_cube = Ok (rows_array 1 1 [[C1]])
  /\ exists k,
       k <= 1
       /\ forall f, In (CallEig f) [CallEigh 0; CallEig 0]
                    <-> f < k /\ failing_eigh (bin_matrix unit_cube f) (bin_matrix unit_cube f)
                                 = Raise LinAlgError.
Proof.
  split; [reflexivity |]. split; [reflexivity |].
  destruct (gev_fallback failing_eigh unit_eig unit_cube unit_cube 1 1
                         [CallEigh 0; CallEig 0] (Ok (rows_array 1 1 [[C1]]))
                         eq_refl eq_refl eq_refl)
    as (Hg & k & Hk & _ & _ & Hiff & _).
  split; [exact Hg |]. exists k. split; assumption.
Defined.

Lemma indices_in_inv (s bi : list nat) : In bi (indices s) -> in_shape s bi.
Proof.
  unfold in_shape. revert bi. induction s as [| n s IH]; intros bi H; simpl in H.
  - destruct H as [<- | []]. constructor.
  - apply in_flat_map in H as (i & Hi & H). apply in_seq in Hi.
    apply in_map_iff in H as (bi' & <- & H). constructor; [lia | now apply IH].
Qed.

(** [numpy.linalg.solve] returns when the driver solves every system of the
    stack. *)
Lemma solve_vectors_returns (gesv : matrix -> list C -> option (list C))
  (a b : ndarray C) (ba bb s : list nat) (m : nat) :
  shape a = ba ++ [m; m] -> shape b = bb ++ [m] -> length bb = length ba ->
  bshape ba bb = Some s ->
  (forall bi, in_shape s bi ->
     exists sol, gesv (matrix_at a (bidx ba bi) m m) (vector_at b (bidx bb bi) m) = Some sol) ->
  exists x, solve gesv a b = Ok x.
Proof.
  intros Ha Hb Hlen Hs Hsol. unfold solve. rewrite Ha, unsnoc2_app, Nat.eqb_refl.
  replace (ndim b =? ndim a - 1) with true
    by (symmetry; apply Nat.eqb_eq; unfold ndim; rewrite Ha, Hb, !length_app; simpl; lia).
  unfold solve_vectors. rewrite Hb, unsnoc_app, Nat.eqb_refl, Hs.
  replace (forallb _ (indices s)) with true; [eexists; reflexivity |].
  symmetry. apply forallb_forall. intros bi Hbi. apply indices_in_inv in Hbi.
  destruct (Hsol bi Hbi) as (sol & ->). reflexivity.
Qed.

Lemma Cdiv_1_1 : (C1 / C1)%C = C1.
Proof. apply Cdiv_same. unfold C1, C0, RtoC. intros E. inversion E. lra. Qed.

Lemma C1_neq_C0 : C1 <> C0.
Proof. unfold C1, C0, RtoC. intros E. inversion E. lra. Qed.

Lemma unit_mvdr_noise :
  exists Nh,
    mvdr_noise unit_row unit_cube = Ok Nh
    /\ shape Nh = [1; 1; 1] /\ forall idx, data Nh idx = C1.
Proof.
  unfold mvdr_noise, unit_row, unit_cube, ndim. cbn [shape length Nat.add Nat.sub].
  cbn [expand_front rbind].
  eexists. split; [reflexivity |]. split; [reflexivity |].
  intros idx. cbn [amap data shape]. unfold bget, amap. cbn [data shape].
  destruct (unsnoc2 _) as [[[? ?] ?] |];
    unfold Cmult, Cplus, Cconj, RtoC, C1; ceq; lra.
Qed.

(** The MVDR vector for one bin, one sensor, [a = 1] and [N = 1]. *)
Lemma unit_mvdr_run :
  exists numerator denominator,
    mvdr_numerator gesv_ref unit_row unit_cube = Ok numerator
    /\ mvdr_denominator unit_row numerator = Ok denominator
    /\ forall bi, in_shape (shape denominator) bi -> data denominator bi <> C0.
Proof.
  destruct unit_mvdr_noise as (Nh & HNh & HsNh & HdNh).
  assert (Hsol : forall bi, gesv_ref (matrix_at Nh bi 1 1) (vector_at unit_row bi 1)
                            = Some [C1]).
  { intros bi. unfold matrix_at, vector_at. cbn [seq map]. rewrite HdNh.
    cbn [unit_row data]. rewrite gesv_ref_1x1 by apply C1_neq_C0. now rewrite Cdiv_1_1. }
  destruct (solve_vectors_returns gesv_ref Nh unit_row [1] [1] [1] 1)
    as (X & HX); try reflexivity; try assumption.
  { intros bi _. eexists. apply Hsol. }
  pose proof (solve_vectors_spec gesv_ref Nh unit_row X [1] [1] 1 HsNh eq_refl eq_refl HX)
    as (s & Hs & HsX & HdX).
  inversion Hs; subst s. clear Hs.
  unfold mvdr_numerator. rewrite HNh. cbn [rbind].
  exists X. unfold mvdr_denominator, einsum_d_d. cbn [amap shape unit_row]. rewrite HsX.
  eexists. split; [exact HX |]. split; [reflexivity |].
  cbn [shape data]. intros bi Hbi.
  inversion Hbi as [| i n bi' s' Hi Hbi']; subst. inversion Hbi'; subst.
  assert (i = 0) as -> by lia.
  cbn [Csum]. unfold bget. cbn [data shape]. rewrite HsX.
  destruct (HdX [0] Hbi) as (sol & Hsol' & Hdata).
  rewrite Hsol in Hsol'. inversion Hsol'; subst sol.
  change (bidx ([1] ++ [1]) ([0] ++ [0])) with ([0] ++ [0]).
  rewrite Hdata. cbn [nth amap data unit_row].
  rewrite Cplus_0_l, Cmult_1_r. unfold Cconj, C1, C0, RtoC. cbn [fst snd].
  intros E. inversion E. lra.
Qed.


Lemma mvdr_scale_invariant_witness :
  exists w w',
    get_mvdr_vector gesv_ref unit_row unit_cube = Ok w
    /\ get_mvdr_vector gesv_ref unit_row (amap (Cmult (RtoC 2)) unit_cube) = Ok w'
    /\ arr_eq w' w.
Proof.
  destruct unit_mvdr_run as (numerator & denominator & Hnum & Hden & Hnz).
  apply (mvdr_scale_invariant gesv_ref 2 unit_row unit_cube numerator denominator
                              gesv_ref_sound gesv_ref_exact ltac:(lra) Hnum Hden Hnz).
Defined.

(** ** The PSD matrix in terms of the observation and the mask *)

Lemma index_of_seq (n j : nat) : j < n -> index_of j (seq 0 n) = j.
Proof.
  intros H. induction n as [| n IH]; [lia |].
  rewrite seq_S. destruct (Nat.eq_dec j n) as [-> | Hne].
  - rewrite index_of_app_notin by (rewrite in_seq; lia).
    rewrite length_seq. cbn [index_of Nat.add]. rewrite Nat.eqb_refl. lia.
  - rewrite index_of_app_in by (apply in_seq; lia). apply IH. lia.
Qed.

Lemma permute_id_data {A} (a : ndarray A) (idx : list nat) :
  length idx = ndim a -> data (permute a (seq 0 (ndim a))) idx = data a idx.
Proof.
  intros H. unfold permute. cbn [data]. f_equal. rewrite <- H.
  rewrite <- (map_nth_seq idx) at 2. apply map_ext_in.
  intros j Hj. apply in_seq in Hj. rewrite index_of_seq by lia. reflexivity.
Qed.

(** Spec 4.1 with the default axes, for an observation of shape
    (..., sensors, frames) and a mask of shape (..., frames): the store
    holds the normalized mask [M] afterwards, and
    [PSD[..., d, e] = sum_t M[..., t] * obs[..., d, t] * conj(obs[..., e, t])]. *)
Lemma masked_psd_formula (observation : ndarray C) (mask : mask_t) (h : heap)
  (b : list nat) (D T : nat) :
  shape observation = b ++ [D; T] ->
  shape (mask_array h mask) = b ++ [T] ->
  exists M psd,
    normalized (mask_array h mask) (-1) = Ok M
    /\ shape M = b ++ [T]
    /\ (forall bi t, in_shape b bi ->
          data M (bi ++ [t])
          = (data (mask_array h mask) (bi ++ [t])
             / Rmax (Rsum T (fun t' => data (mask_array h mask) (bi ++ [t']))) 1e-10)%R)
    /\ get_power_spectral_density_matrix observation (Some mask) (-2) (-2) (-1) h
       = (Ok psd, write (fst (mask_cell mask h)) M (snd (mask_cell mask h)))
    /\ shape psd = b ++ [D; D]
    /\ forall bi d e, in_shape b bi -> d < D -> e < D ->
         data psd (bi ++ [d; e])
         = Csum T (fun t => (RtoC (data M (bi ++ [t])) * data observation (bi ++ [d; t])
                             * Cconj (data observation (bi ++ [e; t])))%C).
Proof.
  intros Hs Hms.
  assert (Hnd : ndim observation = length b + 2)
    by (unfold ndim; rewrite Hs, length_app; simpl; lia).
  assert (HX : transpose observation
                 (axes_to_end (ndim observation) (to_negative (ndim observation) (-2))
                              (to_negative (ndim observation) (-1)))
               = Ok (permute observation (seq 0 (ndim observation)))).
  { change (-2)%Z with (- Z.of_nat 2)%Z. change (-1)%Z with (- Z.of_nat 1)%Z.
    rewrite !to_negative_default by lia. cbn [Z.of_nat Pos.of_succ_nat Pos.succ Z.opp].
    rewrite Hnd at 1. rewrite axes_to_end_default, <- Hnd.
    unfold transpose, range_neg. rewrite length_map, length_seq, Nat.eqb_refl.
    rewrite perm_axes_range; [reflexivity | lia | intros j []]. }
  set (X := permute observation (seq 0 (ndim observation))) in *.
  assert (HsX : shape X = b ++ [D; T]).
  { unfold X, permute. cbn [shape]. unfold ndim. rewrite map_nth_seq. exact Hs. }
  rewrite get_psd_masked. cbv zeta.
  replace (ndim observation =? 0) with false by (symmetry; apply Nat.eqb_neq; lia).
  rewrite HX.
  pose proof (view_mask_cell mask h) as Hview.
  destruct (mask_cell mask h) as [r h1]. cbn [fst snd] in *. rewrite Hview.
  change (-1)%Z with (- Z.of_nat 1)%Z. rewrite to_negative_default by lia.
  cbn [Z.of_nat Pos.of_succ_nat Z.opp].
  destruct (normalized_last (mask_array h mask) b T Hms) as (M & HM & HsM & HdM).
  rewrite HM.
  destruct (weighted_psd_value (ndim observation) X M b D T
              (to_negative (ndim observation) (-2)) (-1) HsX HsM)
    as (psd & Hpsd & Hsp & Hdp).
  rewrite Hpsd. exists M, psd.
  split; [reflexivity |]. split; [exact HsM |]. split; [exact HdM |].
  split; [reflexivity |]. split; [exact Hsp |].
  intros bi d e Hbi Hd He. rewrite Hdp by assumption.
  apply Csum_ext. intros t Ht.
  unfold X. rewrite !permute_id_data; [reflexivity | |];
    rewrite !length_app, (in_shape_length _ _ Hbi), Hnd; simpl; lia.
Qed.

(** ** A mask of ones *)



(** ** The failing input of the PCA-then-MVDR wrapper *)

(** Equality of lists of complex numbers, entry by entry. *)
Ltac real_entries :=
  repeat match goal with
         | |- _ :: _ = _ :: _ => apply f_equal2
         | |- (_, _) = (_, _) => apply f_equal2
         end;
  try reflexivity; lra.

Lemma bug_target_psd :
  exists M psd,
    get_power_spectral_density_matrix (transposeT bug_mix) (Some (mask_T bug_target))
                                      (-2) (-2) (-1) bug_heap
    = (Ok psd, write (mkref 0 true) M bug_heap)
    /\ shape psd = [1; 2; 2]
    /\ matrix_at psd [0] 2 2 = [[C1; C0]; [C0; C0]].
Proof.
  destruct (masked_psd_formula (transposeT bug_mix) (mask_T bug_target) bug_heap [1] 2 2
                               eq_refl eq_refl)
    as (M & psd & _ & _ & HdM & Hpsd & Hs & Hd).
  exists M, psd. split; [exact Hpsd |]. split; [exact Hs |].
  assert (Hin : in_shape [1] [0]) by (repeat constructor).
  unfold matrix_at. cbn [seq map].
  rewrite !Hd by (assumption || lia). cbn [Csum].
  rewrite !HdM by assumption.
  assert (Hsum : Rmax (Rsum 2 (fun t' => data (mask_array bug_heap (mask_T bug_target))
                                              ([0] ++ [t']))) 1e-10 = 1%R).
  { eval_arrays. unfold Rmax. destruct (Rle_dec _ _); lra. }
  rewrite Hsum. eval_arrays. real_entries.
Qed.

Lemma bug_noise_psd (M : ndarray R) :
  exists M' psd,
    get_power_spectral_density_matrix (transposeT bug_mix) (Some (mask_T bug_noise))
                                      (-2) (-2) (-1) (write (mkref 0 true) M bug_heap)
    = (Ok psd, write (mkref 1 true) M' (write (mkref 0 true) M bug_heap))
    /\ shape psd = [1; 2; 2]
    /\ matrix_at psd [0] 2 2 = [[C1; RtoC 0.5]; [RtoC 0.5; RtoC 0.5]].
Proof.
  destruct (masked_psd_formula (transposeT bug_mix) (mask_T bug_noise)
                               (write (mkref 0 true) M bug_heap) [1] 2 2 eq_refl eq_refl)
    as (M' & psd & _ & _ & HdM & Hpsd & Hs & Hd).
  exists M', psd. split; [exact Hpsd |]. split; [exact Hs |].
  assert (Hin : in_shape [1] [0]) by (repeat constructor).
  unfold matrix_at. cbn [seq map].
  rewrite !Hd by (assumption || lia). cbn [Csum].
  rewrite !HdM by assumption.
  assert (Hsum : Rmax (Rsum 2 (fun t' => data (mask_array (write (mkref 0 true) M bug_heap)
                                                          (mask_T bug_noise))
                                              ([0] ++ [t']))) 1e-10 = 2%R).
  { eval_arrays. unfold Rmax. destruct (Rle_dec _ _); lra. }
  rewrite Hsum. eval_arrays. real_entries.
Qed.

Lemma bug_pca_vector (psd : ndarray C) :
  shape psd = [1; 2; 2] ->
  exists W,
    get_pca_vector eigh_e1 psd = Ok W
    /\ shape W = [1; 2] /\ data W [0; 0] = C1 /\ data W [0; 1] = C0.
Proof.
  intros Hs. unfold get_pca_vector. rewrite Hs.
  change [1; 2; 2] with ([1] ++ [2; 2]). rewrite unsnoc2_app.
  assert (Hmax : argmax_from Rltb 0 0%R 1 [1%R] = 1).
  { unfold argmax_from, Rltb. destruct (Rlt_dec 0 1) as [_ | Hn]; [reflexivity | lra]. }
  eexists. split; [reflexivity |]. split; [reflexivity |].
  cbn [data]. change [0; 0] with ([0] ++ [0]). change [0; 1] with ([0] ++ [1]).
  rewrite !unsnoc_app, Hmax. split; reflexivity.
Qed.

Lemma bug_system :
  gesv_ref [[C1; RtoC 0.5]; [RtoC 0.5; RtoC 0.5]] [C1; C0] = Some [RtoC 2; RtoC (-2)].
Proof.
  apply (gesv_ref_solution 2); [reflexivity | |].
  - intros b Hb. destruct b as [| [u1 u2] [| [v1 v2] [| ? ?]]]; try discriminate.
    exists [((2 * u1 - 2 * v1)%R, (2 * u2 - 2 * v2)%R);
            ((- 2 * u1 + 4 * v1)%R, (- 2 * u2 + 4 * v2)%R)].
    split.
    + split; [reflexivity |]. intros i Hi.
      destruct i as [| [| i]]; [| | lia]; unfold mulmv; cbn [Csum nth];
        unfold Cplus, Cmult, C0, C1, RtoC; cbn [fst snd]; apply f_equal2; lra.
    + intros y [Hl Hy]. destruct y as [| [y1 y2] [| [z1 z2] [| ? ?]]]; try discriminate.
      pose proof (Hy 0 ltac:(lia)) as H0. pose proof (Hy 1 ltac:(lia)) as H1.
      unfold mulmv in H0, H1. cbn [Csum nth] in H0, H1.
      unfold Cplus, Cmult, C0, C1, RtoC in H0, H1. cbn [fst snd] in H0, H1.
      inversion H0. inversion H1. real_entries.
  - split; [reflexivity |]. intros i Hi.
    destruct i as [| [| i]]; [| | lia]; unfold mulmv; cbn [Csum nth];
      unfold Cplus, Cmult, C0, C1, RtoC; cbn [fst snd]; apply f_equal2; lra.
Qed.

Lemma bug_mvdr_vector (W psd : ndarray C) :
  shape W = [1; 2] -> data W [0; 0] = C1 -> data W [0; 1] = C0 ->
  shape psd = [1; 2; 2] ->
  matrix_at psd [0] 2 2 = [[C1; RtoC 0.5]; [RtoC 0.5; RtoC 0.5]] ->
  exists w,
    get_mvdr_vector gesv_ref W psd = Ok w
    /\ shape w = [1; 2] /\ data w [0; 0] = C1 /\ data w [0; 1] = RtoC (-1).
Proof.
  intros HsW HW0 HW1 Hs Hmat.
  unfold matrix_at in Hmat. cbn [seq map app] in Hmat.
  injection Hmat as H00 H01 H10 H11.
  (* the symmetrized noise PSD *)
  assert (HNh : exists Nh, mvdr_noise W psd = Ok Nh /\ shape Nh = [1; 2; 2]
                           /\ matrix_at Nh [0] 2 2
                              = [[C1; RtoC 0.5]; [RtoC 0.5; RtoC 0.5]]).
  { unfold mvdr_noise, ndim. rewrite HsW, Hs. cbn [length Nat.add Nat.sub expand_front rbind].
    unfold swapaxes_last. rewrite Hs. change [1; 2; 2] with ([1] ++ [2; 2]).
    rewrite unsnoc2_app. cbn [rbind]. unfold bmap2. cbn [amap shape].
    rewrite Hs. change [1; 2; 2] with ([1] ++ [2; 2]). rewrite bshape_refl. cbn [rbind].
    eexists. split; [reflexivity |]. split; [reflexivity |].
    unfold matrix_at. cbn [seq map amap data app]. unfold bget. cbn [amap shape data].
    rewrite Hs.
    change (bidx [1; 2; 2] [0; 0; 0]) with [0; 0; 0].
    change (bidx [1; 2; 2] [0; 0; 1]) with [0; 0; 1].
    change (bidx [1; 2; 2] [0; 1; 0]) with [0; 1; 0].
    change (bidx [1; 2; 2] [0; 1; 1]) with [0; 1; 1].
    change (bidx ([1] ++ [2; 2]) [0; 0; 0]) with ([0] ++ [0; 0]).
    change (bidx ([1] ++ [2; 2]) [0; 0; 1]) with ([0] ++ [0; 1]).
    change (bidx ([1] ++ [2; 2]) [0; 1; 0]) with ([0] ++ [1; 0]).
    change (bidx ([1] ++ [2; 2]) [0; 1; 1]) with ([0] ++ [1; 1]).
    cbv [unsnoc2 rev app]. rewrite H00, H01, H10, H11.
    unfold C1, Cmult, Cplus, Cconj, RtoC. cbn [fst snd]. real_entries. }
  destruct HNh as (Nh & HNh & HsNh & HmNh).
  assert (Hvec : vector_at W [0] 2 = [C1; C0]).
  { unfold vector_at. cbn [seq map app]. now rewrite HW0, HW1. }
  assert (Hin : in_shape [1] [0]) by (repeat constructor).
  assert (Hbi : forall bi, in_shape [1] bi -> bi = [0]).
  { intros bi Hb. inversion Hb as [| i n bi' s' Hi Hb']; subst. inversion Hb'; subst.
    f_equal. lia. }
  destruct (solve_vectors_returns gesv_ref Nh W [1] [1] [1] 2)
    as (X & HX); try reflexivity; try assumption.
  { intros bi Hb. rewrite (bidx_id _ _ Hb), (Hbi bi Hb), HmNh, Hvec.
    eexists. apply bug_system. }
  pose proof (solve_vectors_spec gesv_ref Nh W X [1] [1] 2 HsNh HsW eq_refl HX)
    as (s & Hs' & HsX & HdX).
  inversion Hs'; subst s. clear Hs'.
  destruct (HdX [0] Hin) as (sol & Hsol & Hdata).
  change (bidx [1] [0]) with [0] in Hsol. rewrite HmNh, Hvec, bug_system in Hsol.
  inversion Hsol; subst sol. clear Hsol.
  pose proof (Hdata 0) as HX0. pose proof (Hdata 1) as HX1. cbn [nth app] in HX0, HX1.
  unfold get_mvdr_vector, mvdr_numerator. rewrite HNh. cbn [rbind]. rewrite HX. cbn [rbind].
  unfold mvdr_denominator, einsum_d_d. cbn [amap shape]. rewrite HsW, HsX.
  change [1; 2] with ([1] ++ [2]). rewrite !unsnoc_app, bshape_refl, bdim_refl. cbn [rbind].
  match goal with
  | |- context [expand_dims ?d _] => set (den := d)
  end.
  destruct (divide_by_denominator X den [1] 2 HsX eq_refl) as (w & Hw & Hsw & Hdw).
  rewrite Hw. exists w. split; [reflexivity |]. split; [exact Hsw |].
  assert (Hden : data den [0] = RtoC 2).
  { unfold den. cbn [data Csum]. unfold bget. cbn [amap shape data].
    rewrite HsW, HsX.
    change (bidx [1; 2] ([0] ++ [0])) with [0; 0].
    change (bidx [1; 2] ([0] ++ [1])) with [0; 1].
    change (bidx ([1] ++ [2]) ([0] ++ [0])) with [0; 0].
    change (bidx ([1] ++ [2]) ([0] ++ [1])) with [0; 1].
    rewrite HW0, HW1, HX0, HX1.
    unfold C0, C1, Cmult, Cplus, Cconj, RtoC. cbn [fst snd]. apply f_equal2; lra. }
  change [0; 0] with ([0] ++ [0]). change [0; 1] with ([0] ++ [1]).
  rewrite !Hdw by exact Hin. rewrite Hden. unfold bget. rewrite HsX.
  change (bidx ([1] ++ [2]) ([0] ++ [0])) with [0; 0].
  change (bidx ([1] ++ [2]) ([0] ++ [1])) with [0; 1].
  rewrite HX0, HX1. unfold Cdiv. rewrite Cinv_RtoC, <- !RtoC_mult.
  split; unfold C1; f_equal; lra.
Qed.

Lemma bug_apply (W : ndarray C) :
  shape W = [1; 2] ->
  exists out,
    apply_beamforming_vector W (transposeT bug_mix) = Ok out
    /\ data (transposeT out) [1; 0] = (Cconj (data W [0; 0]) + Cconj (data W [0; 1]))%C.
Proof.
  intros HsW. unfold apply_beamforming_vector, einsum_a_at. cbn [amap shape transposeT].
  rewrite HsW. cbn [bug_mix shape rev app].
  change [1; 2] with ([1] ++ [2]). change [1; 2; 2] with ([1] ++ [2; 2]).
  rewrite unsnoc_app, unsnoc2_app, bshape_refl, bdim_refl.
  eexists. split; [reflexivity |].
  cbn [transposeT data rev app]. change [0; 1] with ([0] ++ [1]) at 1.
  rewrite unsnoc_app. cbn [Csum]. unfold bget. cbn [amap shape data]. rewrite HsW.
  change (bidx [1; 2] ([0] ++ [0])) with [0; 0].
  change (bidx [1; 2] ([0] ++ [1])) with [0; 1].
  cbv [bidx rev app clamp cl Nat.eqb nth andb bug_mix].
  rewrite Cplus_0_l, !Cmult_1_r. reflexivity.
Qed.

(** C1 at the failing input: the wrapper returns 1 at frame 1 of bin 0,
    where the MVDR vector it has computed, applied to the mix, gives 0. *)
Theorem pca_mvdr_wrapper_failing_input :
  exists out h' st claimed,
    pca_mvdr_wrapper_on_masks gesv_ref eigh_e1 bug_mix (Some bug_noise) (Some bug_target)
                              None bug_heap = (Ok out, h')
    /\ pca_mvdr_vectors gesv_ref eigh_e1 (transposeT bug_mix)
                        (mask_T bug_noise) (mask_T bug_target) None bug_heap = (Ok st, h')
    /\ apply_beamforming_vector (st_W_mvdr st) (transposeT bug_mix) = Ok claimed
    /\ data out [1; 0] = C1
    /\ data (transposeT claimed) [1; 0] = C0.
Proof.
  destruct bug_target_psd as (Mt & psd_t & Ht & Hst & Hmt).
  destruct (bug_noise_psd Mt) as (Mn & psd_n & Hn & Hsn & Hmn).
  destruct (bug_pca_vector psd_t Hst) as (W & HW & HsW & HW0 & HW1).
  destruct (bug_mvdr_vector W psd_n HsW HW0 HW1 Hsn Hmn) as (w & Hw & Hsw & Hw0 & Hw1).
  destruct (bug_apply W HsW) as (out & Hout & Hdout).
  destruct (bug_apply w Hsw) as (claimed & Hclaimed & Hdclaimed).
  assert (Hvec : pca_mvdr_vectors gesv_ref eigh_e1 (transposeT bug_mix)
                                  (mask_T bug_noise) (mask_T bug_target) None bug_heap
                 = (Ok (mk_pca_mvdr psd_n W w),
                    write (mkref 1 true) Mn (write (mkref 0 true) Mt bug_heap))).
  { unfold pca_mvdr_vectors. unfold bind at 1. rewrite Ht.
    unfold bind at 1. rewrite Hn.
    unfold bind, lift, ret, regularize. rewrite HW, Hw. reflexivity. }
  exists (transposeT out), (write (mkref 1 true) Mn (write (mkref 0 true) Mt bug_heap)),
    (mk_pca_mvdr psd_n W w), claimed.
  split.
  { unfold pca_mvdr_wrapper_on_masks. cbn [option_map or_complement bug_noise bug_target].
    unfold bind at 1. unfold ret at 1. unfold bind at 1. unfold ret at 1.
    unfold bind at 1. unfold lift at 1. cbn [unpack3 transposeT bug_mix shape rev app].
    unfold bind at 1. fold bug_mix. fold bug_noise. fold bug_target.
    change (mkarr [1; 2; 2] (fun idx => data bug_mix (rev idx))) with (transposeT bug_mix).
    change (MaskFloat (mkref (ref_loc (mkref 1 false)) (negb (ref_T (mkref 1 false)))))
      with (mask_T bug_noise).
    change (MaskFloat (mkref (ref_loc (mkref 0 false)) (negb (ref_T (mkref 0 false)))))
      with (mask_T bug_target).
    rewrite Hvec. unfold bind, lift, ret. cbn [st_W_pca]. rewrite Hout. reflexivity. }
  split; [exact Hvec |]. cbn [st_W_mvdr]. split; [exact Hclaimed |].
  rewrite Hdout, Hdclaimed, HW0, HW1, Hw0, Hw1.
  unfold C0, C1, Cplus, Cconj, RtoC. cbn [fst snd]. split; apply f_equal2; lra.
Qed.

(** ** LCMV with two targets *)

Ltac complex_entries :=
  unfold mulmv; cbn [Csum nth];
  unfold Cplus, Cmult, C0, C1, RtoC; cbn [fst snd]; apply f_equal2; lra.

(** The identity matrix is nonsingular, and the exact solver returns the
    right-hand side. *)
Lemma nonsingular_identity : nonsingular 2 [[C1; C0]; [C0; C1]].
Proof.
  intros b Hb. destruct b as [| [u1 u2] [| [v1 v2] [| ? ?]]]; try discriminate.
  exists [(u1, u2); (v1, v2)]. split.
  - split; [reflexivity |]. intros i Hi.
    destruct i as [| [| i]]; [| | lia]; complex_entries.
  - intros y [Hl Hy]. destruct y as [| [y1 y2] [| [z1 z2] [| ? ?]]]; try discriminate.
    pose proof (Hy 0 ltac:(lia)) as H0. pose proof (Hy 1 ltac:(lia)) as H1.
    unfold mulmv in H0, H1. cbn [Csum nth] in H0, H1.
    unfold Cplus, Cmult, C0, C1, RtoC in H0, H1. cbn [fst snd] in H0, H1.
    inversion H0. inversion H1. real_entries.
Qed.

Lemma gesv_ref_identity (b : list C) :
  length b = 2 -> gesv_ref [[C1; C0]; [C0; C1]] b = Some b.
Proof.
  intros Hb. apply (gesv_ref_solution 2); [exact Hb | exact nonsingular_identity |].
  destruct b as [| [u1 u2] [| [v1 v2] [| ? ?]]]; try discriminate.
  split; [reflexivity |]. intros i Hi.
  destruct i as [| [| i]]; [| | lia]; complex_entries.
Qed.

(** The Gram matrix of the two ATF vectors [1, 0] and [1, 1]. *)
Lemma nonsingular_gram : nonsingular 2 [[C1; C1]; [C1; RtoC 2]].
Proof.
  intros b Hb. destruct b as [| [u1 u2] [| [v1 v2] [| ? ?]]]; try discriminate.
  exists [((2 * u1 - v1)%R, (2 * u2 - v2)%R); ((v1 - u1)%R, (v2 - u2)%R)]. split.
  - split; [reflexivity |]. intros i Hi.
    destruct i as [| [| i]]; [| | lia]; complex_entries.
  - intros y [Hl Hy]. destruct y as [| [y1 y2] [| [z1 z2] [| ? ?]]]; try discriminate.
    pose proof (Hy 0 ltac:(lia)) as H0. pose proof (Hy 1 ltac:(lia)) as H1.
    unfold mulmv in H0, H1. cbn [Csum nth] in H0, H1.
    unfold Cplus, Cmult, C0, C1, RtoC in H0, H1. cbn [fst snd] in H0, H1.
    inversion H0. inversion H1. real_entries.
Qed.

(** With two targets, two sensors and the identity as noise PSD both
    solves of [get_lcmv_vector] succeed, for every response vector. *)
Lemma pair_lcmv_run (response : ndarray C) :
  shape response = [2] ->
  exists w, get_lcmv_vector gesv_ref target_pair response identity_noise = Ok w.
Proof.
  intros Hresp.
  unfold get_lcmv_vector. rewrite !expand_dims_0. cbn [rbind].
  set (noise1 := mkarr (1 :: shape identity_noise)
                       (fun idx => data identity_noise (skipn 1 idx))).
  set (resp1 := mkarr (1 :: shape response) (fun idx => data response (skipn 1 idx))).
  (* the first solve: the noise PSD is the identity *)
  assert (Hsol : forall k, k < 2 ->
            gesv_ref (matrix_at noise1 (bidx [1; 1] [k; 0]) 2 2)
                     (vector_at target_pair (bidx [2; 1] [k; 0]) 2)
            = Some (vector_at target_pair [k; 0] 2)).
  { intros k Hk. rewrite (bidx_id [2; 1] [k; 0]) by (constructor; [lia | constructor; [lia | constructor]]).
    change (matrix_at noise1 (bidx [1; 1] [k; 0]) 2 2) with [[C1; C0]; [C0; C1]].
    now apply gesv_ref_identity. }
  assert (Hin2 : forall bi, in_shape [2; 1] bi -> exists k, k < 2 /\ bi = [k; 0]).
  { intros bi Hbi. inversion Hbi as [| k ? i1 ? Hk H1]; subst.
    inversion H1 as [| z ? i2 ? Hz H2]; subst. inversion H2; subst.
    exists k. split; [assumption |]. f_equal. f_equal. lia. }
  destruct (solve_vectors_returns gesv_ref noise1 target_pair [1; 1] [2; 1] [2; 1] 2)
    as (X & HX); try reflexivity.
  { intros bi Hbi. destruct (Hin2 bi Hbi) as (k & Hk & ->). eexists. now apply Hsol. }
  pose proof (solve_vectors_spec gesv_ref noise1 target_pair X [1; 1] [2; 1] 2
                                 eq_refl eq_refl eq_refl HX)
    as (s & Hs & HsX & HdX).
  inversion Hs; subst s. clear Hs. cbn [app] in HsX.
  assert (HXd : forall k d, k < 2 -> data X [k; 0; d] = nth d (vector_at target_pair [k; 0] 2) C0).
  { intros k d Hk.
    destruct (HdX [k; 0] ltac:(constructor; [lia | constructor; [lia | constructor]]))
      as (sol & Hsol' & Hdata).
    rewrite (Hsol k Hk) in Hsol'. inversion Hsol'; subst sol. apply (Hdata d). }
  rewrite HX. cbn [rbind].
  (* the Gram matrix *)
  unfold einsum_kd_ld. cbn [amap shape target_pair]. rewrite HsX.
  change [1; 2] with ([1] ++ [2]).
  rewrite !unsnoc_app, bshape_refl, bdim_refl. cbn [rbind app].
  match goal with
  | |- context [solve gesv_ref ?G resp1] => set (gram := G)
  end.
  assert (HG : matrix_at gram [0] 2 2 = [[C1; C1]; [C1; RtoC 2]]).
  { unfold matrix_at, gram. cbn [seq map data app].
    change [0; 0; 0] with ([0] ++ [0; 0]). change [0; 0; 1] with ([0] ++ [0; 1]).
    change [0; 1; 0] with ([0] ++ [1; 0]). change [0; 1; 1] with ([0] ++ [1; 1]).
    rewrite !unsnoc2_app. cbn [Csum].
    change (bidx [1] [0]) with [0]. change (cl 2 0) with 0. change (cl 2 1) with 1.
    cbn [app]. rewrite !HXd by lia.
    unfold vector_at. cbn -[Cplus Cmult Cconj C0 C1 RtoC].
    unfold Cplus, Cmult, Cconj, C0, C1, RtoC. cbn [fst snd]. real_entries. }
  (* the second solve *)
  destruct (solve_vectors_returns gesv_ref gram resp1 [1] [1] [1] 2)
    as (temp & Htemp); try reflexivity.
  { cbn [shape resp1]. now rewrite Hresp. }
  { intros bi Hbi. rewrite (bidx_id _ _ Hbi).
    inversion Hbi as [| f ? i1 ? Hf H1]; subst. inversion H1; subst.
    assert (f = 0) as -> by lia. rewrite HG.
    apply (gesv_ref_exact 2).
    - split; [reflexivity |]. repeat constructor.
    - apply length_vector_at.
    - exact nonsingular_gram. }
  pose proof (solve_vectors_spec gesv_ref gram resp1 temp [1] [1] 2
                                 eq_refl ltac:(cbn [shape resp1]; now rewrite Hresp)
                                 eq_refl Htemp)
    as (s & Hs & Hst & _).
  inversion Hs; subst s. clear Hs.
  rewrite Htemp. cbn [rbind].
  unfold einsum_kd_k. rewrite HsX, Hst. cbn [app]. change [1; 2] with ([1] ++ [2]).
  rewrite !unsnoc_app, bshape_refl, bdim_refl. eexists. reflexivity.
Qed.

Lemma lcmv_constraints_witness :
  exists w,
    get_lcmv_vector gesv_ref target_pair first_target identity_noise = Ok w
    /\ shape w = [1; 2]
    /\ Csum 2 (fun d => (Cconj (data target_pair [0; 0; d]) * data w [0; d])%C) = C1
    /\ Csum 2 (fun d => (Cconj (data target_pair [1; 0; d]) * data w [0; d])%C) = C0.
Proof.
  destruct (pair_lcmv_run first_target eq_refl) as (w & Hw).
  destruct (lcmv_constraints gesv_ref target_pair first_target identity_noise w 2 1 2
                             gesv_ref_sound eq_refl eq_refl eq_refl eq_refl)
    as (Hs & Hc).
  - intros k Hk. assert (k = 1) as -> by lia. reflexivity.
  - exact Hw.
  - exists w. split; [exact Hw |]. split; [exact Hs |].
    split; [exact (Hc 0 0 ltac:(lia) ltac:(lia)) | exact (Hc 0 1 ltac:(lia) ltac:(lia))].
Defined.

(** * Further properties of the estimators and the beamformers *)

(** ** Sums of real and of complex numbers *)

Lemma Cmult_conj_norm2 (y : C) : (y * Cconj y)%C = RtoC (Cnorm2 y).
Proof. destruct y as [a b]. unfold Cmult, Cconj, Cnorm2, RtoC. cbn [fst snd]. ceq; ring. Qed.

Lemma RtoC_plus (x y : R) : RtoC (x + y) = (RtoC x + RtoC y)%C.
Proof. unfold RtoC, Cplus. cbn [fst snd]. ceq; ring. Qed.

Lemma Csum_RtoC (n : nat) (f : nat -> C) (g : nat -> R) :
  (forall t, t < n -> f t = RtoC (g t)) -> Csum n f = RtoC (Rsum n g).
Proof.
  induction n as [| n IH]; intros H; [reflexivity |].
  cbn [Csum Rsum]. rewrite IH, H, RtoC_plus by (intros; auto with arith). reflexivity.
Qed.

Lemma Rsum_nonneg (n : nat) (g : nat -> R) :
  (forall t, t < n -> (0 <= g t)%R) -> (0 <= Rsum n g)%R.
Proof.
  induction n as [| n IH]; intros H; cbn [Rsum]; [lra |].
  assert (0 <= Rsum n g)%R by (apply IH; intros; auto with arith).
  assert (0 <= g n)%R by (apply H; lia). lra.
Qed.

Lemma Csum_Csum_mult (n m : nat) (a b : nat -> C) :
  (Csum n a * Csum m b)%C = Csum n (fun i => Csum m (fun j => a i * b j)%C).
Proof.
  rewrite Csum_mult_r. apply Csum_ext. intros i _. apply Csum_mult_l.
Qed.

Lemma weighted_term (a b c d : C) (m : R) :
  (Cconj a * (RtoC m * b * Cconj c) * d)%C = (RtoC m * ((Cconj a * b) * (d * Cconj c)))%C.
Proof.
  destruct a, b, c, d. unfold Cmult, Cconj, RtoC. cbn [fst snd]. ceq; ring.
Qed.

(** A weighted sum of outer products [x_t x_t^H], taken between [v^H] and
    [v], is the weighted sum of the squared moduli of [v^H x_t]. *)
Lemma quadratic_form_of_outer_products (D T : nat) (v : nat -> C) (m : nat -> R)
  (x : nat -> nat -> C) :
  Csum D (fun d =>
            Csum D (fun e =>
                      (Cconj (v d)
                       * Csum T (fun t => RtoC (m t) * x d t * Cconj (x e t))
                       * v e)%C))
  = RtoC (Rsum T (fun t => (m t * Cnorm2 (Csum D (fun d => Cconj (v d) * x d t)%C))%R)).
Proof.
  transitivity
    (Csum T (fun t =>
               Csum D (fun d =>
                         Csum D (fun e =>
                                   (Cconj (v d) * (RtoC (m t) * x d t * Cconj (x e t))
                                    * v e)%C)))).
  { rewrite (Csum_swap T D). apply Csum_ext. intros d _.
    rewrite (Csum_swap T D). apply Csum_ext. intros e _.
    rewrite Csum_mult_l, Csum_mult_r. reflexivity. }
  apply Csum_RtoC. intros t _.
  rewrite RtoC_mult, <- Cmult_conj_norm2, Csum_conj, Csum_Csum_mult, Csum_mult_l.
  apply Csum_ext. intros d _. rewrite Csum_mult_l. apply Csum_ext. intros e _.
  rewrite Cconj_mult, Cconj_conj, weighted_term. reflexivity.
Qed.

(** ** The value of the PSD matrix *)

(** X1: with the default axes, an observation of shape (..., sensors,
    frames) and a mask of shape (..., frames), the call returns a PSD matrix
    of shape (..., sensors, sensors) with
    [PSD[..., d, e] = sum_t M[..., t] * obs[..., d, t] * conj(obs[..., e, t])],
    where [M] is the mask divided by [max(sum_t mask[..., t], 1e-10)], and
    [M] is what the array of the mask holds afterwards. *)
Theorem psd_masked_value (observation : ndarray C) (mask : mask_t) (h : heap)
  (b : list nat) (D T : nat) :
  shape observation = b ++ [D; T] ->
  shape (mask_array h mask) = b ++ [T] ->
  exists M psd,
    shape M = b ++ [T]
    /\ (forall bi t, in_shape b bi ->
          data M (bi ++ [t])
          = (data (mask_array h mask) (bi ++ [t])
             / Rmax (Rsum T (fun t' => data (mask_array h mask) (bi ++ [t']))) 1e-10)%R)
    /\ get_power_spectral_density_matrix observation (Some mask) (-2) (-2) (-1) h
       = (Ok psd, write (fst (mask_cell mask h)) M (snd (mask_cell mask h)))
    /\ shape psd = b ++ [D; D]
    /\ forall bi d e, in_shape b bi -> d < D -> e < D ->
         data psd (bi ++ [d; e])
         = Csum T (fun t => (RtoC (data M (bi ++ [t])) * data observation (bi ++ [d; t])
                             * Cconj (data observation (bi ++ [e; t])))%C).
Proof.
  intros Hs Hms.
  destruct (masked_psd_formula observation mask h b D T Hs Hms)
    as (M & psd & _ & HsM & HdM & Hpsd & Hsp & Hdp).
  exists M, psd. repeat split; assumption.
Qed.

(** X2: without a mask, an observation of shape (..., sensors, frames) with
    at least one frame gives the sample covariance divided by the number of
    frames, [PSD[..., d, e] = (sum_t obs[..., d, t] * conj(obs[..., e, t])) / frames],
    and no array of the store changes. *)
Theorem psd_unmasked_value (observation : ndarray C) (h : heap) (b : list nat) (D T : nat) :
  shape observation = b ++ [D; T] ->
  0 < T ->
  exists psd,
    get_power_spectral_density_matrix observation None (-2) (-2) (-1) h = (Ok psd, h)
    /\ shape psd = b ++ [D; D]
    /\ forall bi d e, in_shape b bi -> d < D -> e < D ->
         data psd (bi ++ [d; e])
         = (Csum T (fun t => data observation (bi ++ [d; t])
                             * Cconj (data observation (bi ++ [e; t])))
            / RtoC (INR T))%C.
Proof.
  intros Hs _.
  assert (Hnd : ndim observation = length b + 2)
    by (unfold ndim; rewrite Hs, length_app; simpl; lia).
  destruct (unweighted_psd_value observation b D T h Hs)
    as (X & psd & HX & HsX & Hpsd & Hsp & Hdp).
  assert (HX' : transpose observation
                  (axes_to_end (ndim observation) (to_negative (ndim observation) (-2))
                               (to_negative (ndim observation) (-1)))
                = Ok (permute observation (seq 0 (ndim observation)))).
  { change (-2)%Z with (- Z.of_nat 2)%Z. change (-1)%Z with (- Z.of_nat 1)%Z.
    rewrite !to_negative_default by lia. cbn [Z.of_nat Pos.of_succ_nat Pos.succ Z.opp].
    rewrite Hnd at 1. rewrite axes_to_end_default, <- Hnd.
    unfold transpose, range_neg. rewrite length_map, length_seq, Nat.eqb_refl.
    rewrite perm_axes_range; [reflexivity | lia | intros j []]. }
  rewrite HX' in HX. inversion HX; subst X. clear HX.
  exists psd. split; [exact Hpsd |]. split; [exact Hsp |].
  intros bi d e Hbi Hd He. rewrite Hdp by assumption. f_equal.
  apply Csum_ext. intros t Ht.
  rewrite !permute_id_data; [reflexivity | |];
    rewrite !length_app, (in_shape_length _ _ Hbi), Hnd; simpl; lia.
Qed.

(** ** The PSD matrix is positive semidefinite *)

Lemma Rmax_floor_pos (x : R) : (0 < Rmax x 1e-10)%R.
Proof. unfold Rmax. destruct (Rle_dec x 1e-10); lra. Qed.

(** X3: for a mask without negative entries, every matrix of the PSD
    estimate is positive semidefinite: [v^H PSD v] is a real number that is
    not negative, for every vector [v]. *)
Theorem psd_positive_semidefinite (observation : ndarray C) (mask : mask_t) (h : heap)
  (b : list nat) (D T : nat) :
  shape observation = b ++ [D; T] ->
  shape (mask_array h mask) = b ++ [T] ->
  (forall idx, in_shape (b ++ [T]) idx -> (0 <= data (mask_array h mask) idx)%R) ->
  exists psd h',
    get_power_spectral_density_matrix observation (Some mask) (-2) (-2) (-1) h = (Ok psd, h')
    /\ forall bi v, in_shape b bi ->
         snd (quadratic_form D psd bi v) = 0%R
         /\ (0 <= fst (quadratic_form D psd bi v))%R.
Proof.
  intros Hs Hms Hpos.
  destruct (masked_psd_formula observation mask h b D T Hs Hms)
    as (M & psd & _ & HsM & HdM & Hpsd & Hsp & Hdp).
  exists psd. eexists. split; [exact Hpsd |].
  intros bi v Hbi.
  assert (Hq : quadratic_form D psd bi v
               = RtoC (Rsum T (fun t =>
                                 (data M (bi ++ [t])
                                  * Cnorm2 (Csum D (fun d => Cconj (v d)
                                                             * data observation (bi ++ [d; t]))%C))%R))).
  { unfold quadratic_form.
    rewrite <- (quadratic_form_of_outer_products D T v (fun t => data M (bi ++ [t]))
                  (fun d t => data observation (bi ++ [d; t]))).
    apply Csum_ext. intros d Hd. apply Csum_ext. intros e He.
    now rewrite Hdp. }
  rewrite Hq. cbn [RtoC fst snd]. split; [reflexivity |].
  apply Rsum_nonneg. intros t Ht. apply Rmult_le_pos.
  - rewrite HdM by assumption. apply Rmult_le_pos.
    + apply Hpos. apply in_shape_app; [now apply in_shape_length |].
      split; [assumption | repeat constructor; assumption].
    + left. apply Rinv_0_lt_compat. apply Rmax_floor_pos.
  - unfold Cnorm2. nra.
Qed.

(** ** Calling the estimator again with the mask it has normalized *)

Lemma arr_eq_sym {A} (a b : ndarray A) : arr_eq a b -> arr_eq b a.
Proof.
  intros [Hs Hd]. split; [now symmetry |].
  intros idx Hi. symmetry. apply Hd. now rewrite Hs.
Qed.

Lemma arr_eq_trans {A} (a b c : ndarray A) : arr_eq a b -> arr_eq b c -> arr_eq a c.
Proof.
  intros [Hs1 Hd1] [Hs2 Hd2]. split; [congruence |].
  intros idx Hi. rewrite Hd1 by assumption. apply Hd2. now rewrite <- Hs1.
Qed.

Lemma Rsum_div (n : nat) (f : nat -> R) (c : R) :
  Rsum n (fun t => (f t / c)%R) = (Rsum n f / c)%R.
Proof.
  induction n as [| n IH]; cbn [Rsum]; [unfold Rdiv; ring |].
  rewrite IH. unfold Rdiv. ring.
Qed.

Lemma in_shape_snoc (b bi : list nat) (T t : nat) :
  in_shape b bi -> t < T -> in_shape (b ++ [T]) (bi ++ [t]).
Proof.
  intros Hb Ht. apply in_shape_app; [now apply in_shape_length |].
  split; [assumption | repeat constructor; assumption].
Qed.

(** X4: when the sum of a float mask over the frames is at least [1e-10]
    everywhere, the call leaves a mask behind that sums to one over the
    frames, and a second call with the same array returns the same PSD
    matrix and leaves the array as the first call left it. *)
Theorem psd_second_call (observation : ndarray C) (r : mref) (h : heap)
  (b : list nat) (D T : nat) :
  shape observation = b ++ [D; T] ->
  shape (view r h) = b ++ [T] ->
  (forall bi, in_shape b bi -> (1e-10 <= Rsum T (fun t => data (view r h) (bi ++ [t])))%R) ->
  exists psd h' psd' h'',
    get_power_spectral_density_matrix observation (Some (MaskFloat r)) (-2) (-2) (-1) h
    = (Ok psd, h')
    /\ (forall bi, in_shape b bi -> Rsum T (fun t => data (view r h') (bi ++ [t])) = 1%R)
    /\ get_power_spectral_density_matrix observation (Some (MaskFloat r)) (-2) (-2) (-1) h'
       = (Ok psd', h'')
    /\ arr_eq psd' psd
    /\ arr_eq (view r h'') (view r h').
Proof.
  intros Hs Hms Hsum.
  destruct (masked_psd_formula observation (MaskFloat r) h b D T Hs Hms)
    as (M & psd & _ & HsM & HdM & Hpsd & Hsp & Hdp).
  cbn [mask_array mask_cell fst snd] in *.
  set (h' := write r M h) in *.
  pose proof (view_write r M h) as [Hvs Hvd]. fold h' in Hvs, Hvd.
  assert (Hone : forall bi, in_shape b bi -> Rsum T (fun t => data M (bi ++ [t])) = 1%R).
  { intros bi Hbi.
    rewrite (Rsum_ext T _ (fun t => (data (view r h) (bi ++ [t])
                                      / Rmax (Rsum T (fun t' => data (view r h) (bi ++ [t'])))
                                             1e-10)%R))
      by (intros t _; now apply HdM).
    rewrite Rsum_div. specialize (Hsum bi Hbi).
    rewrite Rmax_left by exact Hsum. apply Rdiv_diag. lra. }
  assert (Hview : forall bi t, in_shape b bi -> t < T ->
                    data (view r h') (bi ++ [t]) = data M (bi ++ [t])).
  { intros bi t Hbi Ht. apply Hvd. rewrite Hvs, HsM. now apply in_shape_snoc. }
  assert (Hone' : forall bi, in_shape b bi ->
                    Rsum T (fun t => data (view r h') (bi ++ [t])) = 1%R).
  { intros bi Hbi. rewrite <- (Hone bi Hbi). apply Rsum_ext. intros t Ht. now apply Hview. }
  assert (Hms' : shape (mask_array h' (MaskFloat r)) = b ++ [T])
    by (cbn [mask_array]; now rewrite Hvs).
  destruct (masked_psd_formula observation (MaskFloat r) h' b D T Hs Hms')
    as (M2 & psd' & _ & HsM2 & HdM2 & Hpsd' & Hsp' & Hdp').
  cbn [mask_array mask_cell fst snd] in *.
  assert (HM2 : forall bi t, in_shape b bi -> t < T ->
                  data M2 (bi ++ [t]) = data M (bi ++ [t])).
  { intros bi t Hbi Ht. rewrite HdM2, (Hone' bi Hbi), (Hview bi t Hbi Ht) by assumption.
    rewrite Rmax_left by lra. unfold Rdiv. rewrite Rinv_1. ring. }
  exists psd, h', psd', (write r M2 h').
  split; [exact Hpsd |]. split; [exact Hone' |]. split; [exact Hpsd' |]. split.
  - split; [congruence |]. intros idx Hidx. rewrite Hsp' in Hidx.
    apply in_shape_app2_inv in Hidx as (bi & d & e & -> & Hbi & Hd & He).
    rewrite Hdp, Hdp' by assumption. apply Csum_ext. intros t Ht.
    now rewrite HM2.
  - apply arr_eq_trans with M2; [apply view_write |].
    apply arr_eq_trans with M; [| apply arr_eq_sym; split; assumption].
    split; [congruence |]. intros idx Hidx. rewrite HsM2 in Hidx.
    apply in_shape_app1_inv in Hidx as (bi & t & -> & Hbi & Ht). now apply HM2.
Qed.

(** ** Inputs that the estimator rejects *)

Lemma weighted_psd_mismatch (n : nat) (X : ndarray C) (M : ndarray R) (b : list nat)
  (D T T' : nat) (source_dim time_dim : Z) :
  shape X = b ++ [D; T] -> shape M = b ++ [T'] ->
  T' <> T -> T' <> 1 -> T <> 1 ->
  weighted_psd n X M source_dim time_dim
  = Raise (ValueError "operands could not be broadcast together").
Proof.
  intros HX HM Hne H1 H1'. unfold weighted_psd.
  assert (Hnd : (ndim M + 1 =? ndim X) = true).
  { apply Nat.eqb_eq. unfold ndim. rewrite HX, HM, !length_app. simpl. lia. }
  rewrite Hnd.
  destruct (expand_dims M (-2)) as [M1 | e] eqn:E1.
  2:{ exfalso. unfold expand_dims in E1. unfold ndim in E1.
      rewrite HM, length_app in E1. simpl in E1.
      change (-2)%Z with (- Z.of_nat 2)%Z in E1. rewrite norm_axis_neg in E1 by lia.
      discriminate. }
  destruct (expand_dims_m2 _ _ E1) as (bm & tm & HM' & HM1 & _).
  rewrite HM in HM'. apply app_inj_1 in HM' as [<- <-].
  cbn [rbind]. unfold bmap2. rewrite HM1, HX.
  change [1; T'] with ([1] ++ [T']). change [D; T] with ([D] ++ [T]).
  rewrite !app_assoc, bshape_app.
  assert (Hb : bdim T' T = None).
  { unfold bdim.
    replace (T' =? T) with false by (symmetry; now apply Nat.eqb_neq).
    replace (T' =? 1) with false by (symmetry; now apply Nat.eqb_neq).
    replace (T =? 1) with false by (symmetry; now apply Nat.eqb_neq).
    reflexivity. }
  rewrite Hb. reflexivity.
Qed.

(** X5: a float mask whose number of frames differs from that of the
    observation (and neither is one) makes the call raise [ValueError], but
    only after the mask has been normalized: the caller's array is changed
    although no PSD matrix is returned. *)
Theorem psd_frames_mismatch (observation : ndarray C) (r : mref) (h : heap)
  (b : list nat) (D T T' : nat) :
  shape observation = b ++ [D; T] ->
  shape (view r h) = b ++ [T'] ->
  T' <> T -> T' <> 1 -> T <> 1 ->
  exists M,
    normalized (view r h) (-1) = Ok M
    /\ get_power_spectral_density_matrix observation (Some (MaskFloat r)) (-2) (-2) (-1) h
       = (Raise (ValueError "operands could not be broadcast together"), write r M h)
    /\ arr_eq (view r (write r M h)) M
    /\ forall bi t, in_shape b bi ->
         data M (bi ++ [t])
         = (data (view r h) (bi ++ [t])
            / Rmax (Rsum T' (fun t' => data (view r h) (bi ++ [t']))) 1e-10)%R.
Proof.
  intros Hs Hms Hne H1 H1'.
  destruct (transpose_default observation b D T Hs) as (X & HX & HsX).
  assert (Hnd : ndim observation = length b + 2)
    by (unfold ndim; rewrite Hs, length_app; simpl; lia).
  destruct (normalized_last (view r h) b T' Hms) as (M & HM & HsM & HdM).
  exists M. split; [exact HM |]. split.
  - rewrite get_psd_masked. cbv zeta.
    replace (ndim observation =? 0) with false by (symmetry; apply Nat.eqb_neq; lia).
    rewrite HX. cbn [mask_cell].
    change (-1)%Z with (- Z.of_nat 1)%Z at 1. rewrite to_negative_default by lia.
    cbn [Z.of_nat Pos.of_succ_nat Z.opp]. rewrite HM.
    now rewrite (weighted_psd_mismatch _ X M b D T T').
  - split; [apply view_write | exact HdM].
Qed.

Lemma length_filter_remove (p : Z -> bool) (d : Z) (l : list Z) :
  (forall z, p z = negb (Z.eqb z d)) ->
  NoDup l -> In d l -> length (filter p l) = length l - 1.
Proof.
  intros Hp. induction l as [| x l IH]; intros Hnd Hin; [destruct Hin |].
  inversion Hnd as [| ? ? Hx Hnd']; subst. cbn [filter]. rewrite Hp.
  destruct (Z.eqb_spec x d) as [-> | Hne]; cbn [negb length].
  - replace (S (length l) - 1) with (length l) by lia. f_equal.
    apply forallb_filter_id. apply forallb_forall. intros z Hz. rewrite Hp.
    destruct (Z.eqb_spec z d) as [-> | _]; [contradiction | reflexivity].
  - destruct Hin as [-> | Hin]; [contradiction |].
    rewrite IH by assumption.
    destruct l; [destruct Hin | simpl; lia].
Qed.

Lemma NoDup_map_injective {A B} (f : A -> B) (l : list A) :
  (forall x y, f x = f y -> x = y) -> NoDup l -> NoDup (map f l).
Proof.
  intros Hf. induction 1 as [| x l Hx Hnd IH]; cbn [map]; constructor; [| exact IH].
  intros Hin. apply in_map_iff in Hin as (y & Hy & Hin).
  apply Hf in Hy. now subst y.
Qed.

Lemma range_neg_NoDup (n : nat) : NoDup (range_neg n).
Proof.
  unfold range_neg. apply NoDup_map_injective; [| apply seq_NoDup].
  intros i j H. lia.
Qed.

Lemma range_neg_In (n : nat) (d : Z) :
  (- Z.of_nat n <= d <= -1)%Z -> In d (range_neg n).
Proof.
  intros H. unfold range_neg. apply in_map_iff.
  exists (Z.to_nat (d + Z.of_nat n)). split; [lia |]. apply in_seq. lia.
Qed.

Lemma transpose_equal_axes (observation : ndarray C) (d : Z) :
  ndim observation <> 0 ->
  transpose observation
            (axes_to_end (ndim observation) (to_negative (ndim observation) d)
                         (to_negative (ndim observation) d))
  = Raise (ValueError "axes don't match array").
Proof.
  intros Hn. unfold transpose, axes_to_end.
  rewrite length_app, (length_filter_remove _ (to_negative (ndim observation) d));
    [| intros z; cbn [existsb]; now rewrite orb_false_r, orb_diag
     | apply range_neg_NoDup | apply range_neg_In; now apply to_negative_range].
  unfold range_neg. rewrite length_map, length_seq. cbn [length].
  replace (ndim observation - 1 + 2 =? ndim observation) with false
    by (symmetry; apply Nat.eqb_neq; lia).
  reflexivity.
Qed.

(** X6: when [sensor_dim] and [time_dim] name the same axis of the
    observation, the call raises [ValueError] whatever the mask is, and no
    array of the store has changed. *)
Theorem psd_rejects_equal_axes (observation : ndarray C) (mask : option mask_t)
  (sensor_dim source_dim time_dim : Z) (h : heap) :
  ndim observation <> 0 ->
  (sensor_dim mod Z.of_nat (ndim observation)
   = time_dim mod Z.of_nat (ndim observation))%Z ->
  get_power_spectral_density_matrix observation mask sensor_dim source_dim time_dim h
  = (Raise (ValueError "axes don't match array"), h).
Proof.
  intros Hn Heq.
  assert (Hd : to_negative (ndim observation) sensor_dim
               = to_negative (ndim observation) time_dim)
    by (unfold to_negative; now rewrite Heq).
  destruct mask as [mask |].
  - rewrite get_psd_masked. cbv zeta.
    replace (ndim observation =? 0) with false by (symmetry; now apply Nat.eqb_neq).
    rewrite Hd, transpose_equal_axes by assumption. reflexivity.
  - unfold get_power_spectral_density_matrix.
    replace (ndim observation =? 0) with false by (symmetry; now apply Nat.eqb_neq).
    rewrite Hd, transpose_equal_axes by assumption. reflexivity.
Qed.

(** ** The PCA beamforming vector *)

Lemma size_of_cons (n : nat) (s : list nat) : size_of (n :: s) = n * size_of s.
Proof. reflexivity. Qed.

Lemma ravel_lt (s bi : list nat) : in_shape s bi -> ravel s bi < size_of s.
Proof.
  unfold in_shape. induction 1 as [| i n bi' s' Hi Hb IH]; [simpl; lia |].
  cbn [ravel]. rewrite size_of_cons. nia.
Qed.

(** Flattening the leading axes and restoring them is the identity on the
    indices of the shape. *)
Lemma unravel_ravel (s bi : list nat) : in_shape s bi -> unravel s (ravel s bi) = bi.
Proof.
  unfold in_shape. induction 1 as [| i n bi' s' Hi Hb IH]; [reflexivity |].
  pose proof (ravel_lt s' bi' Hb) as Hr.
  cbn [ravel unravel].
  assert (Hdiv : (i * size_of s' + ravel s' bi') / size_of s' = i).
  { symmetry. apply (Nat.div_unique _ _ _ (ravel s' bi')); [assumption | lia]. }
  assert (Hmod : (i * size_of s' + ravel s' bi') mod size_of s' = ravel s' bi').
  { symmetry. apply (Nat.mod_unique _ _ i); [assumption | lia]. }
  rewrite Hdiv, Hmod, IH, Nat.mod_small by assumption. reflexivity.
Qed.

Lemma unravel_in_shape (s : list nat) (k : nat) : k < size_of s -> in_shape s (unravel s k).
Proof.
  unfold in_shape. revert k. induction s as [| n s IH]; intros k Hk; [constructor |].
  rewrite size_of_cons in Hk. cbn [unravel].
  assert (Hn : n <> 0) by (intros ->; simpl in Hk; lia).
  assert (Hs : size_of s <> 0) by (intros E; rewrite E in Hk; lia).
  constructor.
  - now apply Nat.mod_upper_bound.
  - apply IH. now apply Nat.mod_upper_bound.
Qed.

Section Pca.
Variable np_eigh : matrix -> result (list R * matrix).

Lemma eigh_stack_ok (a : ndarray C) (batch : list nat) (m count : nat)
  (es : list (list R * matrix)) :
  eigh_stack np_eigh a batch m count = Ok es ->
  length es = count
  /\ forall k, k < count ->
       np_eigh (matrix_at a (unravel batch k) m m) = Ok (nth k es ([], [])).
Proof.
  revert es. induction count as [| c IH]; intros es; cbn [eigh_stack].
  - intros H. inversion H. split; [reflexivity |]. intros k Hk. lia.
  - intros H. apply rbind_ok in H as (rest & Hrest & H).
    apply rbind_ok in H as (e & He & H). inversion H; subst es. clear H.
    destruct (IH rest Hrest) as [Hlen Hk].
    split; [rewrite length_app; simpl; lia |].
    intros k Hlt. destruct (Nat.eq_dec k c) as [-> | Hne].
    + rewrite <- Hlen, nth_middle. now rewrite Hlen.
    + rewrite app_nth1 by lia. apply Hk. lia.
Qed.

Lemma eigh_stack_returns (a : ndarray C) (batch : list nat) (m count : nat) :
  (forall k, k < count ->
     exists e, np_eigh (matrix_at a (unravel batch k) m m) = Ok e /\ fst e <> []) ->
  exists es,
    eigh_stack np_eigh a batch m count = Ok es
    /\ Forall (fun e => fst e <> []) es.
Proof.
  induction count as [| c IH]; intros H; cbn [eigh_stack].
  - exists []. split; [reflexivity | constructor].
  - destruct IH as (rest & -> & Hrest); [intros k Hk; apply H; lia |].
    destruct (H c ltac:(lia)) as (e & -> & He). cbn [rbind].
    eexists. split; [reflexivity |]. apply Forall_app. split; [assumption |].
    constructor; [assumption | constructor].
Qed.

Lemma principals_ok (es : list (list R * matrix)) (vs : list (list C)) :
  principals es = Ok vs ->
  length vs = length es
  /\ forall k, k < length es -> principal (nth k es ([], [])) = Ok (nth k vs []).
Proof.
  revert vs. induction es as [| e es IH]; intros vs; cbn [principals].
  - intros H. inversion H. split; [reflexivity |]. intros k Hk. simpl in Hk. lia.
  - intros H. apply rbind_ok in H as (v & Hv & H).
    apply rbind_ok in H as (vs' & Hvs & H). inversion H; subst vs. clear H.
    destruct (IH vs' Hvs) as [Hlen Hk]. split; [simpl; now rewrite Hlen |].
    intros k Hlt. destruct k as [| k]; [exact Hv |]. cbn [nth]. apply Hk.
    simpl in Hlt. lia.
Qed.

Lemma principals_returns (es : list (list R * matrix)) :
  Forall (fun e => fst e <> []) es -> exists vs, principals es = Ok vs.
Proof.
  induction 1 as [| e es He _ IH]; cbn [principals]; [now exists [] |].
  destruct IH as (vs & ->). unfold principal, argmax, argmax_by.
  destruct (fst e) as [| x l]; [contradiction |]. cbn [rbind]. eexists. reflexivity.
Qed.

(** The entries of the PCA vector. *)
Lemma pca_entries (target W : ndarray C) (b : list nat) (D D' : nat) :
  shape target = b ++ [D; D'] ->
  get_pca_vector np_eigh target = Ok W ->
  D' = D
  /\ shape W = b ++ [D]
  /\ forall bi, in_shape b bi ->
       exists vals vecs j,
         np_eigh (matrix_at target bi D D) = Ok (vals, vecs)
         /\ argmax vals = Ok j
         /\ forall d, data W (bi ++ [d]) = nth d (column vecs j) C0.
Proof.
  intros Hs. unfold get_pca_vector. rewrite Hs, unsnoc2_app.
  destruct (negb (D * D' =? 0)); [| discriminate].
  destruct (Nat.eqb_spec D D') as [<- | _]; [| discriminate].
  intros H. apply rbind_ok in H as (es & Hes & H).
  apply rbind_ok in H as (vs & Hvs & H). inversion H; subst W. clear H.
  destruct (eigh_stack_ok _ _ _ _ _ Hes) as [Hlen Hk].
  destruct (principals_ok _ _ Hvs) as [Hlen' Hk'].
  split; [reflexivity |]. split; [reflexivity |].
  intros bi Hbi.
  pose proof (ravel_lt b bi Hbi) as Hlt.
  specialize (Hk (ravel b bi) Hlt). rewrite unravel_ravel in Hk by assumption.
  specialize (Hk' (ravel b bi) ltac:(lia)).
  destruct (nth (ravel b bi) es ([], [])) as [vals vecs].
  unfold principal in Hk'. cbn [fst snd] in Hk'.
  destruct (argmax vals) as [j |] eqn:Hj; [| discriminate].
  cbn [rbind] in Hk'. inversion Hk' as [Hcol].
  exists vals, vecs, j. split; [exact Hk |]. split; [exact Hj |].
  intros d. cbn [data]. now rewrite unsnoc_app, Hcol.
Qed.

(** X7: when [get_pca_vector] returns for a PSD matrix of shape
    (..., sensors, sensors), the result has shape (..., sensors), and at
    every leading index it holds the column of the eigenvector matrix that
    [numpy.linalg.eigh] returns for the matrix at that index, taken at the
    argmax of the eigenvalues: merging the leading axes into one and
    restoring them afterwards loses no entry. *)
Theorem pca_vector_entries (target W : ndarray C) (b : list nat) (D D' : nat) :
  shape target = b ++ [D; D'] ->
  get_pca_vector np_eigh target = Ok W ->
  D' = D
  /\ shape W = b ++ [D]
  /\ forall bi, in_shape b bi ->
       exists vals vecs j,
         np_eigh (matrix_at target bi D D) = Ok (vals, vecs)
         /\ argmax vals = Ok j
         /\ forall d, data W (bi ++ [d]) = nth d (column vecs j) C0.
Proof.
  intros Hs HW. exact (pca_entries target W b D D' Hs HW).
Qed.

(** The PCA vector exists when every decomposition succeeds. *)
Lemma pca_returns (target : ndarray C) (b : list nat) (D : nat) :
  shape target = b ++ [D; D] ->
  0 < D ->
  (forall bi, in_shape b bi ->
     exists vals vecs, np_eigh (matrix_at target bi D D) = Ok (vals, vecs) /\ vals <> []) ->
  exists W, get_pca_vector np_eigh target = Ok W /\ shape W = b ++ [D].
Proof.
  intros Hs HD Heigh. unfold get_pca_vector. rewrite Hs, unsnoc2_app.
  replace (D * D =? 0) with false by (symmetry; apply Nat.eqb_neq; nia).
  rewrite Nat.eqb_refl. cbn [negb].
  destruct (eigh_stack_returns target b D (size_of b)) as (es & Hes & Hne).
  { intros k Hk. destruct (Heigh _ (unravel_in_shape b k Hk)) as (vals & vecs & He & Hv).
    exists (vals, vecs). split; assumption. }
  rewrite Hes. cbn [rbind].
  destruct (principals_returns es Hne) as (vs & Hvs). rewrite Hvs. cbn [rbind].
  eexists. split; reflexivity.
Qed.

(** X8: [get_pca_vector] returns for a PSD matrix of shape
    (..., sensors, sensors) with at least one sensor as soon as
    [numpy.linalg.eigh] succeeds, with at least one eigenvalue, on the
    matrix at every leading index. *)
Theorem pca_vector_returns (target : ndarray C) (b : list nat) (D : nat) :
  shape target = b ++ [D; D] ->
  0 < D ->
  (forall bi, in_shape b bi ->
     exists vals vecs, np_eigh (matrix_at target bi D D) = Ok (vals, vecs) /\ vals <> []) ->
  exists W, get_pca_vector np_eigh target = Ok W /\ shape W = b ++ [D].
Proof.
  intros Hs HD Heigh. exact (pca_returns target b D Hs HD Heigh).
Qed.

End Pca.

(** ** The MVDR vector applied to a source seen through the ATF *)

Lemma repeat_snoc {A} (x : A) (k : nat) : repeat x (S k) = repeat x k ++ [x].
Proof. induction k as [| k IH]; [reflexivity |]. cbn [repeat app] in *. now rewrite <- IH. Qed.

(** Axes of length one in front of a shape broadcast to that shape. *)
Lemma bshape_ones (b : list nat) : bshape (repeat 1 (length b)) b = Some b.
Proof.
  induction b as [| x b IH] using rev_ind; [reflexivity |].
  rewrite length_app, Nat.add_comm. cbn [length Nat.add].
  rewrite repeat_snoc, bshape_app, bdim_1_l, IH. reflexivity.
Qed.

Lemma expand_front_shape (k : nat) (a : ndarray C) :
  exists e,
    expand_front k a = Ok e
    /\ shape e = repeat 1 k ++ shape a
    /\ forall idx, data e idx = data a (skipn k idx).
Proof.
  revert a. induction k as [| k IH]; intros a; cbn [expand_front].
  - exists a. split; [reflexivity |]. split; [reflexivity |]. intros idx. reflexivity.
  - rewrite expand_dims_0. cbn [rbind].
    destruct (IH (mkarr (1 :: shape a) (fun idx => data a (skipn 1 idx))))
      as (e & He & Hs & Hd).
    exists e. split; [exact He |]. split.
    + rewrite Hs. cbn [shape]. rewrite repeat_snoc, <- app_assoc. reflexivity.
    + intros idx. rewrite Hd. cbn [data]. rewrite skipn_skipn. reflexivity.
Qed.

(** The shape of the symmetrized noise PSD for the documented shapes. *)
Lemma mvdr_noise_shape (atf noise Nh : ndarray C) (b : list nat) (F D : nat) :
  shape atf = b ++ [F; D] -> shape noise = [F; D; D] ->
  mvdr_noise atf noise = Ok Nh ->
  shape Nh = (repeat 1 (length b) ++ [F]) ++ [D; D].
Proof.
  intros Ha Hn. unfold mvdr_noise.
  replace (ndim atf + 1 - ndim noise) with (length b)
    by (unfold ndim; rewrite Ha, Hn, length_app; simpl; lia).
  destruct (expand_front_shape (length b) noise) as (e & He & Hs & _).
  rewrite He. cbn [rbind]. unfold swapaxes_last.
  assert (Hs' : shape e = (repeat 1 (length b) ++ [F]) ++ [D; D])
    by (rewrite Hs, Hn, <- app_assoc; reflexivity).
  rewrite Hs', unsnoc2_app. cbn [rbind]. unfold bmap2. cbn [amap shape].
  rewrite Hs', bshape_refl. cbn [rbind]. intros H. inversion H. reflexivity.
Qed.

Section Mvdr.
Variable gesv : matrix -> list C -> option (list C).

(** The shapes of the intermediate arrays of [get_mvdr_vector], and the
    entries of the returned vector, for an ATF vector of shape
    (..., bins, sensors) and a noise PSD of shape (bins, sensors, sensors). *)
Lemma mvdr_vector_entries (atf noise numerator denominator : ndarray C)
  (b : list nat) (F D : nat) :
  shape atf = b ++ [F; D] -> shape noise = [F; D; D] ->
  mvdr_numerator gesv atf noise = Ok numerator ->
  mvdr_denominator atf numerator = Ok denominator ->
  shape numerator = (b ++ [F]) ++ [D]
  /\ shape denominator = b ++ [F]
  /\ (forall bi, in_shape (b ++ [F]) bi ->
        data denominator bi
        = Csum D (fun d => Cconj (data atf (bi ++ [d])) * data numerator (bi ++ [d]))%C)
  /\ exists w,
       get_mvdr_vector gesv atf noise = Ok w
       /\ shape w = (b ++ [F]) ++ [D]
       /\ forall bi d, in_shape (b ++ [F]) bi -> d < D ->
            data w (bi ++ [d]) = (data numerator (bi ++ [d]) / data denominator bi)%C.
Proof.
  intros Ha Hn Hnum Hden.
  assert (Ha' : shape atf = (b ++ [F]) ++ [D]) by (rewrite Ha, <- app_assoc; reflexivity).
  pose proof Hnum as Hnum'. unfold mvdr_numerator in Hnum'.
  apply rbind_ok in Hnum' as (Nh & HNh & Hsolve).
  pose proof (mvdr_noise_shape atf noise Nh b F D Ha Hn HNh) as HsNh.
  destruct (solve_vectors_spec gesv Nh atf numerator (repeat 1 (length b) ++ [F]) (b ++ [F]) D
                               HsNh Ha')
    as (s & Hs & HsX & _); [now rewrite !length_app, repeat_length | exact Hsolve |].
  rewrite bshape_app, bdim_refl, bshape_ones in Hs. inversion Hs; subst s. clear Hs.
  assert (Hidx : forall bi d, in_shape (b ++ [F]) bi -> d < D ->
                   bidx ((b ++ [F]) ++ [D]) (bi ++ [d]) = bi ++ [d]).
  { intros bi d Hbi Hd. apply bidx_id. now apply in_shape_snoc. }
  pose proof Hden as Hden'. unfold mvdr_denominator in Hden'.
  apply einsum_d_d_inv in Hden' as (ba & da & bb & db & s & D0 & Hsa & Hsb & Hs & HD & Hd).
  cbn [amap shape] in Hsa. rewrite Ha' in Hsa. rewrite HsX in Hsb.
  apply app_inj_1 in Hsa as [<- <-]. apply app_inj_1 in Hsb as [<- <-].
  rewrite bshape_refl in Hs. rewrite bdim_refl in HD.
  inversion Hs; subst s. inversion HD; subst D0. clear Hs HD.
  assert (Hsd : shape denominator = b ++ [F]) by now rewrite Hd.
  split; [exact HsX |]. split; [exact Hsd |]. split.
  { intros bi Hbi. rewrite Hd. cbn [data]. apply Csum_ext. intros d Hdlt.
    unfold bget, amap. cbn [shape data]. rewrite Ha', HsX, !Hidx by assumption.
    reflexivity. }
  destruct (divide_by_denominator numerator denominator (b ++ [F]) D HsX)
    as (w & Hw & Hsw & Hdw); [rewrite Hsd; apply bshape_refl |].
  exists w. split.
  { unfold get_mvdr_vector. rewrite Hnum. cbn [rbind]. rewrite Hden. cbn [rbind].
    exact Hw. }
  split; [now rewrite Hsw, Hsd |].
  intros bi d Hbi Hdlt. rewrite Hdw by now rewrite Hsd.
  unfold bget. now rewrite HsX, Hidx.
Qed.

(** X9: the MVDR beamformer passes the source it is steered to.  For an ATF
    vector of shape (..., bins, sensors), a noise PSD of shape
    (bins, sensors, sensors) on which the solve succeeds with a denominator
    that is nowhere zero, and a mix that is the ATF times a source signal,
    [mix[..., f, d, t] = atf[..., f, d] * s[..., f, t]], applying the MVDR
    vector to the mix gives the source signal back. *)
Theorem mvdr_passes_source (atf noise mix numerator denominator : ndarray C)
  (src : list nat -> nat -> C) (b : list nat) (F D T : nat) :
  shape atf = b ++ [F; D] -> shape noise = [F; D; D] -> shape mix = b ++ [F; D; T] ->
  mvdr_numerator gesv atf noise = Ok numerator ->
  mvdr_denominator atf numerator = Ok denominator ->
  (forall bi, in_shape (shape denominator) bi -> data denominator bi <> C0) ->
  (forall bi d t, in_shape (b ++ [F]) bi -> d < D -> t < T ->
     data mix (bi ++ [d; t]) = (data atf (bi ++ [d]) * src bi t)%C) ->
  exists w out,
    get_mvdr_vector gesv atf noise = Ok w
    /\ apply_beamforming_vector w mix = Ok out
    /\ shape out = b ++ [F; T]
    /\ forall bi t, in_shape (b ++ [F]) bi -> t < T -> data out (bi ++ [t]) = src bi t.
Proof.
  intros Ha Hn Hm Hnum Hden Hnz Hmix.
  destruct (mvdr_vector_entries atf noise numerator denominator b F D Ha Hn Hnum Hden)
    as (HsX & Hsd & Hdd & w & Hw & Hsw & Hdw).
  assert (Hm' : shape mix = (b ++ [F]) ++ [D; T]) by (rewrite Hm, <- app_assoc; reflexivity).
  exists w. unfold apply_beamforming_vector, einsum_a_at. cbn [amap shape].
  rewrite Hsw, Hm', unsnoc_app, unsnoc2_app, bshape_refl, bdim_refl.
  eexists. split; [exact Hw |]. split; [reflexivity |].
  split; [cbn [shape]; now rewrite <- app_assoc |].
  intros bi t Hbi Ht. cbn [data]. rewrite unsnoc_app.
  assert (Hone : Csum D (fun d => Cconj (data atf (bi ++ [d])) * data w (bi ++ [d]))%C = C1).
  { rewrite (Csum_ext D _ (fun d => (Cconj (data atf (bi ++ [d])) * data numerator (bi ++ [d]))
                                    * Cinv (data denominator bi))%C).
    - rewrite <- Csum_mult_r, <- Hdd by assumption.
      apply Cinv_r. apply Hnz. now rewrite Hsd.
    - intros d Hd. rewrite Hdw by assumption. unfold Cdiv. apply Cmult_assoc. }
  rewrite (Csum_ext D _ (fun a => Cconj (Cconj (data atf (bi ++ [a])) * data w (bi ++ [a]))
                                  * src bi t)%C).
  - rewrite <- Csum_mult_r, <- Csum_conj, Hone.
    unfold C1. rewrite Cconj_RtoC. apply Cmult_1_l.
  - intros a Hlt. unfold bget, amap. cbn [shape data]. rewrite Hsw, Hm'.
    rewrite (bidx_id ((b ++ [F]) ++ [D]) (bi ++ [a])) by now apply in_shape_snoc.
    rewrite (bidx_id ((b ++ [F]) ++ [D; T]) (bi ++ [a; t])).
    + rewrite Hmix by assumption. rewrite Cconj_mult, Cconj_conj.
      rewrite Cmult_assoc. f_equal. apply Cmult_comm.
    + apply in_shape_app; [now apply in_shape_length |].
      split; [assumption | repeat constructor; assumption].
Qed.

End Mvdr.

(** ** When the MVDR solve fails *)

Lemma forallb_false_witness {A} (f : A -> bool) (l : list A) :
  forallb f l = false -> exists x, In x l /\ f x = false.
Proof.
  induction l as [| x l IH]; [discriminate |]. cbn [forallb].
  destruct (f x) eqn:E.
  - intros H. destruct (IH H) as (y & Hy & Hf). exists y. split; [now right | exact Hf].
  - intros _. exists x. split; [now left | exact E].
Qed.

Lemma skipn_app_length {A} (k : nat) (l r : list A) :
  length l = k -> skipn k (l ++ r) = r.
Proof. intros <-. apply skipn_length_app. Qed.

(** The matrix that [get_mvdr_vector] solves with at bin [f] is the
    Hermitian part of the noise PSD of that bin, at every leading index. *)
Lemma mvdr_noise_matrix (atf noise Nh : ndarray C) (b bi : list nat) (F D f : nat) :
  shape atf = b ++ [F; D] -> shape noise = [F; D; D] ->
  mvdr_noise atf noise = Ok Nh ->
  in_shape (repeat 1 (length b)) bi -> f < F ->
  matrix_at Nh (bi ++ [f]) D D = hermitian_part noise f D.
Proof.
  intros Ha Hn HNh Hbi Hf. unfold mvdr_noise in HNh.
  replace (ndim atf + 1 - ndim noise) with (length b) in HNh
    by (unfold ndim; rewrite Ha, Hn, length_app; simpl; lia).
  destruct (expand_front_shape (length b) noise) as (e & He & Hs & Hd).
  rewrite He in HNh. cbn [rbind] in HNh. unfold swapaxes_last in HNh.
  assert (Hs' : shape e = (repeat 1 (length b) ++ [F]) ++ [D; D])
    by (rewrite Hs, Hn, <- app_assoc; reflexivity).
  rewrite Hs', unsnoc2_app in HNh. cbn [rbind] in HNh. unfold bmap2 in HNh.
  cbn [amap shape] in HNh. rewrite Hs', bshape_refl in HNh. cbn [rbind] in HNh.
  inversion HNh; subst Nh. clear HNh.
  assert (Hl : length bi = length b).
  { apply in_shape_length in Hbi. now rewrite repeat_length in Hbi. }
  unfold matrix_at, hermitian_part.
  apply map_ext_in. intros i Hi. apply map_ext_in. intros j Hj.
  apply in_seq in Hi. apply in_seq in Hj.
  cbn [amap data]. unfold bget, amap. cbn [shape data]. rewrite Hs'.
  assert (Hin : forall i' j', i' < D -> j' < D ->
                  in_shape ((repeat 1 (length b) ++ [F]) ++ [D; D])
                           ((bi ++ [f]) ++ [i'; j'])).
  { intros i' j' Hi' Hj'. apply in_shape_app.
    - rewrite !length_app, repeat_length, Hl. reflexivity.
    - split; [now apply in_shape_snoc | repeat constructor; assumption]. }
  rewrite !bidx_id by (apply Hin; lia). rewrite unsnoc2_app.
  rewrite !Hd. rewrite <- !app_assoc.
  rewrite !(skipn_app_length (length b) bi) by assumption. reflexivity.
Qed.

Lemma rev_repeat_same {A} (x : A) (k : nat) : rev (repeat x k) = repeat x k.
Proof.
  induction k as [| k IH]; [reflexivity |].
  rewrite repeat_snoc at 2. cbn [repeat rev]. now rewrite IH.
Qed.

Lemma clamp_ones (k : nat) (idx : list nat) :
  length idx = k -> clamp (repeat 1 k) idx = repeat 0 k.
Proof.
  revert idx. induction k as [| k IH]; intros idx H; [reflexivity |].
  destruct idx as [| i idx]; [discriminate |]. cbn [repeat clamp].
  rewrite IH by (simpl in H; lia). reflexivity.
Qed.

(** Axes of length one are read at position 0. *)
Lemma bidx_ones (k : nat) (idx : list nat) :
  length idx = k -> bidx (repeat 1 k) idx = repeat 0 k.
Proof.
  intros H. unfold bidx. rewrite rev_repeat_same, clamp_ones by now rewrite length_rev.
  apply rev_repeat_same.
Qed.

Lemma in_shape_zeros (k : nat) : in_shape (repeat 1 k) (repeat 0 k).
Proof. unfold in_shape. induction k; cbn [repeat]; constructor; [lia | assumption]. Qed.

Lemma square_hermitian_part (a : ndarray C) (f D : nat) : square D (hermitian_part a f D).
Proof.
  unfold square, hermitian_part. split; [now rewrite length_map, length_seq |].
  apply Forall_forall. intros row Hrow. apply in_map_iff in Hrow as (i & <- & _).
  now rewrite length_map, length_seq.
Qed.

Section MvdrFailure.
Variable gesv : matrix -> list C -> option (list C).
Hypothesis gesv_is_exact : gesv_exact gesv.

Lemma solve_vectors_raises (a b : ndarray C) (ba bb s bi : list nat) (m : nat) :
  shape a = ba ++ [m; m] -> shape b = bb ++ [m] -> length bb = length ba ->
  bshape ba bb = Some s ->
  in_shape s bi ->
  gesv (matrix_at a (bidx ba bi) m m) (vector_at b (bidx bb bi) m) = None ->
  solve gesv a b = Raise LinAlgError.
Proof.
  intros Ha Hb Hlen Hs Hbi Hnone. unfold solve. rewrite Ha, unsnoc2_app, Nat.eqb_refl.
  replace (ndim b =? ndim a - 1) with true
    by (symmetry; apply Nat.eqb_eq; unfold ndim; rewrite Ha, Hb, !length_app; simpl; lia).
  unfold solve_vectors. rewrite Hb, unsnoc_app, Nat.eqb_refl, Hs.
  replace (forallb _ (indices s)) with false; [reflexivity |].
  symmetry. apply not_true_is_false. intros Hall.
  rewrite forallb_forall in Hall. specialize (Hall bi (indices_in s bi Hbi)).
  rewrite Hnone in Hall. discriminate.
Qed.

(** X10: for an ATF vector of shape (..., bins, sensors) with at least one
    leading index and a noise PSD of shape (bins, sensors, sensors), a
    driver that fails exactly on singular matrices makes [get_mvdr_vector]
    raise [LinAlgError] if and only if the Hermitian part of the noise PSD
    is singular at some bin, and return a vector of the shape of the ATF
    vector if and only if it is nonsingular at every bin. *)
Theorem mvdr_raises_iff_singular (atf noise : ndarray C) (b bi0 : list nat) (F D : nat) :
  shape atf = b ++ [F; D] -> shape noise = [F; D; D] ->
  in_shape b bi0 ->
  (get_mvdr_vector gesv atf noise = Raise LinAlgError
   <-> exists f, f < F /\ ~ nonsingular D (hermitian_part noise f D))
  /\ ((exists w, get_mvdr_vector gesv atf noise = Ok w /\ shape w = b ++ [F; D])
      <-> forall f, f < F -> nonsingular D (hermitian_part noise f D)).
Proof.
  intros Ha Hn Hb0.
  assert (Ha' : shape atf = (b ++ [F]) ++ [D]) by (rewrite Ha, <- app_assoc; reflexivity).
  destruct (expand_front_shape (length b) noise) as (e & He & Hse & _).
  assert (HNh : exists Nh, mvdr_noise atf noise = Ok Nh).
  { unfold mvdr_noise.
    replace (ndim atf + 1 - ndim noise) with (length b)
      by (unfold ndim; rewrite Ha, Hn, length_app; simpl; lia).
    rewrite He. cbn [rbind]. unfold swapaxes_last.
    assert (Hs' : shape e = (repeat 1 (length b) ++ [F]) ++ [D; D])
      by (rewrite Hse, Hn, <- app_assoc; reflexivity).
    rewrite Hs', unsnoc2_app. cbn [rbind]. unfold bmap2. cbn [amap shape].
    rewrite Hs', bshape_refl. cbn [rbind]. eexists. reflexivity. }
  destruct HNh as (Nh & HNh).
  pose proof (mvdr_noise_shape atf noise Nh b F D Ha Hn HNh) as HsNh.
  assert (Hbs : bshape (repeat 1 (length b) ++ [F]) (b ++ [F]) = Some (b ++ [F]))
    by now rewrite bshape_app, bdim_refl, bshape_ones.
  assert (Hlen : length (b ++ [F]) = length (repeat 1 (length b) ++ [F]))
    by now rewrite !length_app, repeat_length.
  set (sys := fun bi => gesv (matrix_at Nh (bidx (repeat 1 (length b) ++ [F]) bi) D D)
                             (vector_at atf (bidx (b ++ [F]) bi) D)).
  (* the system that is solved at a leading index *)
  assert (Hsys : forall bi f, in_shape b bi -> f < F ->
            sys (bi ++ [f]) = gesv (hermitian_part noise f D) (vector_at atf (bi ++ [f]) D)).
  { intros bi f Hbi Hf. unfold sys.
    rewrite bidx_app, (cl_lt F f Hf), bidx_ones by now apply in_shape_length.
    rewrite (mvdr_noise_matrix atf noise Nh b _ F D f Ha Hn HNh (in_shape_zeros _) Hf).
    rewrite (bidx_id (b ++ [F]) (bi ++ [f])) by now apply in_shape_snoc.
    reflexivity. }
  assert (Hexact : forall bi f,
            (exists x, gesv (hermitian_part noise f D) (vector_at atf (bi ++ [f]) D) = Some x)
            <-> nonsingular D (hermitian_part noise f D)).
  { intros bi f. apply gesv_is_exact; [apply square_hermitian_part | apply length_vector_at]. }
  destruct (forallb (fun bi => is_some (sys bi)) (indices (b ++ [F]))) eqn:Hall.
  - (* every system is solved *)
    assert (Hsome : forall bi, in_shape (b ++ [F]) bi -> exists sol, sys bi = Some sol).
    { intros bi Hbi. rewrite forallb_forall in Hall.
      specialize (Hall bi (indices_in _ _ Hbi)).
      destruct (sys bi) as [sol |]; [now exists sol | discriminate]. }
    destruct (solve_vectors_returns gesv Nh atf (repeat 1 (length b) ++ [F]) (b ++ [F])
                                    (b ++ [F]) D HsNh Ha' Hlen Hbs Hsome) as (X & HX).
    assert (Hnum : mvdr_numerator gesv atf noise = Ok X)
      by (unfold mvdr_numerator; rewrite HNh; exact HX).
    destruct (solve_vectors_spec gesv Nh atf X _ _ D HsNh Ha' Hlen HX) as (s & Hs & HsX & _).
    rewrite Hbs in Hs. inversion Hs; subst s. clear Hs.
    assert (Hden : exists den, mvdr_denominator atf X = Ok den).
    { unfold mvdr_denominator, einsum_d_d. cbn [amap shape].
      rewrite Ha', HsX, !unsnoc_app, bshape_refl, bdim_refl. eexists. reflexivity. }
    destruct Hden as (den & Hden).
    destruct (mvdr_vector_entries gesv atf noise X den b F D Ha Hn Hnum Hden)
      as (_ & _ & _ & w & Hw & Hsw & _).
    assert (Hns : forall f, f < F -> nonsingular D (hermitian_part noise f D)).
    { intros f Hf. apply (Hexact bi0 f). rewrite <- Hsys by assumption.
      apply Hsome. now apply in_shape_snoc. }
    split; split.
    + rewrite Hw. discriminate.
    + intros (f & Hf & Hsing). exfalso. apply Hsing. now apply Hns.
    + intros _. exact Hns.
    + intros _. exists w. split; [exact Hw |]. now rewrite Hsw, <- app_assoc.
  - (* one system is not *)
    apply forallb_false_witness in Hall as (bi & Hin & Hnone).
    apply indices_in_inv in Hin. pose proof Hin as Hin'.
    apply in_shape_app1_inv in Hin' as (bi' & f & -> & Hbi' & Hf).
    assert (Hnone' : sys (bi' ++ [f]) = None)
      by (destruct (sys (bi' ++ [f])); [discriminate | reflexivity]).
    assert (Hraise : get_mvdr_vector gesv atf noise = Raise LinAlgError).
    { unfold get_mvdr_vector, mvdr_numerator. rewrite HNh. cbn [rbind].
      rewrite (solve_vectors_raises Nh atf _ _ _ (bi' ++ [f]) D HsNh Ha' Hlen Hbs Hin Hnone').
      reflexivity. }
    assert (Hsing : ~ nonsingular D (hermitian_part noise f D)).
    { intros Hns. apply (Hexact bi' f) in Hns as (x & Hx).
      rewrite <- Hsys, Hnone' in Hx by assumption. discriminate. }
    split; split.
    + intros _. exists f. split; assumption.
    + intros _. exact Hraise.
    + intros (w & Hw & _). rewrite Hraise in Hw. discriminate.
    + intros Hns. exfalso. apply Hsing. now apply Hns.
Qed.

End MvdrFailure.

(** ** Blind analytic normalization *)

Lemma normalization_bin_value (vector noise : ndarray C) (F D f : nat) :
  shape vector = [F; D] -> shape noise = [F; D; D] -> f < F ->
  normalization_bin vector noise f = Ok (ban_gain D vector noise f).
Proof.
  intros Hv Hn Hf. apply Nat.ltb_lt in Hf.
  unfold normalization_bin, index0. rewrite Hv, Hn, Hf. cbn [rbind].
  unfold np_dot. cbn [amap shape unsnoc unsnoc2 rev app rbind].
  rewrite Nat.eqb_refl. cbn [shape unsnoc unsnoc2 rev app rbind].
  rewrite Nat.eqb_refl. cbn [shape unsnoc unsnoc2 rev app rbind].
  rewrite Nat.eqb_refl. cbn [shape unsnoc unsnoc2 rev app rbind].
  unfold to_scalar. cbn [amap shape size_of fold_right Nat.eqb Nat.mul ndim length repeat data].
  reflexivity.
Qed.

Lemma normalization_loop_value (vector noise : ndarray C) (F D count : nat) :
  shape vector = [F; D] -> shape noise = [F; D; D] -> count <= F ->
  normalization_loop vector noise count
  = Ok (map (ban_gain D vector noise) (seq 0 count)).
Proof.
  intros Hv Hn. induction count as [| c IH]; intros Hle; [reflexivity |].
  cbn [normalization_loop]. rewrite IH by lia. cbn [rbind].
  rewrite (normalization_bin_value vector noise F D c Hv Hn) by lia. cbn [rbind].
  now rewrite seq_S, map_app.
Qed.

(** The value of [blind_analytic_normalization]: every bin of the vector is
    multiplied by the gain of that bin. *)
Lemma ban_entries (vector noise : ndarray C) (F D : nat) :
  shape vector = [F; D] -> shape noise = [F; D; D] ->
  exists out,
    blind_analytic_normalization vector noise = Ok out
    /\ shape out = [F; D]
    /\ forall f d, f < F -> d < D ->
         data out [f; d] = (data vector [f; d] * RtoC (ban_gain D vector noise f))%C.
Proof.
  intros Hv Hn. unfold blind_analytic_normalization. rewrite Hv.
  rewrite (normalization_loop_value vector noise F D F Hv Hn) by lia. cbn [rbind].
  unfold bmap2. cbn [shape]. rewrite Hv.
  change [F; D] with ([F] ++ [D]). change [F; 1] with ([F] ++ [1]).
  rewrite bshape_app, bdim_1_r, bshape_refl.
  eexists. split; [reflexivity |]. split; [reflexivity |].
  intros f d Hf Hd. cbn [data]. unfold bget. cbn [shape data]. rewrite Hv.
  rewrite (bidx_id [F; D] [f; d]) by (repeat constructor; assumption).
  change ([F] ++ [1]) with [F; 1]. change ([f] ++ [d]) with [f; d].
  replace (bidx [F; 1] [f; d]) with [f; 0].
  - cbn [nth]. now rewrite nth_map_seq.
  - change [F; 1] with ([F] ++ [1]). change [f; d] with ([f] ++ [d]).
    rewrite bidx_app, cl_1. rewrite (bidx_id [F] [f]) by (repeat constructor; assumption).
    reflexivity.
Qed.

Lemma Cnorm2_nonneg (z : C) : (0 <= Cnorm2 z)%R.
Proof. unfold Cnorm2. nra. Qed.

Lemma Cmod_real_mult (c : R) (z : C) : (0 <= c)%R -> Cmod (RtoC c * z) = (c * Cmod z)%R.
Proof.
  intros Hc. unfold Cmod.
  replace (Cnorm2 (RtoC c * z)) with ((c * c) * Cnorm2 z)%R
    by (destruct z; unfold Cnorm2, Cmult, RtoC; cbn [fst snd]; ring).
  rewrite sqrt_mult by (try apply Cnorm2_nonneg; nra).
  now rewrite sqrt_square.
Qed.

Lemma Cmod_pos (z : C) : z <> C0 -> (0 < Cmod z)%R.
Proof. intros H. unfold Cmod. apply sqrt_lt_R0. now apply Cnorm2_pos. Qed.

Lemma real_gain_term (g : R) (a b c : C) :
  (Cconj (RtoC g * a) * b * (RtoC g * c))%C = (RtoC (g * g) * (Cconj a * b * c))%C.
Proof.
  destruct a, b, c. unfold Cmult, Cconj, RtoC. cbn [fst snd]. ceq; ring.
Qed.

(** A real gain [g] on bin [f] of the vector multiplies both quadratic
    forms by [g^2]. *)
Lemma ban_forms_gain (D : nat) (vector' vector noise : ndarray C) (f : nat) (g : R) :
  (forall d, d < D -> data vector' [f; d] = (RtoC g * data vector [f; d])%C) ->
  ban_numerator D vector' noise f = (RtoC (g * g) * ban_numerator D vector noise f)%C
  /\ ban_denominator D vector' noise f = (RtoC (g * g) * ban_denominator D vector noise f)%C.
Proof.
  intros Hg. unfold ban_numerator, ban_denominator. split.
  - rewrite Csum_mult_l. apply Csum_ext. intros k Hk.
    rewrite !Csum_mult_r, Csum_mult_l. apply Csum_ext. intros j Hj.
    rewrite !Csum_mult_r, Csum_mult_l. apply Csum_ext. intros i Hi.
    rewrite !Hg by assumption.
    generalize (data vector [f; i]) (data noise [f; i; j]) (data noise [f; j; k])
      (data vector [f; k]).
    intros a n1 n2 c. destruct a, n1, n2, c. unfold Cmult, Cconj, RtoC. cbn [fst snd].
    ceq; ring.
  - rewrite Csum_mult_l. apply Csum_ext. intros k Hk.
    rewrite !Csum_mult_r, Csum_mult_l. apply Csum_ext. intros i Hi.
    rewrite !Hg by assumption. apply real_gain_term.
Qed.

(** A real factor [c] on the matrix multiplies [v^H N N v] by [c^2] and
    [v^H N v] by [c]. *)
Lemma ban_forms_noise_scale (D : nat) (vector noise' noise : ndarray C) (f : nat) (c : R) :
  (forall i j, i < D -> j < D -> data noise' [f; i; j] = (RtoC c * data noise [f; i; j])%C) ->
  ban_numerator D vector noise' f = (RtoC (c * c) * ban_numerator D vector noise f)%C
  /\ ban_denominator D vector noise' f = (RtoC c * ban_denominator D vector noise f)%C.
Proof.
  intros Hc. unfold ban_numerator, ban_denominator. split.
  - rewrite Csum_mult_l. apply Csum_ext. intros k Hk.
    rewrite !Csum_mult_r, Csum_mult_l. apply Csum_ext. intros j Hj.
    rewrite !Csum_mult_r, Csum_mult_l. apply Csum_ext. intros i Hi.
    rewrite !Hc by assumption.
    generalize (data vector [f; i]) (data noise [f; i; j]) (data noise [f; j; k])
      (data vector [f; k]).
    intros a n1 n2 d. destruct a, n1, n2, d. unfold Cmult, Cconj, RtoC. cbn [fst snd].
    ceq; ring.
  - rewrite Csum_mult_l. apply Csum_ext. intros k Hk.
    rewrite !Csum_mult_r, Csum_mult_l. apply Csum_ext. intros i Hi.
    rewrite !Hc by assumption.
    generalize (data vector [f; i]) (data noise [f; i; k]) (data vector [f; k]).
    intros a n d. destruct a, n, d. unfold Cmult, Cconj, RtoC. cbn [fst snd]. ceq; ring.
Qed.

Lemma ban_gain_of_gain (D : nat) (vector' vector noise : ndarray C) (f : nat) (g : R) :
  (0 < g)%R ->
  (forall d, d < D -> data vector' [f; d] = (RtoC g * data vector [f; d])%C) ->
  ban_denominator D vector noise f <> C0 ->
  ban_gain D vector' noise f = (ban_gain D vector noise f / g)%R.
Proof.
  intros Hg Hv Hnz. unfold ban_gain.
  destruct (ban_forms_gain D vector' vector noise f g Hv) as [-> ->].
  rewrite !Cmod_real_mult by nra.
  rewrite sqrt_mult by (try (unfold Cmod; apply sqrt_pos); nra).
  rewrite sqrt_square by lra.
  pose proof (Cmod_pos _ Hnz). field. lra.
Qed.

Lemma ban_gain_of_noise_scale (D : nat) (vector noise' noise : ndarray C) (f : nat) (c : R) :
  (0 < c)%R ->
  (forall i j, i < D -> j < D -> data noise' [f; i; j] = (RtoC c * data noise [f; i; j])%C) ->
  ban_denominator D vector noise f <> C0 ->
  ban_gain D vector noise' f = ban_gain D vector noise f.
Proof.
  intros Hc Hn Hnz. unfold ban_gain.
  destruct (ban_forms_noise_scale D vector noise' noise f c Hn) as [-> ->].
  rewrite !Cmod_real_mult by nra.
  rewrite sqrt_mult by (try (unfold Cmod; apply sqrt_pos); nra).
  rewrite sqrt_square by lra.
  pose proof (Cmod_pos _ Hnz). field. lra.
Qed.

(** X11: blind analytic normalization removes a positive real gain that a
    bin of the vector carries.  For vectors of shape (bins, sensors) and a
    matrix of shape (bins, sensors, sensors) with [v^H N v] nonzero in
    every bin, the result for [v'] with [v'[f, :] = g_f * v[f, :]],
    [g_f > 0], is the result for [v]. *)
Theorem ban_removes_gain (vector' vector noise : ndarray C) (gain : nat -> R) (F D : nat) :
  shape vector = [F; D] -> shape vector' = [F; D] -> shape noise = [F; D; D] ->
  (forall f, f < F -> (0 < gain f)%R) ->
  (forall f d, f < F -> d < D ->
     data vector' [f; d] = (RtoC (gain f) * data vector [f; d])%C) ->
  (forall f, f < F -> ban_denominator D vector noise f <> C0) ->
  exists out out',
    blind_analytic_normalization vector noise = Ok out
    /\ blind_analytic_normalization vector' noise = Ok out'
    /\ arr_eq out' out.
Proof.
  intros Hv Hv' Hn Hg Hd Hnz.
  destruct (ban_entries vector noise F D Hv Hn) as (out & Hout & Hso & Hdo).
  destruct (ban_entries vector' noise F D Hv' Hn) as (out' & Hout' & Hso' & Hdo').
  exists out, out'. split; [exact Hout |]. split; [exact Hout' |].
  split; [congruence |]. intros idx Hidx. rewrite Hso' in Hidx.
  inversion Hidx as [| f ? idx1 ? Hf Hidx1]; subst.
  inversion Hidx1 as [| d ? idx2 ? Hdlt Hidx2]; subst. inversion Hidx2; subst.
  rewrite Hdo, Hdo', Hd by assumption.
  rewrite (ban_gain_of_gain D vector' vector noise f (gain f)); auto.
  specialize (Hg f Hf).
  replace (ban_gain D vector noise f / gain f)%R
    with (/ gain f * ban_gain D vector noise f)%R by (field; lra).
  rewrite RtoC_mult, !Cmult_assoc. f_equal.
  rewrite (Cmult_comm (RtoC (gain f))), <- Cmult_assoc, <- RtoC_mult.
  replace (gain f * / gain f)%R with 1%R by (field; lra). apply Cmult_1_r.
Qed.

(** X12: blind analytic normalization does not depend on the scale of the
    matrix: with [v^H N v] nonzero in every bin and [c > 0], the result for
    [c N] is the result for [N]. *)
Theorem ban_noise_scale_invariant (vector noise' noise : ndarray C) (c : R) (F D : nat) :
  shape vector = [F; D] -> shape noise = [F; D; D] -> shape noise' = [F; D; D] ->
  (0 < c)%R ->
  (forall f i j, f < F -> i < D -> j < D ->
     data noise' [f; i; j] = (RtoC c * data noise [f; i; j])%C) ->
  (forall f, f < F -> ban_denominator D vector noise f <> C0) ->
  exists out out',
    blind_analytic_normalization vector noise = Ok out
    /\ blind_analytic_normalization vector noise' = Ok out'
    /\ arr_eq out' out.
Proof.
  intros Hv Hn Hn' Hc Hd Hnz.
  destruct (ban_entries vector noise F D Hv Hn) as (out & Hout & Hso & Hdo).
  destruct (ban_entries vector noise' F D Hv Hn') as (out' & Hout' & Hso' & Hdo').
  exists out, out'. split; [exact Hout |]. split; [exact Hout' |].
  split; [congruence |]. intros idx Hidx. rewrite Hso' in Hidx.
  inversion Hidx as [| f ? idx1 ? Hf Hidx1]; subst.
  inversion Hidx1 as [| d ? idx2 ? Hdlt Hidx2]; subst. inversion Hidx2; subst.
  rewrite Hdo, Hdo' by assumption.
  rewrite (ban_gain_of_noise_scale D vector noise' noise f c); auto.
Qed.

(** X13: blind analytic normalization is idempotent: where [v^H N N v] and
    [v^H N v] are nonzero in every bin, normalizing the normalized vector
    again returns it unchanged. *)
Theorem ban_idempotent (vector noise : ndarray C) (F D : nat) :
  shape vector = [F; D] -> shape noise = [F; D; D] ->
  (forall f, f < F -> ban_numerator D vector noise f <> C0) ->
  (forall f, f < F -> ban_denominator D vector noise f <> C0) ->
  exists out out2,
    blind_analytic_normalization vector noise = Ok out
    /\ blind_analytic_normalization out noise = Ok out2
    /\ arr_eq out2 out.
Proof.
  intros Hv Hn Hx Hy.
  destruct (ban_entries vector noise F D Hv Hn) as (out & Hout & Hso & Hdo).
  destruct (ban_entries out noise F D Hso Hn) as (out2 & Hout2 & Hso2 & Hdo2).
  exists out, out2. split; [exact Hout |]. split; [exact Hout2 |].
  split; [congruence |]. intros idx Hidx. rewrite Hso2 in Hidx.
  inversion Hidx as [| f ? idx1 ? Hf Hidx1]; subst.
  inversion Hidx1 as [| d ? idx2 ? Hdlt Hidx2]; subst. inversion Hidx2; subst.
  assert (Hpos : (0 < ban_gain D vector noise f)%R).
  { unfold ban_gain. apply Rdiv_lt_0_compat; [| now apply Cmod_pos, Hy].
    apply sqrt_lt_R0. now apply Cmod_pos, Hx. }
  rewrite Hdo2 by assumption.
  rewrite (ban_gain_of_gain D out vector noise f (ban_gain D vector noise f) Hpos);
    [| intros d' Hd'; rewrite Hdo by assumption; apply Cmult_comm | now apply Hy].
  replace (ban_gain D vector noise f / ban_gain D vector noise f)%R with 1%R
    by (field; lra).
  apply Cmult_1_r.
Qed.

(** ** The wrappers and the store *)

Lemma unpack3_not_3d {A} (a : ndarray A) :
  ndim a <> 3 -> unpack3 a = Raise (ValueError "not enough or too many values to unpack").
Proof.
  unfold unpack3, ndim. destruct (shape a) as [| ? [| ? [| ? [| ? ?]]]]; simpl; intros H;
    try reflexivity. contradiction.
Qed.

Lemma ndim_transposeT {A} (a : ndarray A) : ndim (transposeT a) = ndim a.
Proof. unfold ndim, transposeT. cbn [shape]. apply length_rev. Qed.

Lemma upd_other (f : nat -> ndarray R) (l l' : nat) (a : ndarray R) :
  l' <> l -> upd f l a l' = f l'.
Proof. intros H. unfold upd. now rewrite (proj2 (Nat.eqb_neq l' l) H). Qed.

(** The complement of a mask is a new array: the arrays of the caller stay
    as they are. *)
Lemma complement_mask_fresh (m : mask_t) (h : heap) :
  exists a,
    complement_mask (Some m) h
    = (Ok (MaskFloat (mkref (next_loc h) false)),
       mkheap (upd (cells h) (next_loc h) a) (S (next_loc h))).
Proof.
  unfold complement_mask, bind, alloc, ret. destruct m as [a | r]; cbn [mask_values].
  - unfold ret. eexists. reflexivity.
  - unfold load. eexists. reflexivity.
Qed.

(** X14: a mix that is not three-dimensional makes each of the three
    wrappers raise [ValueError] when it unpacks the shape, whatever masks
    are given (at least one), and every array the caller holds is left as
    it was. *)
Theorem wrappers_reject_non_3d_mix
  (gesv : matrix -> list C -> option (list C))
  (np_eigh : matrix -> result (list R * matrix))
  (sp_eigh : matrix -> matrix -> result (list R * matrix))
  (sp_eig : matrix -> matrix -> result (list C * matrix))
  (mix : ndarray C) (noise_mask target_mask : option mask_t)
  (normalization : bool) (regularization : option R) (h : heap) :
  ndim mix <> 3 ->
  noise_mask <> None \/ target_mask <> None ->
  let unpack_error := ValueError "not enough or too many values to unpack" in
  (exists h',
      gev_wrapper_on_masks sp_eigh sp_eig mix noise_mask target_mask normalization h
      = (Raise unpack_error, h')
      /\ forall l, l < next_loc h -> cells h' l = cells h l)
  /\ (exists h',
         pca_wrapper_on_masks np_eigh mix noise_mask target_mask h = (Raise unpack_error, h')
         /\ forall l, l < next_loc h -> cells h' l = cells h l)
  /\ (exists h',
         pca_mvdr_wrapper_on_masks gesv np_eigh mix noise_mask target_mask regularization h
         = (Raise unpack_error, h')
         /\ forall l, l < next_loc h -> cells h' l = cells h l).
Proof.
  intros Hnd Hmask. cbv zeta.
  assert (Hun : unpack3 (transposeT mix)
                = Raise (ValueError "not enough or too many values to unpack"))
    by (apply unpack3_not_3d; now rewrite ndim_transposeT).
  unfold gev_wrapper_on_masks, pca_wrapper_on_masks, pca_mvdr_wrapper_on_masks.
  destruct noise_mask as [nm |], target_mask as [tm |];
    cbn [option_map or_complement]; try (destruct Hmask; contradiction).
  - unfold bind, ret, lift. rewrite Hun.
    repeat split; exists h; split; try reflexivity; intros; reflexivity.
  - destruct (complement_mask_fresh (mask_T nm) h) as (a & Ha).
    unfold bind, ret, lift. rewrite Ha, Hun.
    repeat split; eexists; (split; [reflexivity |]);
      intros l Hl; cbn [cells]; apply upd_other; lia.
  - destruct (complement_mask_fresh (mask_T tm) h) as (a & Ha).
    unfold bind, ret, lift. rewrite Ha, Hun.
    repeat split; eexists; (split; [reflexivity |]);
      intros l Hl; cbn [cells]; try reflexivity; apply upd_other; lia.
Qed.

(** What a returning call of the estimator with a mask leaves in the store. *)
Lemma get_psd_store (observation : ndarray C) (mask : mask_t)
  (sensor_dim source_dim time_dim : Z) (h h' : heap) (psd : ndarray C) :
  get_power_spectral_density_matrix observation (Some mask) sensor_dim source_dim time_dim h
  = (Ok psd, h') ->
  ndim observation <> 0
  /\ exists M,
       normalized (view (fst (mask_cell mask h)) (snd (mask_cell mask h)))
                  (to_negative (ndim observation) time_dim) = Ok M
       /\ h' = write (fst (mask_cell mask h)) M (snd (mask_cell mask h)).
Proof.
  rewrite get_psd_masked. cbv zeta.
  destruct (ndim observation =? 0) eqn:En; [discriminate |].
  apply Nat.eqb_neq in En.
  destruct (transpose observation _) as [X | e]; [| discriminate].
  destruct (mask_cell mask h) as [r h1]. cbn [fst snd].
  destruct (normalized (view r h1) _) as [M | e]; [| discriminate].
  intros H. inversion H. split; [assumption |]. exists M. split; reflexivity.
Qed.

(** X15: what [pca_wrapper_on_masks] does to the masks of the caller when it
    returns.  A float target mask is normalized in place over its frames
    (the last axis of its transpose); a boolean target mask, and the noise
    mask when no target mask is given, are only read: every array the
    caller holds is then unchanged. *)
Theorem pca_wrapper_store (np_eigh : matrix -> result (list R * matrix))
  (mix : ndarray C) (noise_mask target_mask : option mask_t) (h h' : heap)
  (out : ndarray C) :
  pca_wrapper_on_masks np_eigh mix noise_mask target_mask h = (Ok out, h') ->
  match target_mask with
  | Some (MaskFloat r) =>
      let rT := mkref (ref_loc r) (negb (ref_T r)) in
      exists M,
        normalized (view rT h) (-1) = Ok M
        /\ arr_eq (view rT h') M
        /\ forall l, l <> ref_loc r -> cells h' l = cells h l
  | _ => forall l, l < next_loc h -> cells h' l = cells h l
  end.
Proof.
  unfold pca_wrapper_on_masks. intros H.
  assert (Hrun : exists tm h0,
             or_complement (option_map mask_T target_mask) (option_map mask_T noise_mask) h
             = (Ok tm, h0)
             /\ exists psd,
                  get_power_spectral_density_matrix (transposeT mix) (Some tm)
                                                    (-2) (-2) (-1) h0 = (Ok psd, h')).
  { destruct noise_mask as [nm |], target_mask as [tm |]; try discriminate;
      apply bind_ok in H as (tm' & h0 & Htm & H);
      apply bind_ok in H as (u & h1 & Hu & H); apply lift_ok in Hu as [_ ->];
      apply bind_ok in H as (psd & h2 & Hpsd & H);
      apply bind_ok in H as (W & h3 & HW & H); apply lift_ok in HW as [_ ->];
      apply bind_ok in H as (o & h4 & Ho & H); apply lift_ok in Ho as [_ ->];
      apply ret_ok in H as [_ ->];
      exists tm', h0; (split; [exact Htm | exists psd; exact Hpsd]). }
  destruct Hrun as (tm & h0 & Htm & psd & Hpsd).
  apply get_psd_store in Hpsd as (Hn & M & HM & ->).
  change (-1)%Z with (- Z.of_nat 1)%Z in HM. rewrite to_negative_default in HM by lia.
  cbn [Z.of_nat Pos.of_succ_nat Z.opp] in HM.
  destruct target_mask as [[a | r] |]; cbn [option_map mask_T or_complement] in Htm.
  - unfold ret in Htm. inversion Htm; subst tm h0. cbn [mask_cell fst snd].
    intros l Hl. unfold write. cbn [cells ref_loc ref_T]. rewrite !upd_other by lia.
    reflexivity.
  - unfold ret in Htm. inversion Htm; subst tm h0. cbn [mask_cell fst snd] in *.
    cbv zeta. exists M. split; [exact HM |]. split; [apply view_write |].
    intros l Hl. now apply write_other.
  - destruct noise_mask as [nm |]; cbn [option_map] in Htm; [| discriminate].
    destruct (complement_mask_fresh (mask_T nm) h) as (a & Ha).
    rewrite Ha in Htm. inversion Htm; subst tm h0. cbn [mask_cell fst snd].
    intros l Hl. unfold write. cbn [cells ref_loc ref_T]. rewrite !upd_other by lia.
    reflexivity.
Qed.

(** ** The PSD matrix does not depend on the scale of the mask *)

(** X16: scaling a mask by [c > 0] does not change the PSD matrix, as long
    as the sums over the frames of both masks are at least [1e-10]: the
    normalization removes the factor. *)
Theorem psd_mask_scale_invariant (observation : ndarray C) (mask mask' : mask_t) (h : heap)
  (c : R) (b : list nat) (D T : nat) :
  shape observation = b ++ [D; T] ->
  shape (mask_array h mask) = b ++ [T] ->
  shape (mask_array h mask') = b ++ [T] ->
  (0 < c)%R ->
  (forall idx, in_shape (b ++ [T]) idx ->
     data (mask_array h mask') idx = (c * data (mask_array h mask) idx)%R) ->
  (forall bi, in_shape b bi ->
     (1e-10 <= Rsum T (fun t => data (mask_array h mask) (bi ++ [t])))%R
     /\ (1e-10 <= c * Rsum T (fun t => data (mask_array h mask) (bi ++ [t])))%R) ->
  exists psd h1 psd' h2,
    get_power_spectral_density_matrix observation (Some mask) (-2) (-2) (-1) h = (Ok psd, h1)
    /\ get_power_spectral_density_matrix observation (Some mask') (-2) (-2) (-1) h
       = (Ok psd', h2)
    /\ arr_eq psd' psd.
Proof.
  intros Hs Hm Hm' Hc Hscale Hsum.
  destruct (masked_psd_formula observation mask h b D T Hs Hm)
    as (M & psd & _ & HsM & HdM & Hpsd & Hsp & Hdp).
  destruct (masked_psd_formula observation mask' h b D T Hs Hm')
    as (M' & psd' & _ & HsM' & HdM' & Hpsd' & Hsp' & Hdp').
  exists psd. eexists. exists psd'. eexists.
  split; [exact Hpsd |]. split; [exact Hpsd' |].
  split; [congruence |]. intros idx Hidx. rewrite Hsp' in Hidx.
  apply in_shape_app2_inv in Hidx as (bi & d & e & -> & Hbi & Hd & He).
  rewrite Hdp, Hdp' by assumption. apply Csum_ext. intros t Ht.
  f_equal. f_equal. f_equal.
  rewrite HdM, HdM' by assumption.
  destruct (Hsum bi Hbi) as [H1 H2].
  assert (Hsum' : Rsum T (fun t' => data (mask_array h mask') (bi ++ [t']))
                  = (c * Rsum T (fun t' => data (mask_array h mask) (bi ++ [t'])))%R).
  { rewrite (Rsum_ext T _ (fun t' => (data (mask_array h mask) (bi ++ [t']) / / c)%R)).
    - rewrite Rsum_div. unfold Rdiv. rewrite Rinv_inv. ring.
    - intros t' Ht'. rewrite Hscale by now apply in_shape_snoc.
      unfold Rdiv. rewrite Rinv_inv. ring. }
  rewrite Hsum', Hscale by now apply in_shape_snoc.
  rewrite !Rmax_left by assumption. field. lra.
Qed.

(** ** LCMV with an arbitrary response vector *)

Section LcmvResponse.
Variable gesv : matrix -> list C -> option (list C).

(** X17: for ATF vectors of shape (targets, bins, sensors), a noise PSD of
    shape (bins, sensors, sensors) and any response vector of shape
    (targets,), a driver that returns solutions makes the vector [w] that
    [get_lcmv_vector] returns meet every constraint:
    [conj(atf[k, f, :]) . w[f, :] = response[k]] in every bin [f]. *)
Theorem lcmv_meets_response (atf response noise w : ndarray C) (K F D : nat) :
  gesv_sound gesv ->
  shape atf = [K; F; D] -> shape noise = [F; D; D] -> shape response = [K] ->
  get_lcmv_vector gesv atf response noise = Ok w ->
  shape w = [F; D]
  /\ forall f k, f < F -> k < K ->
       Csum D (fun d => (Cconj (data atf [k; f; d]) * data w [f; d])%C)
       = data response [k].
Proof.
  intros Hsound Hatf Hnoise Hresp Hw.
  unfold get_lcmv_vector in Hw. rewrite !expand_dims_0 in Hw. cbn [rbind] in Hw.
  apply rbind_ok in Hw as (X & HX & Hw).
  apply rbind_ok in Hw as (G & HG & Hw).
  apply rbind_ok in Hw as (temp & Htemp & Hw).
  (* the first solve: shapes *)
  apply (solve_vectors_spec gesv _ _ _ [1; F] [K; F] D) in HX;
    [| cbn [shape]; now rewrite Hnoise | exact Hatf | reflexivity].
  destruct HX as (s1 & Hs1 & HsX & _).
  change [1; F] with ([1] ++ [F]) in Hs1. change [K; F] with ([K] ++ [F]) in Hs1.
  rewrite bshape_app, bdim_refl in Hs1.
  change [1] with ([] ++ [1]) in Hs1. change [K] with ([] ++ [K]) in Hs1.
  rewrite bshape_app, bdim_1_l, bshape_nil_l in Hs1. cbn [app] in Hs1.
  inversion Hs1; subst s1. clear Hs1. cbn [app] in HsX.
  (* the matrix of the constraints *)
  unfold einsum_kd_ld in HG. cbn [amap shape] in HG. rewrite Hatf, HsX in HG.
  change [F; D] with ([F] ++ [D]) in HG.
  rewrite !unsnoc_app, bshape_refl, bdim_refl in HG.
  inversion HG; subst G. clear HG.
  (* the second solve *)
  apply (solve_vectors_spec gesv _ _ _ [F] [1] K) in Htemp;
    [| reflexivity | cbn [shape]; now rewrite Hresp | reflexivity].
  destruct Htemp as (s2 & Hs2 & Hst & Htemp).
  change [F] with ([] ++ [F]) in Hs2. change [1] with ([] ++ [1]) in Hs2.
  rewrite bshape_app, bdim_1_r, bshape_nil_l in Hs2. cbn [app] in Hs2.
  inversion Hs2; subst s2. clear Hs2. cbn [app] in Hst.
  (* the beamforming vector *)
  unfold einsum_kd_k in Hw. rewrite HsX, Hst in Hw.
  change [F; K] with ([F] ++ [K]) in Hw. change [F; D] with ([F] ++ [D]) in Hw.
  rewrite !unsnoc_app, bshape_refl, bdim_refl in Hw.
  inversion Hw; subst w. clear Hw. cbn [shape data app].
  split; [reflexivity |].
  intros f k Hf Hk.
  assert (Hinf : in_shape [F] [f]) by (repeat constructor; assumption).
  destruct (Htemp [f] Hinf) as (sol & Hsol & Hdata).
  rewrite (bidx_id _ _ Hinf) in Hsol.
  apply (Hsound K) in Hsol; [| apply square_matrix_at | apply length_vector_at].
  destruct Hsol as [Hlen Hsol]. specialize (Hsol k Hk).
  rewrite nth_vector_at in Hsol by assumption.
  cbn [data] in Hsol.
  replace (data response (skipn 1 (bidx [1] [f] ++ [k]))) with (data response [k]) in Hsol
    by reflexivity.
  rewrite <- Hsol. unfold mulmv.
  (* the sums over the sensors and over the targets are exchanged *)
  transitivity
    (Csum D (fun d => Csum K (fun l =>
       (Cconj (data atf [k; f; d]) * (data X [l; f; d] * nth l sol C0))%C))).
  { apply Csum_ext. intros d Hd.
    change ([f] ++ [d]) with ([f; d]). change [f; d] with ([f] ++ [d]) at 2.
    rewrite unsnoc_app, Csum_mult_l. apply Csum_ext. intros l Hl.
    f_equal. f_equal.
    - rewrite (cl_lt _ _ Hl), (bidx_id _ _ Hinf). reflexivity.
    - unfold bget. rewrite Hst. change [F; K] with ([F] ++ [K]).
      rewrite bidx_app, (bidx_id _ _ Hinf), (cl_lt _ _ Hl). apply Hdata. }
  rewrite Csum_swap. apply Csum_ext. intros l Hl.
  rewrite nth_matrix_at by assumption. cbn [data app].
  change [f; k; l] with ([f] ++ [k; l]). rewrite unsnoc2_app, Csum_mult_r.
  apply Csum_ext. intros d Hd.
  rewrite (bidx_id _ _ Hinf), (cl_lt _ _ Hd). cbn [app].
  rewrite Cmult_assoc. reflexivity.
Qed.

End LcmvResponse.

(** ** A mask with a source axis *)

(** With the default axes the transposition is the identity permutation. *)
Lemma transpose_identity {A} (a : ndarray A) (n : nat) :
  2 <= ndim a -> n = ndim a ->
  transpose a (axes_to_end n (to_negative n (-2)) (to_negative n (-1)))
  = Ok (permute a (seq 0 (ndim a))).
Proof.
  intros Hn ->. change (-2)%Z with (- Z.of_nat 2)%Z. change (-1)%Z with (- Z.of_nat 1)%Z.
  rewrite !to_negative_default by lia. cbn [Z.of_nat Pos.of_succ_nat Pos.succ Z.opp].
  replace (ndim a) with (ndim a - 2 + 2) at 1 by lia.
  rewrite axes_to_end_default. replace (ndim a - 2 + 2) with (ndim a) by lia.
  unfold transpose, range_neg. rewrite length_map, length_seq, Nat.eqb_refl.
  rewrite perm_axes_range; [reflexivity | lia | intros j []].
Qed.

Lemma shape_permute_id {A} (a : ndarray A) : shape (permute a (seq 0 (ndim a))) = shape a.
Proof. unfold permute, ndim. cbn [shape]. apply map_nth_seq. Qed.

(** One PSD matrix per source, for a mask of shape (..., sources, frames). *)
Lemma masked_psd_sources_formula (observation : ndarray C) (mask : mask_t) (h : heap)
  (b : list nat) (K D T : nat) :
  shape observation = b ++ [D; T] ->
  shape (mask_array h mask) = b ++ [K; T] ->
  exists M psd,
    shape M = b ++ [K; T]
    /\ (forall bi k t, in_shape b bi -> k < K ->
          data M (bi ++ [k; t])
          = (data (mask_array h mask) (bi ++ [k; t])
             / Rmax (Rsum T (fun t' => data (mask_array h mask) (bi ++ [k; t']))) 1e-10)%R)
    /\ get_power_spectral_density_matrix observation (Some mask) (-2) (-2) (-1) h
       = (Ok psd, write (fst (mask_cell mask h)) M (snd (mask_cell mask h)))
    /\ shape psd = b ++ [K; D; D]
    /\ forall bi k d e, in_shape b bi -> k < K -> d < D -> e < D ->
         data psd (bi ++ [k; d; e])
         = Csum T (fun t => (RtoC (data M (bi ++ [k; t])) * data observation (bi ++ [d; t])
                             * Cconj (data observation (bi ++ [e; t])))%C).
Proof.
  intros Hs Hms.
  assert (Hnd : ndim observation = length b + 2)
    by (unfold ndim; rewrite Hs, length_app; simpl; lia).
  assert (Hms' : shape (mask_array h mask) = (b ++ [K]) ++ [T])
    by (rewrite Hms, <- app_assoc; reflexivity).
  destruct (normalized_last (mask_array h mask) (b ++ [K]) T Hms') as (M & HM & HsM & HdM).
  assert (HsM' : shape M = b ++ [K; T]) by (rewrite HsM, <- app_assoc; reflexivity).
  assert (HnM : ndim M = ndim observation)
    by (unfold ndim at 1; rewrite HsM', length_app; simpl; lia).
  set (X := permute observation (seq 0 (ndim observation))).
  set (MT := permute M (seq 0 (ndim M))).
  assert (HsX : shape X = b ++ [D; T]) by (unfold X; now rewrite shape_permute_id).
  assert (HsMT : shape MT = b ++ [K; T]) by (unfold MT; now rewrite shape_permute_id).
  assert (Hneg : to_negative (ndim observation) (-1) = (-1)%Z).
  { change (-1)%Z with (- Z.of_nat 1)%Z. now rewrite to_negative_default by lia. }
  assert (Hsrc : to_negative (ndim observation) (-2) = (-2)%Z).
  { change (-2)%Z with (- Z.of_nat 2)%Z. now rewrite to_negative_default by lia. }
  assert (Hpsd : exists psd,
             weighted_psd (ndim observation) X M (to_negative (ndim observation) (-2))
                          (to_negative (ndim observation) (-1))
             = Ok psd
             /\ shape psd = b ++ [K; D; D]
             /\ forall bi k d e,
                  data psd (bi ++ [k; d; e])
                  = Csum T (fun t => (RtoC (bget MT (bi ++ [k; t])) * bget X (bi ++ [d; t])
                                      * bget (amap Cconj X) (bi ++ [e; t]))%C)).
  { unfold weighted_psd.
    replace (ndim M + 1 =? ndim X) with false
      by (symmetry; apply Nat.eqb_neq; unfold ndim at 2; rewrite HsX, length_app; simpl; lia).
    rewrite (transpose_identity M (ndim observation)) by lia. cbn [rbind]. fold MT.
    unfold einsum_kt_dt_et. cbn [amap shape]. rewrite HsMT, HsX, !unsnoc2_app.
    unfold bshape3, bdim3. rewrite !bshape_refl, !bdim_refl. cbn [rbind].
    rewrite Hsrc. change (-2 <? -2)%Z with false.
    eexists. split; [reflexivity |]. split; [reflexivity |].
    intros bi k d e. cbn [data]. now rewrite unsnoc3_app. }
  destruct Hpsd as (psd & Hpsd & Hsp & Hdp).
  exists M, psd. split; [exact HsM' |]. split.
  { intros bi k t Hbi Hk.
    replace (bi ++ [k; t]) with ((bi ++ [k]) ++ [t]) by now rewrite <- app_assoc.
    rewrite HdM by now apply in_shape_snoc.
    f_equal. f_equal. apply Rsum_ext. intros t' _. now rewrite <- app_assoc. }
  split.
  { rewrite get_psd_masked. cbv zeta.
    replace (ndim observation =? 0) with false by (symmetry; apply Nat.eqb_neq; lia).
    rewrite (transpose_identity observation (ndim observation)) by lia. fold X.
    pose proof (view_mask_cell mask h) as Hview.
    destruct (mask_cell mask h) as [r h1]. cbn [fst snd] in *. rewrite Hview.
    rewrite Hneg at 1. rewrite HM, Hpsd. reflexivity. }
  split; [exact Hsp |].
  intros bi k d e Hbi Hk Hd He. rewrite Hdp. apply Csum_ext. intros t Ht.
  assert (Hl : length bi = length b) by now apply in_shape_length.
  assert (HiM : in_shape (b ++ [K; T]) (bi ++ [k; t])).
  { apply in_shape_app; [assumption |]. split; [assumption | repeat constructor; assumption]. }
  assert (HiX : forall d', d' < D -> in_shape (b ++ [D; T]) (bi ++ [d'; t])).
  { intros d' Hd'. apply in_shape_app; [assumption |].
    split; [assumption | repeat constructor; assumption]. }
  unfold bget, amap. cbn [shape data]. rewrite HsMT, HsX.
  rewrite (bidx_id _ _ HiM), !(bidx_id _ _ (HiX _ Hd)), !(bidx_id _ _ (HiX _ He)).
  unfold MT, X. rewrite !permute_id_data; [reflexivity | | |];
    rewrite !length_app, Hl; cbn [length]; lia.
Qed.

(** X18: with the default axes, an observation of shape (..., sensors,
    frames) and a mask of shape (..., sources, frames) give one PSD matrix
    per source: the result has shape (..., sources, sensors, sensors) and
    [PSD[..., k, d, e] = sum_t M[..., k, t] * obs[..., d, t] * conj(obs[..., e, t])],
    where [M] is the mask divided by [max(sum_t mask[..., k, t], 1e-10)]. *)
Theorem psd_multi_source_value (observation : ndarray C) (mask : mask_t) (h : heap)
  (b : list nat) (K D T : nat) :
  shape observation = b ++ [D; T] ->
  shape (mask_array h mask) = b ++ [K; T] ->
  exists M psd,
    shape M = b ++ [K; T]
    /\ (forall bi k t, in_shape b bi -> k < K ->
          data M (bi ++ [k; t])
          = (data (mask_array h mask) (bi ++ [k; t])
             / Rmax (Rsum T (fun t' => data (mask_array h mask) (bi ++ [k; t']))) 1e-10)%R)
    /\ get_power_spectral_density_matrix observation (Some mask) (-2) (-2) (-1) h
       = (Ok psd, write (fst (mask_cell mask h)) M (snd (mask_cell mask h)))
    /\ shape psd = b ++ [K; D; D]
    /\ forall bi k d e, in_shape b bi -> k < K -> d < D -> e < D ->
         data psd (bi ++ [k; d; e])
         = Csum T (fun t => (RtoC (data M (bi ++ [k; t])) * data observation (bi ++ [d; t])
                             * Cconj (data observation (bi ++ [e; t])))%C).
Proof.
  intros Hs Hms.
  destruct (masked_psd_sources_formula observation mask h b K D T Hs Hms)
    as (M & psd & HsM & HdM & Hpsd & Hsp & Hdp).
  exists M, psd. repeat split; assumption.
Qed.

(** X19: the source axis in front.  For an observation of shape
    (bins, sensors, frames), a mask of shape (sources, bins, frames) and
    [source_dim = 0], the result has shape (sources, bins, sensors, sensors)
    and [PSD[k, f, d, e] = sum_t M[k, f, t] * obs[f, d, t] * conj(obs[f, e, t])],
    where [M] is the mask divided by [max(sum_t mask[k, f, t], 1e-10)]. *)
Theorem psd_source_axis_first (observation : ndarray C) (mask : mask_t) (h : heap)
  (F D T K : nat) :
  shape observation = [F; D; T] ->
  shape (mask_array h mask) = [K; F; T] ->
  exists M psd,
    shape M = [K; F; T]
    /\ (forall k f t, k < K -> f < F ->
          data M [k; f; t]
          = (data (mask_array h mask) [k; f; t]
             / Rmax (Rsum T (fun t' => data (mask_array h mask) [k; f; t'])) 1e-10)%R)
    /\ get_power_spectral_density_matrix observation (Some mask) (-2) 0 (-1) h
       = (Ok psd, write (fst (mask_cell mask h)) M (snd (mask_cell mask h)))
    /\ shape psd = [K; F; D; D]
    /\ forall k f d e, k < K -> f < F -> d < D -> e < D ->
         data psd [k; f; d; e]
         = Csum T (fun t => (RtoC (data M [k; f; t]) * data observation [f; d; t]
                             * Cconj (data observation [f; e; t]))%C).
Proof.
  intros Hs Hms.
  assert (Hnd : ndim observation = 3) by (unfold ndim; now rewrite Hs).
  destruct (normalized_last (mask_array h mask) [K; F] T Hms) as (M & HM & HsM & HdM).
  cbn [app] in HsM.
  assert (HnM : ndim M = 3) by (unfold ndim; now rewrite HsM).
  set (X := permute observation (seq 0 (ndim observation))).
  assert (HsX : shape X = [F; D; T]) by (unfold X; now rewrite shape_permute_id).
  assert (HX : forall f d t, data X [f; d; t] = data observation [f; d; t]).
  { intros f d t. unfold X. apply permute_id_data. now rewrite Hnd. }
  assert (Hpsd : exists psd,
             weighted_psd 3 X M (to_negative 3 0) (to_negative 3 (-1)) = Ok psd
             /\ shape psd = [K; F; D; D]
             /\ forall k f d e, k < K -> f < F -> d < D -> e < D ->
                  data psd [k; f; d; e]
                  = Csum T (fun t => (RtoC (data M [k; f; t]) * data X [f; d; t]
                                      * Cconj (data X [f; e; t]))%C)).
  { unfold weighted_psd.
    replace (ndim M + 1 =? ndim X) with false
      by (symmetry; apply Nat.eqb_neq; unfold ndim at 2; rewrite HsX, HnM; simpl; lia).
    change (axes_to_end 3 (to_negative 3 0) (to_negative 3 (-1)))
      with [(-2)%Z; (-3)%Z; (-1)%Z].
    unfold transpose. rewrite HnM. cbn [length Nat.eqb].
    change (perm_axes 3 [(-2)%Z; (-3)%Z; (-1)%Z] []) with (Ok [1; 0; 2]).
    cbn [rbind]. unfold einsum_kt_dt_et, permute. cbn [amap shape map nth]. rewrite HsM, HsX.
    cbn [nth].
    change [F; K; T] with ([F] ++ [K; T]). change [F; D; T] with ([F] ++ [D; T]).
    rewrite !unsnoc2_app. unfold bshape3, bdim3. rewrite !bshape_refl, !bdim_refl.
    cbn [rbind app].
    change (to_negative 3 0 <? -2)%Z with true.
    change (to_negative 3 0 mod Z.of_nat 3)%Z with 0%Z.
    unfold rollaxis, ndim. cbn [shape length].
    change (norm_axis 4 (-3)) with (Some 1).
    cbn [Z.ltb Z.compare Z.leb andb Z.of_nat Z.to_nat Nat.ltb Nat.leb Nat.eqb Pos.of_succ_nat
         Pos.succ Z.add Pos.compare Pos.compare_cont].
    cbn [seq remove_at insert_at firstn skipn app].
    eexists. split; [reflexivity |]. split; [reflexivity |].
    intros k f d e Hk Hf Hd He.
    cbn [permute data shape ndim length seq map index_of Nat.eqb nth].
    change [f; k; d; e] with ([f] ++ [k; d; e]). rewrite unsnoc3_app.
    apply Csum_ext. intros t Ht.
    unfold bget. cbn [shape data app]. rewrite HsX.
    rewrite (bidx_id [F; K; T] [f; k; t]) by (repeat constructor; assumption).
    rewrite !(bidx_id [F; D; T]) by (repeat constructor; assumption).
    unfold ndim. rewrite HsM. cbn [length seq map index_of Nat.eqb nth].
    unfold amap. cbn [shape data]. rewrite HsX.
    rewrite (bidx_id [F; D; T]) by (repeat constructor; assumption). reflexivity. }
  destruct Hpsd as (psd & Hpsd & Hsp & Hdp).
  exists M, psd. split; [exact HsM |]. split.
  { intros k f t Hk Hf. apply (HdM [k; f] t). repeat constructor; assumption. }
  split.
  { rewrite get_psd_masked. cbv zeta. rewrite Hnd. cbn [Nat.eqb].
    rewrite <- Hnd at 1 2 3. rewrite (transpose_identity observation (ndim observation)) by lia.
    fold X.
    pose proof (view_mask_cell mask h) as Hview.
    destruct (mask_cell mask h) as [r h1]. cbn [fst snd] in *. rewrite Hview.
    change (to_negative 3 (-1)) with (-1)%Z at 1. rewrite HM, Hpsd. reflexivity. }
  split; [exact Hsp |].
  intros k f d e Hk Hf Hd He. rewrite Hdp by assumption.
  apply Csum_ext. intros t Ht. now rewrite !HX.
Qed.

(** ** The loop that [get_mvdr_vector] replaced *)

Lemma half_is_half : RtoC (1 / 2) = RtoC 0.5.
Proof. f_equal. lra. Qed.

Lemma hermitian_part_old (noise : ndarray C) (F D : nat) :
  shape noise = [F; D; D] ->
  exists transposed sum,
    transpose noise [0; 2; 1]%Z = Ok transposed
    /\ bmap2 Cplus noise (amap Cconj transposed) = Ok sum
    /\ shape sum = [F; D; D]
    /\ forall f, f < F ->
         matrix_at (amap (fun z => RtoC (1 / 2) * z)%C sum) [f] D D
         = hermitian_part noise f D.
Proof.
  intros Hn. unfold transpose, ndim. rewrite Hn. cbn [length Nat.eqb].
  change (perm_axes 3 [0%Z; 2%Z; 1%Z] []) with (Ok [0; 2; 1]). cbn [rbind].
  unfold permute. rewrite Hn. cbn [map nth].
  eexists. eexists. split; [reflexivity |].
  unfold bmap2. cbn [amap shape]. rewrite Hn, bshape_refl.
  split; [reflexivity |]. split; [reflexivity |].
  intros f Hf. unfold matrix_at, hermitian_part.
  apply map_ext_in. intros i Hi. apply map_ext_in. intros j Hj.
  apply in_seq in Hi. apply in_seq in Hj.
  cbn [amap data app]. unfold bget. cbn [shape data]. rewrite Hn.
  rewrite (bidx_id [F; D; D] [f; i; j]) by (repeat constructor; (assumption || lia)).
  unfold ndim. rewrite Hn. cbn [length seq map index_of Nat.eqb nth].
  rewrite half_is_half. unfold amap. cbn [shape data].
  rewrite (bidx_id [F; D; D] [f; i; j]) by (repeat constructor; (assumption || lia)).
  reflexivity.
Qed.

Lemma mvdr_noise_returns (atf noise : ndarray C) (b : list nat) (F D : nat) :
  shape atf = b ++ [F; D] -> shape noise = [F; D; D] ->
  exists Nh, mvdr_noise atf noise = Ok Nh.
Proof.
  intros Ha Hn. destruct (expand_front_shape (length b) noise) as (e & He & Hse & _).
  unfold mvdr_noise.
  replace (ndim atf + 1 - ndim noise) with (length b)
    by (unfold ndim; rewrite Ha, Hn, length_app; simpl; lia).
  rewrite He. cbn [rbind]. unfold swapaxes_last.
  assert (Hs' : shape e = (repeat 1 (length b) ++ [F]) ++ [D; D])
    by (rewrite Hse, Hn, <- app_assoc; reflexivity).
  rewrite Hs', unsnoc2_app. cbn [rbind]. unfold bmap2. cbn [amap shape].
  rewrite Hs', bshape_refl. cbn [rbind]. eexists. reflexivity.
Qed.

Section MvdrOld.
Variable gesv : matrix -> list C -> option (list C).

Lemma mvdr_old_bin_value (atf NH : ndarray C) (F D f : nat) :
  shape atf = [F; D] -> shape NH = [F; D; D] -> f < F ->
  mvdr_old_bin gesv atf NH D f
  = match gesv (matrix_at NH [f] D D) (vector_at atf [f] D) with
    | Some x => Ok (mvdr_row D (vector_at atf [f] D) x)
    | None => Raise LinAlgError
    end.
Proof.
  intros Ha Hn Hf. apply Nat.ltb_lt in Hf.
  unfold mvdr_old_bin, index0. rewrite Hn, Ha, Hf. cbn [rbind].
  unfold solve. cbn [shape unsnoc2 rev app]. rewrite Nat.eqb_refl.
  cbn [ndim shape length Nat.sub Nat.eqb].
  unfold solve_vectors. cbn [shape unsnoc rev app]. rewrite Nat.eqb_refl.
  cbn [bshape rev bshape_rev option_map indices forallb bidx clamp app andb].
  change (matrix_at (mkarr [D; D] (fun idx => data NH (f :: idx))) [] D D)
    with (matrix_at NH [f] D D).
  change (vector_at (mkarr [D] (fun idx => data atf (f :: idx))) [] D)
    with (vector_at atf [f] D).
  destruct (gesv (matrix_at NH [f] D D) (vector_at atf [f] D)) as [x |] eqn:Ex;
    cbn [is_some andb rbind]; [| reflexivity].
  unfold np_dot. cbn [amap shape unsnoc rev app]. rewrite Nat.eqb_refl. cbn [rbind].
  unfold bmap2. cbn [shape]. rewrite bshape_nil_r. cbn [rbind shape nth].
  unfold assign_row. rewrite length_vector_at, Nat.eqb_refl.
  f_equal. unfold vector_at, mvdr_row.
  apply map_ext_in. intros i Hi. apply in_seq in Hi.
  cbn [data app]. unfold bget. cbn [shape data].
  rewrite (bidx_id [D] [i]) by (repeat constructor; lia).
  cbn [unsnoc rev app bidx clamp]. f_equal. apply Csum_ext. intros k Hk.
  rewrite nth_map_seq by assumption. reflexivity.
Qed.

(** The old loop over the first [count] bins. *)
Lemma mvdr_old_loop_value (atf NH : ndarray C) (F D count : nat) :
  shape atf = [F; D] -> shape NH = [F; D; D] -> count <= F ->
  mvdr_old_loop gesv atf NH D count
  = if forallb (fun f => is_some (gesv (matrix_at NH [f] D D) (vector_at atf [f] D)))
               (seq 0 count)
    then Ok (map (fun f =>
                    match gesv (matrix_at NH [f] D D) (vector_at atf [f] D) with
                    | Some x => mvdr_row D (vector_at atf [f] D) x
                    | None => []
                    end)
                 (seq 0 count))
    else Raise LinAlgError.
Proof.
  intros Ha Hn. induction count as [| c IH]; intros Hle; [reflexivity |].
  cbn [mvdr_old_loop]. rewrite IH by lia. rewrite seq_S, forallb_app, map_app.
  cbn [forallb map Nat.add].
  destruct (forallb _ (seq 0 c)); cbn [rbind andb]; [| reflexivity].
  rewrite (mvdr_old_bin_value atf NH F D c Ha Hn) by lia.
  destruct (gesv _ _); reflexivity.
Qed.

(** X20: [get_mvdr_vector] agrees with the loop it replaced.  For an ATF
    vector of shape (bins, sensors) and a noise PSD of shape
    (bins, sensors, sensors), [get_mvdr_vector_old] returns the same vector
    when [get_mvdr_vector] returns one, and raises the same exception when
    it raises. *)
Theorem mvdr_old_agrees (atf noise : ndarray C) (F D : nat) :
  shape atf = [F; D] -> shape noise = [F; D; D] ->
  match get_mvdr_vector gesv atf noise with
  | Ok w => exists w', get_mvdr_vector_old gesv atf noise = Ok w' /\ arr_eq w' w
  | Raise e => get_mvdr_vector_old gesv atf noise = Raise e
  end.
Proof.
  intros Ha Hn.
  destruct (hermitian_part_old noise F D Hn) as (transposed & sum & Ht & Hsum & Hss & HH).
  set (NH := amap (fun z => (RtoC (1 / 2) * z)%C) sum) in *.
  assert (HsNH : shape NH = [F; D; D]) by exact Hss.
  assert (Hold : get_mvdr_vector_old gesv atf noise
                 = rbind (mvdr_old_loop gesv atf NH D F)
                         (fun rows => Ok (rows_array F D rows))).
  { unfold get_mvdr_vector_old, ndim. rewrite Ha, Hn. cbn [length Nat.eqb rbind].
    rewrite Ht. cbn [rbind]. rewrite Hsum. cbn [rbind]. unfold unpack2. rewrite Ha.
    reflexivity. }
  rewrite Hold, (mvdr_old_loop_value atf NH F D F Ha HsNH) by lia. clear Hold.
  destruct (mvdr_noise_returns atf noise [] F D Ha Hn) as (Nh & HNh).
  pose proof (mvdr_noise_shape atf noise Nh [] F D Ha Hn HNh) as HsNh.
  cbn [length repeat app] in HsNh.
  assert (Hsys : forall f, f < F ->
            gesv (matrix_at Nh (bidx [F] [f]) D D) (vector_at atf (bidx [F] [f]) D)
            = gesv (matrix_at NH [f] D D) (vector_at atf [f] D)).
  { intros f Hf. rewrite (bidx_id [F] [f]) by (repeat constructor; assumption).
    rewrite HH by assumption.
    now rewrite <- (mvdr_noise_matrix atf noise Nh [] [] F D f Ha Hn HNh (Forall2_nil _) Hf). }
  assert (Hin : forall bi, in_shape [F] bi -> exists f, bi = [f] /\ f < F).
  { intros bi Hbi. inversion Hbi as [| f ? bi' ? Hf Hbi']; subst. inversion Hbi'; subst.
    now exists f. }
  destruct (forallb _ (seq 0 F)) eqn:Hall; cbn [rbind].
  - (* every bin is solved *)
    rewrite forallb_forall in Hall.
    assert (Hsome : forall bi, in_shape [F] bi ->
              exists sol, gesv (matrix_at Nh (bidx [F] bi) D D)
                               (vector_at atf (bidx [F] bi) D) = Some sol).
    { intros bi Hbi. destruct (Hin bi Hbi) as (f & -> & Hf). rewrite Hsys by assumption.
      specialize (Hall f ltac:(apply in_seq; lia)).
      destruct (gesv _ _) as [sol |]; [now exists sol | discriminate]. }
    destruct (solve_vectors_returns gesv Nh atf [F] [F] [F] D HsNh Ha eq_refl
                                    (bshape_refl [F]) Hsome) as (X & HX).
    assert (Hnum : mvdr_numerator gesv atf noise = Ok X)
      by (unfold mvdr_numerator; rewrite HNh; exact HX).
    destruct (solve_vectors_spec gesv Nh atf X [F] [F] D HsNh Ha eq_refl HX)
      as (s & Hs & HsX & HdX).
    rewrite bshape_refl in Hs. inversion Hs; subst s. clear Hs.
    assert (Hden : exists den, mvdr_denominator atf X = Ok den).
    { unfold mvdr_denominator, einsum_d_d. cbn [amap shape].
      rewrite Ha, HsX. change [F; D] with ([F] ++ [D]).
      rewrite !unsnoc_app, bshape_refl, bdim_refl. eexists. reflexivity. }
    destruct Hden as (den & Hden).
    destruct (mvdr_vector_entries gesv atf noise X den [] F D Ha Hn Hnum Hden)
      as (_ & _ & Hdd & w & Hw & Hsw & Hdw).
    rewrite Hw. eexists. split; [reflexivity |].
    split; [now rewrite Hsw |]. cbn [shape]. intros idx Hidx.
    inversion Hidx as [| f ? idx1 ? Hf Hidx1]; subst.
    inversion Hidx1 as [| d ? idx2 ? Hd Hidx2]; subst. inversion Hidx2; subst.
    assert (Hinf : in_shape ([] ++ [F]) [f]) by (repeat constructor; assumption).
    destruct (HdX [f] Hinf) as (sol & Hsol & Hdata).
    rewrite Hsys in Hsol by assumption.
    unfold rows_array. cbn [data nth]. rewrite nth_map_seq by assumption. rewrite Hsol.
    unfold mvdr_row. rewrite nth_map_seq by assumption.
    change [f; d] with ([f] ++ [d]). rewrite Hdw, Hdd by assumption.
    rewrite Hdata. f_equal. apply Csum_ext. intros k Hk.
    rewrite Hdata, nth_vector_at by assumption. reflexivity.
  - (* one bin is not *)
    apply forallb_false_witness in Hall as (f & Hf & Hnone). apply in_seq in Hf.
    assert (Hnone' : gesv (matrix_at Nh (bidx [F] [f]) D D) (vector_at atf (bidx [F] [f]) D)
                     = None).
    { rewrite Hsys by lia. destruct (gesv _ _); [discriminate | reflexivity]. }
    unfold get_mvdr_vector, mvdr_numerator. rewrite HNh. cbn [rbind].
    rewrite (solve_vectors_raises gesv Nh atf [F] [F] [F] [f] D HsNh Ha eq_refl
                                  (bshape_refl [F]));
      [reflexivity | repeat constructor; lia | exact Hnone'].
Qed.
End MvdrOld.

(** ** The estimator that [get_power_spectral_density_matrix] replaced *)

(** The old normalization of a mask of shape (bins, frames). *)
Lemma normalize_mask_old_2d (m : ndarray R) (F T : nat) :
  shape m = [F; T] ->
  exists m3 m',
    normalize_mask_old m = Ok (m3, m')
    /\ shape m3 = [F; 1; T] /\ shape m' = [F; T]
    /\ (forall f t, f < F -> t < T ->
          data m3 [f; 0; t]
          = (data m [f; t] / Rmax (Rsum T (fun t' => data m [f; t'])) 1e-6)%R)
    /\ forall f t, data m' [f; t] = data m3 [f; 0; t].
Proof.
  intros Hm. unfold normalize_mask_old, ndim. rewrite Hm. cbn [length Nat.eqb].
  unfold expand_dims, ndim. rewrite Hm. cbn [length].
  change (norm_axis 3 1) with (Some 1). cbn [rbind insert_at firstn skipn app].
  unfold sum_keepdims, ndim. cbn [shape length].
  change (norm_axis 3 (-1)) with (Some 2). cbn [rbind set_nth firstn skipn app nth].
  unfold inplace2. cbn [amap shape].
  change [F; 1; T] with ([F; 1] ++ [T]). change [F; 1; 1] with ([F; 1] ++ [1]).
  rewrite bshape_app, bdim_1_r, bshape_refl.
  destruct (list_eq_dec Nat.eq_dec ([F; 1] ++ [T]) ([F; 1] ++ [T])) as [_ | Hne];
    [| contradiction].
  cbn [rbind app].
  eexists. eexists. split; [reflexivity |]. split; [reflexivity |]. split; [reflexivity |].
  split.
  - intros f t Hf Ht. cbn [data]. unfold bget, amap. cbn [shape data].
    change [F; 1; 1] with ([F; 1] ++ [1]). change [f; 0; t] with ([f; 0] ++ [t]).
    rewrite bidx_app, cl_1.
    rewrite (bidx_id [F; 1] [f; 0]) by (repeat constructor; (assumption || lia)).
    cbn [app remove_at firstn skipn set_nth]. reflexivity.
  - intros f t. reflexivity.
Qed.

(** The old contraction for a mask of shape (bins, 1, frames). *)
Lemma einsum_old_value (m3 : ndarray R) (observation : ndarray C) (F D T : nat) :
  shape m3 = [F; 1; T] -> shape observation = [F; D; T] ->
  exists psd,
    einsum_ft_dt_et m3 observation (amap Cconj observation) = Ok psd
    /\ shape psd = [F; D; D]
    /\ forall f d e, f < F -> d < D -> e < D ->
         data psd [f; d; e]
         = Csum T (fun t => (RtoC (data m3 [f; 0; t]) * data observation [f; d; t]
                             * Cconj (data observation [f; e; t]))%C).
Proof.
  intros Hm Ho. unfold einsum_ft_dt_et. cbn [amap shape]. rewrite Hm, Ho.
  change [F; 1; T] with ([F] ++ [1; T]). change [F; D; T] with ([F] ++ [D; T]).
  rewrite !unsnoc2_app. unfold bshape3, bdim3. rewrite !bshape_refl, !bdim_refl.
  eexists. split; [reflexivity |]. split; [reflexivity |].
  intros f d e Hf Hd He. cbn [data app].
  change [f; d; e] with ([f] ++ [d; e]). rewrite unsnoc2_app. cbn [Csum app].
  rewrite Cplus_0_l. apply Csum_ext. intros t Ht.
  unfold bget, amap. cbn [shape data]. rewrite Hm, Ho.
  rewrite (bidx_id [F; 1; T] [f; 0; t]) by (repeat constructor; (assumption || lia)).
  rewrite !(bidx_id [F; D; T]) by (repeat constructor; assumption).
  reflexivity.
Qed.

(** X21: the estimator agrees with the one it replaced on a float mask of
    shape (bins, frames) whose sums over the frames are at least [1e-6] (the
    floor of the old normalization; the new one uses [1e-10]): for an
    observation of shape (bins, sensors, frames) both return the same PSD
    matrix and leave the same normalized mask in the caller's array. *)
Theorem psd_old_agrees (observation : ndarray C) (r : mref) (h : heap) (F D T : nat) :
  shape observation = [F; D; T] ->
  shape (view r h) = [F; T] ->
  (forall f, f < F -> (1e-6 <= Rsum T (fun t => data (view r h) [f; t]))%R) ->
  exists psd_old h_old psd h',
    get_power_spectral_density_matrix_old observation (Some (MaskFloat r)) h
    = (Ok psd_old, h_old)
    /\ get_power_spectral_density_matrix observation (Some (MaskFloat r)) (-2) (-2) (-1) h
       = (Ok psd, h')
    /\ arr_eq psd_old psd
    /\ arr_eq (view r h_old) (view r h')
    /\ forall l, l <> ref_loc r -> cells h_old l = cells h' l.
Proof.
  intros Ho Hm Hsum.
  destruct (normalize_mask_old_2d (view r h) F T Hm) as (m3 & m' & Hnorm & Hs3 & Hs' & Hd3 & Hd').
  destruct (einsum_old_value m3 observation F D T Hs3 Ho) as (psd_old & Hes & Hso & Hdo).
  destruct (masked_psd_formula observation (MaskFloat r) h [F] D T Ho Hm)
    as (M & psd & _ & HsM & HdM & Hpsd & Hsp & Hdp).
  cbn [mask_array mask_cell fst snd app] in *.
  assert (HM : forall f t, f < F -> t < T -> data m3 [f; 0; t] = data M [f; t]).
  { intros f t Hf Ht. rewrite Hd3 by assumption.
    assert (E := HdM [f] t ltac:(repeat constructor; assumption)). cbn [app] in E.
    rewrite E. specialize (Hsum f Hf). rewrite !Rmax_left by lra. reflexivity. }
  exists psd_old, (write r m' h), psd, (write r M h).
  split.
  { unfold get_power_spectral_density_matrix_old, unpack3. rewrite Ho.
    unfold bind, lift, load, store. fold (view r h). rewrite Hnorm. cbn [fst snd].
    rewrite Hes. reflexivity. }
  split; [exact Hpsd |]. split.
  { split; [congruence |]. intros idx Hidx. rewrite Hso in Hidx.
    inversion Hidx as [| f ? i1 ? Hf H1]; subst. inversion H1 as [| d ? i2 ? Hd H2]; subst.
    inversion H2 as [| e ? i3 ? He H3]; subst. inversion H3; subst.
    rewrite Hdo by assumption.
    assert (E := Hdp [f] d e ltac:(repeat constructor; assumption) Hd He). cbn [app] in E.
    rewrite E. apply Csum_ext. intros t Ht. now rewrite HM. }
  split.
  { apply arr_eq_trans with m'; [apply view_write |].
    apply arr_eq_trans with M; [| apply arr_eq_sym, view_write].
    split; [congruence |]. intros idx Hidx. rewrite Hs' in Hidx.
    inversion Hidx as [| f ? i1 ? Hf H1]; subst. inversion H1 as [| t ? i2 ? Ht H2]; subst.
    inversion H2; subst. rewrite Hd'. now apply HM. }
  intros l Hl. now rewrite !write_other.
Qed.

(** X22: without a mask the two estimators agree as well: for an
    observation of shape (bins, sensors, frames) with at least one frame,
    the old weights [1 / frames] give the sample covariance divided by the
    number of frames, and neither call changes the store. *)
Theorem psd_old_agrees_unmasked (observation : ndarray C) (h : heap) (F D T : nat) :
  shape observation = [F; D; T] ->
  0 < T ->
  exists psd_old psd,
    get_power_spectral_density_matrix_old observation None h = (Ok psd_old, h)
    /\ get_power_spectral_density_matrix observation None (-2) (-2) (-1) h = (Ok psd, h)
    /\ arr_eq psd_old psd.
Proof.
  intros Ho HT.
  destruct (normalize_mask_old_2d (mkarr [F; T] (fun _ => 1%R)) F T eq_refl)
    as (m3 & m' & Hnorm & Hs3 & _ & Hd3 & _).
  destruct (einsum_old_value m3 observation F D T Hs3 Ho) as (psd_old & Hes & Hso & Hdo).
  destruct (unweighted_psd_value observation [F] D T h Ho)
    as (X & psd & HX & HsX & Hpsd & Hsp & Hdp).
  assert (HX' : X = permute observation (seq 0 (ndim observation))).
  { rewrite (transpose_identity observation (ndim observation)) in HX;
      [now inversion HX | unfold ndim; rewrite Ho; simpl; lia | reflexivity]. }
  exists psd_old, psd. split.
  { unfold get_power_spectral_density_matrix_old, unpack3. rewrite Ho.
    unfold bind, lift. rewrite Hnorm. cbn [fst]. rewrite Hes. reflexivity. }
  split; [exact Hpsd |].
  split; [now rewrite Hso, Hsp |]. intros idx Hidx. rewrite Hso in Hidx.
  inversion Hidx as [| f ? i1 ? Hf H1]; subst. inversion H1 as [| d ? i2 ? Hd H2]; subst.
  inversion H2 as [| e ? i3 ? He H3]; subst. inversion H3; subst.
  rewrite Hdo by assumption.
  assert (E := Hdp [f] d e ltac:(repeat constructor; assumption) Hd He). cbn [app] in E.
  rewrite E. unfold Cdiv. rewrite Cinv_RtoC, Csum_mult_r.
  apply Csum_ext. intros t Ht.
  rewrite Hd3 by assumption. cbn [data]. rewrite Rsum_const.
  rewrite Rmax_left by (pose proof (INR_ge_1 T HT); lra).
  rewrite !permute_id_data by (unfold ndim; now rewrite Ho).
  replace (1 / (INR T * 1))%R with (/ INR T)%R
    by (field; pose proof (INR_ge_1 T HT); lra).
  rewrite <- Cmult_assoc, (Cmult_comm (RtoC (/ INR T))). reflexivity.
Qed.

(** The old normalization of a mask of shape (bins, sources, frames). *)
Lemma normalize_mask_old_3d (m : ndarray R) (F K T : nat) :
  shape m = [F; K; T] ->
  exists m3,
    normalize_mask_old m = Ok (m3, m3)
    /\ shape m3 = [F; K; T]
    /\ forall f k t, f < F -> k < K ->
         data m3 [f; k; t]
         = (data m [f; k; t] / Rmax (Rsum T (fun t' => data m [f; k; t'])) 1e-6)%R.
Proof.
  intros Hm. unfold normalize_mask_old, ndim. rewrite Hm. cbn [length Nat.eqb rbind].
  unfold sum_keepdims, ndim. rewrite Hm. cbn [length].
  change (norm_axis 3 (-1)) with (Some 2). cbn [rbind set_nth firstn skipn app nth].
  unfold inplace2. cbn [amap shape]. rewrite Hm.
  change [F; K; T] with ([F; K] ++ [T]). change [F; K; 1] with ([F; K] ++ [1]).
  rewrite bshape_app, bdim_1_r, bshape_refl.
  destruct (list_eq_dec Nat.eq_dec ([F; K] ++ [T]) ([F; K] ++ [T])) as [_ | Hne];
    [| contradiction].
  cbn [rbind app].
  eexists. split; [reflexivity |]. split; [reflexivity |].
  intros f k t Hf Hk. cbn [data]. unfold bget, amap. cbn [shape data].
  change [F; K; 1] with ([F; K] ++ [1]). change [f; k; t] with ([f; k] ++ [t]).
  rewrite bidx_app, cl_1.
  rewrite (bidx_id [F; K] [f; k]) by (repeat constructor; assumption).
  cbn [app firstn skipn set_nth]. reflexivity.
Qed.

(** X23: the estimator that was replaced cannot keep several sources apart
    (its documentation says so): for an observation of shape
    (bins, sensors, frames) and a float mask of shape (bins, sources, frames)
    whose sums over the frames are at least [1e-6], it returns one matrix per
    bin, of shape (bins, sensors, sensors), which is the sum over the
    sources of the matrices that the new estimator returns. *)
Theorem psd_old_sums_sources (observation : ndarray C) (r : mref) (h : heap)
  (F K D T : nat) :
  shape observation = [F; D; T] ->
  shape (view r h) = [F; K; T] ->
  (forall f k, f < F -> k < K -> (1e-6 <= Rsum T (fun t => data (view r h) [f; k; t]))%R) ->
  exists psd_old h_old psd h',
    get_power_spectral_density_matrix_old observation (Some (MaskFloat r)) h
    = (Ok psd_old, h_old)
    /\ get_power_spectral_density_matrix observation (Some (MaskFloat r)) (-2) (-2) (-1) h
       = (Ok psd, h')
    /\ shape psd_old = [F; D; D]
    /\ shape psd = [F; K; D; D]
    /\ forall f d e, f < F -> d < D -> e < D ->
         data psd_old [f; d; e] = Csum K (fun k => data psd [f; k; d; e]).
Proof.
  intros Ho Hm Hsum.
  destruct (normalize_mask_old_3d (view r h) F K T Hm) as (m3 & Hnorm & Hs3 & Hd3).
  destruct (masked_psd_sources_formula observation (MaskFloat r) h [F] K D T Ho Hm)
    as (M & psd & HsM & HdM & Hpsd & Hsp & Hdp).
  cbn [mask_array mask_cell fst snd app] in *.
  assert (HM : forall f k t, f < F -> k < K -> data m3 [f; k; t] = data M [f; k; t]).
  { intros f k t Hf Hk. rewrite Hd3 by assumption.
    assert (E := HdM [f] k t ltac:(repeat constructor; assumption) Hk). cbn [app] in E.
    rewrite E. specialize (Hsum f k Hf Hk). rewrite !Rmax_left by lra. reflexivity. }
  assert (Hes : exists psd_old,
             einsum_ft_dt_et m3 observation (amap Cconj observation) = Ok psd_old
             /\ shape psd_old = [F; D; D]
             /\ forall f d e, f < F -> d < D -> e < D ->
                  data psd_old [f; d; e]
                  = Csum K (fun k =>
                              Csum T (fun t =>
                                        (RtoC (data m3 [f; k; t]) * data observation [f; d; t]
                                         * Cconj (data observation [f; e; t]))%C))).
  { unfold einsum_ft_dt_et. cbn [amap shape]. rewrite Hs3, Ho.
    change [F; K; T] with ([F] ++ [K; T]). change [F; D; T] with ([F] ++ [D; T]).
    rewrite !unsnoc2_app. unfold bshape3, bdim3. rewrite !bshape_refl, !bdim_refl.
    eexists. split; [reflexivity |]. split; [reflexivity |].
    intros f d e Hf Hd He. cbn [data app].
    change [f; d; e] with ([f] ++ [d; e]). rewrite unsnoc2_app. cbn [app].
    apply Csum_ext. intros k Hk. apply Csum_ext. intros t Ht.
    unfold bget, amap. cbn [shape data]. rewrite Hs3, Ho.
    rewrite (bidx_id [F; K; T] [f; k; t]) by (repeat constructor; assumption).
    rewrite !(bidx_id [F; D; T]) by (repeat constructor; assumption).
    reflexivity. }
  destruct Hes as (psd_old & Hes & Hso & Hdo).
  exists psd_old, (write r m3 h), psd, (write r M h).
  split.
  { unfold get_power_spectral_density_matrix_old, unpack3. rewrite Ho.
    unfold bind, lift, load, store. fold (view r h). rewrite Hnorm. cbn [fst snd].
    rewrite Hes. reflexivity. }
  split; [exact Hpsd |]. split; [exact Hso |]. split; [exact Hsp |].
  intros f d e Hf Hd He. rewrite Hdo by assumption.
  apply Csum_ext. intros k Hk.
  assert (E := Hdp [f] k d e ltac:(repeat constructor; assumption) Hk Hd He).
  cbn [app] in E. rewrite E. apply Csum_ext. intros t Ht. now rewrite HM.
Qed.

(** ** The loop that [get_pca_vector] replaced *)

(** [numpy.argmax] returns the index of a largest entry. *)
Lemma argmax_from_spec (l pre : list R) (best_i : nat) (best : R) :
  best_i < length pre -> nth best_i pre 0%R = best ->
  (forall k, k < length pre -> (nth k pre 0 <= best)%R) ->
  argmax_from Rltb best_i best (length pre) l < length (pre ++ l)
  /\ forall k, k < length (pre ++ l) ->
       (nth k (pre ++ l) 0 <= nth (argmax_from Rltb best_i best (length pre) l) (pre ++ l) 0)%R.
Proof.
  revert pre best_i best. induction l as [| x l IH]; intros pre best_i best Hi Hb Hmax.
  - cbn [argmax_from]. rewrite app_nil_r. split; [exact Hi |].
    intros k Hk. rewrite Hb. now apply Hmax.
  - cbn [argmax_from].
    replace (pre ++ x :: l) with ((pre ++ [x]) ++ l) by (now rewrite <- app_assoc).
    replace (S (length pre)) with (length (pre ++ [x]))
      by (rewrite length_app; simpl; lia).
    destruct (Rltb best x) eqn:E; unfold Rltb in E;
      destruct (Rlt_dec best x) as [Hlt | Hge]; try discriminate; clear E.
    + apply IH.
      * rewrite length_app. simpl. lia.
      * apply nth_middle.
      * intros k Hk. rewrite length_app in Hk. simpl in Hk.
        destruct (Nat.eq_dec k (length pre)) as [-> | Hne].
        -- rewrite nth_middle. lra.
        -- rewrite app_nth1 by lia. specialize (Hmax k ltac:(lia)). lra.
    + apply IH.
      * rewrite length_app. simpl. lia.
      * now rewrite app_nth1.
      * intros k Hk. rewrite length_app in Hk. simpl in Hk.
        destruct (Nat.eq_dec k (length pre)) as [-> | Hne].
        -- rewrite nth_middle. lra.
        -- rewrite app_nth1 by lia. apply Hmax. lia.
Qed.

Lemma argmax_spec (vals : list R) (j : nat) :
  argmax vals = Ok j ->
  j < length vals /\ forall k, k < length vals -> (nth k vals 0 <= nth j vals 0)%R.
Proof.
  unfold argmax, argmax_by. destruct vals as [| x l]; [discriminate |].
  intros H. inversion H as [Hj]. clear H.
  apply (argmax_from_spec l [x] 0 x); [simpl; lia | reflexivity |].
  intros k Hk. simpl in Hk. assert (k = 0) as -> by lia. simpl. lra.
Qed.

Lemma argmax_returns (vals : list R) : vals <> [] -> exists j, argmax vals = Ok j.
Proof.
  destruct vals as [| x l]; [intros H; now contradiction H |].
  intros _. eexists. reflexivity.
Qed.

Lemma Cnorm2_mult (a b : C) : Cnorm2 (a * b) = (Cnorm2 a * Cnorm2 b)%R.
Proof. destruct a, b. unfold Cnorm2, Cmult. cbn [fst snd]. ring. Qed.

Lemma Rsum_mult_l (n : nat) (c : R) (f : nat -> R) :
  Rsum n (fun i => (c * f i)%R) = (c * Rsum n f)%R.
Proof. induction n as [| n IH]; cbn [Rsum]; [ring | rewrite IH; ring]. Qed.

Lemma Rsum_zero (n : nat) (f : nat -> R) :
  (forall i, i < n -> f i = 0%R) -> Rsum n f = 0%R.
Proof.
  induction n as [| n IH]; intros H; cbn [Rsum]; [reflexivity |].
  rewrite IH, H by (intros; auto with arith). ring.
Qed.

Lemma unit_norm_nonzero (n : nat) (x : list C) : unit_norm n x -> nonzero n x.
Proof.
  intros Hu Hz. unfold unit_norm in Hu. rewrite Rsum_zero in Hu; [lra |].
  intros i Hi. rewrite (Hz i Hi). unfold Cnorm2, C0, RtoC. cbn [fst snd]. ring.
Qed.

(** Two normalized eigenvectors for a simple largest eigenvalue differ by
    a factor of modulus one. *)
Lemma principal_up_to_phase (n : nat) (A : matrix) (e e' : list R * matrix) (j j' : nat) :
  simple_top n A -> eigh_correct n A e -> eigh_correct n A e' ->
  argmax (fst e) = Ok j -> argmax (fst e') = Ok j' ->
  exists c, Cmod c = 1%R
            /\ forall i, i < n -> nth i (column (snd e') j') C0
                                  = (c * nth i (column (snd e) j) C0)%C.
Proof.
  intros Hsimple (Hlv & _ & Hcols & Hall) (Hlv' & _ & Hcols' & Hall') Hj Hj'.
  apply argmax_spec in Hj as [Hjlt Hjmax]. apply argmax_spec in Hj' as [Hjlt' Hjmax'].
  rewrite Hlv in Hjlt, Hjmax. rewrite Hlv' in Hjlt', Hjmax'.
  destruct (Hcols j Hjlt) as [Hev Hun]. destruct (Hcols' j' Hjlt') as [Hev' Hun'].
  pose proof (unit_norm_nonzero _ _ Hun) as Hnz.
  pose proof (unit_norm_nonzero _ _ Hun') as Hnz'.
  assert (Htop : forall vals k mu, length vals = n ->
            (forall i, i < n -> (nth i vals 0 <= nth k vals 0)%R) ->
            In mu vals -> (mu <= nth k vals 0)%R).
  { intros vals k mu Hl Hmax Hin. apply (In_nth _ _ 0%R) in Hin as (i & Hi & <-).
    apply Hmax. now rewrite <- Hl. }
  assert (Hle : (nth j (fst e) 0 <= nth j' (fst e') 0)%R)
    by (apply (Htop _ _ _ Hlv' Hjmax'), (Hall' _ _ Hev Hnz)).
  assert (Hge : (nth j' (fst e') 0 <= nth j (fst e) 0)%R)
    by (apply (Htop _ _ _ Hlv Hjmax), (Hall _ _ Hev' Hnz')).
  assert (Heq : nth j' (fst e') 0%R = nth j (fst e) 0%R) by lra.
  rewrite Heq in Hev'.
  destruct (Hsimple _ _ _ Hev' Hev Hnz) as (c & Hc).
  { intros mu z Hz Hnzz. apply (Htop _ _ _ Hlv Hjmax), (Hall _ _ Hz Hnzz). }
  exists c. split; [| exact Hc].
  unfold unit_norm in Hun, Hun'.
  rewrite (Rsum_ext n _ (fun i => (Cnorm2 c * Cnorm2 (nth i (column (snd e) j) C0))%R))
    in Hun' by (intros i Hi; now rewrite Hc, Cnorm2_mult).
  rewrite Rsum_mult_l, Hun, Rmult_1_r in Hun'.
  unfold Cmod. rewrite Hun'. apply sqrt_1.
Qed.

Section PcaOld.
Variable np_eigh sp_eigh1 : matrix -> result (list R * matrix).

Lemma pca_old_loop_ok (target : ndarray C) (D cols count : nat) (rows : list (list C)) :
  pca_old_loop sp_eigh1 target D cols count = Ok rows ->
  length rows = count
  /\ forall f, f < count -> pca_old_bin sp_eigh1 target D cols f = Ok (nth f rows []).
Proof.
  revert rows. induction count as [| c IH]; intros rows; cbn [pca_old_loop].
  - intros H. inversion H. split; [reflexivity |]. intros f Hf. lia.
  - intros H. apply rbind_ok in H as (rest & Hrest & H).
    apply rbind_ok in H as (v & Hv & H). inversion H; subst rows. clear H.
    destruct (IH rest Hrest) as [Hlen Hk].
    split; [rewrite length_app; simpl; lia |].
    intros f Hlt. destruct (Nat.eq_dec f c) as [-> | Hne].
    + rewrite <- Hlen, nth_middle. now rewrite Hlen.
    + rewrite app_nth1 by lia. apply Hk. lia.
Qed.

Lemma pca_old_loop_returns (target : ndarray C) (D cols count : nat) :
  (forall f, f < count -> exists v, pca_old_bin sp_eigh1 target D cols f = Ok v) ->
  exists rows, pca_old_loop sp_eigh1 target D cols count = Ok rows.
Proof.
  induction count as [| c IH]; intros H; cbn [pca_old_loop]; [now exists [] |].
  destruct IH as (rest & Hrest); [intros f Hf; apply H; lia |].
  destruct (H c ltac:(lia)) as (v & Hv). rewrite Hrest, Hv. cbn [rbind].
  eexists. reflexivity.
Qed.

(** X24: [get_pca_vector] agrees with the loop it replaced up to the phase
    of the eigenvectors.  The loop calls [scipy.linalg.eigh], the vectorized
    function [numpy.linalg.eigh].  For a PSD matrix of shape
    (bins, sensors, sensors) with at least one sensor, when each solver
    returns, for every bin, a decomposition as it documents and the largest
    eigenvalue of every bin is simple, both functions return vectors of
    shape (bins, sensors), and in every bin the old vector is the new one
    times a complex factor of modulus one. *)
Theorem pca_old_agrees_up_to_phase (target : ndarray C) (F D : nat) :
  shape target = [F; D; D] ->
  0 < D ->
  (forall f, f < F -> simple_top D (matrix_at target [f] D D)) ->
  (forall f, f < F ->
     exists e, np_eigh (matrix_at target [f] D D) = Ok e
               /\ eigh_correct D (matrix_at target [f] D D) e) ->
  (forall f, f < F ->
     exists e, sp_eigh1 (matrix_at target [f] D D) = Ok e
               /\ eigh_correct D (matrix_at target [f] D D) e) ->
  exists W W',
    get_pca_vector np_eigh target = Ok W
    /\ get_pca_vector_old sp_eigh1 target = Ok W'
    /\ shape W = [F; D] /\ shape W' = [F; D]
    /\ forall f, f < F ->
         exists c, Cmod c = 1%R
                   /\ forall d, d < D -> data W' [f; d] = (c * data W [f; d])%C.
Proof.
  intros Hs HD Hsimple Hnp Hsp.
  assert (Hnonempty : forall e : list R * matrix, length (fst e) = D -> fst e <> []).
  { intros e Hl E. rewrite E in Hl. simpl in Hl. lia. }
  (* the vectorized function *)
  destruct (pca_returns np_eigh target [F] D Hs HD) as (W & HW & HsW).
  { intros bi Hbi. inversion Hbi as [| f ? i1 ? Hf H1]; subst. inversion H1; subst.
    destruct (Hnp f Hf) as ([vals vecs] & He & Hl & _).
    exists vals, vecs. split; [exact He |]. now apply (Hnonempty (vals, vecs)). }
  destruct (pca_entries np_eigh target W [F] D D Hs HW) as (_ & _ & HdW).
  (* one pass of the loop *)
  assert (Hbin : forall f e j, f < F ->
            sp_eigh1 (matrix_at target [f] D D) = Ok e ->
            length (snd e) = D -> argmax (fst e) = Ok j ->
            pca_old_bin sp_eigh1 target D D f = Ok (column (snd e) j)).
  { intros f e j Hf He Hl Hj. unfold pca_old_bin. rewrite He. cbn [rbind].
    rewrite Hj. cbn [rbind]. unfold assign_row, column.
    now rewrite length_map, Hl, Nat.eqb_refl. }
  assert (Hall : forall f, f < F -> exists v, pca_old_bin sp_eigh1 target D D f = Ok v).
  { intros f Hf. destruct (Hsp f Hf) as (e & He & Hl & Hr & _).
    destruct (argmax_returns (fst e) (Hnonempty e Hl)) as (j & Hj).
    eexists. now apply (Hbin f e j). }
  destruct (pca_old_loop_returns target D D F Hall) as (rows & Hloop).
  destruct (pca_old_loop_ok target D D F rows Hloop) as [_ Hrow].
  exists W, (rows_array F D rows).
  split; [exact HW |].
  split; [unfold get_pca_vector_old; now rewrite Hs, Hloop |].
  split; [exact HsW |]. split; [reflexivity |].
  (* one bin *)
  intros f Hf.
  destruct (HdW [f] ltac:(repeat constructor; assumption))
    as (vals & vecs & j & He & Hj & Hdata).
  destruct (Hnp f Hf) as (e & He0 & Hc). rewrite He in He0. inversion He0; subst e.
  destruct (Hsp f Hf) as (e' & He' & Hc').
  pose proof Hc' as (Hl' & Hr' & _).
  destruct (argmax_returns (fst e') (Hnonempty e' Hl')) as (j' & Hj').
  specialize (Hrow f Hf). rewrite (Hbin f e' j' Hf He' Hr' Hj') in Hrow.
  inversion Hrow as [Hcol].
  destruct (principal_up_to_phase D (matrix_at target [f] D D) (vals, vecs) e' j j'
              (Hsimple f Hf) Hc Hc' Hj Hj')
    as (c & Hmod & Hc1).
  exists c. split; [exact Hmod |].
  intros d Hd. unfold rows_array. cbn [data nth]. rewrite <- Hcol.
  assert (E := Hdata d). cbn [app] in E. rewrite E. now apply Hc1.
Qed.

End PcaOld.

(** ** A boolean mask selects frames *)

Lemma Rsum_count (n : nat) (f : nat -> bool) :
  Rsum n (fun t => bool_to_R (f t)) = INR (count_true n f).
Proof.
  induction n as [| n IH]; [reflexivity |].
  cbn [Rsum count_true]. rewrite IH, plus_INR. destruct (f n); simpl; lra.
Qed.

Lemma count_true_pos (n : nat) (f : nat -> bool) (t : nat) :
  t < n -> f t = true -> 0 < count_true n f.
Proof.
  induction n as [| n IH]; intros Ht Hf; [lia |]. cbn [count_true].
  destruct (Nat.eq_dec t n) as [-> | Hne]; [rewrite Hf; lia |].
  assert (0 < count_true n f) by (apply IH; [lia | assumption]). lia.
Qed.

(** X25: a boolean mask of shape (..., frames) that selects at least one
    frame at every leading index gives the mean of [x_t x_t^H] over the
    selected frames,
    [PSD[..., d, e] = (sum over selected t of obs[..., d, t] * conj(obs[..., e, t])) / count],
    and the call changes no array that the caller holds. *)
Theorem psd_boolean_mask_mean (observation : ndarray C) (a : ndarray bool) (h : heap)
  (b : list nat) (D T : nat) :
  shape observation = b ++ [D; T] ->
  shape a = b ++ [T] ->
  (forall bi, in_shape b bi -> exists t, t < T /\ data a (bi ++ [t]) = true) ->
  exists psd h',
    get_power_spectral_density_matrix observation (Some (MaskBool a)) (-2) (-2) (-1) h
    = (Ok psd, h')
    /\ (forall l, l < next_loc h -> cells h' l = cells h l)
    /\ shape psd = b ++ [D; D]
    /\ forall bi d e, in_shape b bi -> d < D -> e < D ->
         data psd (bi ++ [d; e])
         = (Csum T (fun t => if data a (bi ++ [t])
                             then (data observation (bi ++ [d; t])
                                   * Cconj (data observation (bi ++ [e; t])))%C
                             else C0)
            / RtoC (INR (count_true T (fun t => data a (bi ++ [t])))))%C.
Proof.
  intros Hs Ha Hsel.
  destruct (masked_psd_formula observation (MaskBool a) h b D T Hs Ha)
    as (M & psd & _ & HsM & HdM & Hpsd & Hsp & Hdp).
  exists psd. eexists. split; [exact Hpsd |]. split.
  { intros l Hl. cbn [mask_cell fst snd]. unfold write. cbn [cells ref_loc ref_T].
    rewrite !upd_other by lia. reflexivity. }
  split; [exact Hsp |].
  intros bi d e Hbi Hd He. rewrite Hdp by assumption.
  unfold Cdiv. rewrite Cinv_RtoC, Csum_mult_r. apply Csum_ext. intros t Ht.
  rewrite HdM by assumption. cbn [mask_array amap data].
  rewrite (Rsum_count T (fun t' => data a (bi ++ [t']))).
  destruct (Hsel bi Hbi) as (t0 & Ht0 & Hsel0).
  pose proof (count_true_pos T (fun t' => data a (bi ++ [t'])) t0 Ht0 Hsel0) as Hc.
  apply INR_ge_1 in Hc. rewrite Rmax_left by lra.
  set (n := INR (count_true T (fun t' => data a (bi ++ [t'])))) in *.
  destruct (data a (bi ++ [t])); cbn [bool_to_R].
  - replace (1 / n)%R with (/ n)%R by (field; lra).
    rewrite <- Cmult_assoc, (Cmult_comm (RtoC (/ n))). reflexivity.
  - replace (0 / n)%R with 0%R by (field; lra).
    fold C0. now rewrite !Cmult_0_l.
Qed.

(** ** Normalizing the vector rescales the beamformed signal *)

(** The normalized vector is the vector with a real gain on every bin. *)
Lemma ban_is_gain (vector noise out : ndarray C) (F D : nat) :
  shape vector = [F; D] ->
  blind_analytic_normalization vector noise = Ok out ->
  exists gain : nat -> R,
    shape out = [F; D]
    /\ forall f d, f < F -> d < D ->
         data out [f; d] = (data vector [f; d] * RtoC (gain f))%C.
Proof.
  intros Hv. unfold blind_analytic_normalization. rewrite Hv.
  intros H. apply rbind_ok in H as (normalization & _ & H).
  unfold bmap2 in H. cbn [shape] in H. rewrite Hv in H.
  change [F; D] with ([F] ++ [D]) in H. change [F; 1] with ([F] ++ [1]) in H.
  rewrite bshape_app, bdim_1_r, bshape_refl in H. inversion H; subst out. clear H.
  exists (fun f => nth f normalization 0%R). split; [reflexivity |].
  intros f d Hf Hd. cbn [data]. unfold bget. cbn [shape data]. rewrite Hv.
  rewrite (bidx_id [F; D] [f; d]) by (repeat constructor; assumption).
  change ([F] ++ [1]) with [F; 1]. change ([f] ++ [d]) with [f; d].
  replace (bidx [F; 1] [f; d]) with [f; 0]; [reflexivity |].
  change [F; 1] with ([F] ++ [1]). change [f; d] with ([f] ++ [d]).
  rewrite bidx_app, cl_1. rewrite (bidx_id [F] [f]) by (repeat constructor; assumption).
  reflexivity.
Qed.

Lemma apply_vector_entries (vector mix : ndarray C) (F D T : nat) :
  shape vector = [F; D] -> shape mix = [F; D; T] ->
  exists out,
    apply_beamforming_vector vector mix = Ok out
    /\ shape out = [F; T]
    /\ forall f t, f < F -> t < T ->
         data out [f; t]
         = Csum D (fun a => (Cconj (data vector [f; a]) * data mix [f; a; t])%C).
Proof.
  intros Hv Hm. unfold apply_beamforming_vector, einsum_a_at. cbn [amap shape].
  rewrite Hv, Hm. change [F; D] with ([F] ++ [D]). change [F; D; T] with ([F] ++ [D; T]).
  rewrite unsnoc_app, unsnoc2_app, bshape_refl, bdim_refl.
  eexists. split; [reflexivity |]. split; [reflexivity |].
  intros f t Hf Ht. cbn [data]. change [f; t] with ([f] ++ [t]). rewrite unsnoc_app.
  apply Csum_ext. intros a Ha. unfold bget, amap. cbn [shape data app]. rewrite Hv, Hm.
  rewrite (bidx_id [F; D] [f; a]) by (repeat constructor; assumption).
  rewrite (bidx_id [F; D; T] [f; a; t]) by (repeat constructor; assumption).
  reflexivity.
Qed.

(** X26: blind analytic normalization only rescales the beamformed signal.
    For a vector of shape (bins, sensors) and a mix of shape
    (bins, sensors, frames), when the normalization returns, applying the
    normalized vector gives, in every bin, the signal of the vector itself
    times one real gain for that bin. *)
Theorem ban_rescales_output (vector noise normalized mix : ndarray C) (F D T : nat) :
  shape vector = [F; D] -> shape mix = [F; D; T] ->
  blind_analytic_normalization vector noise = Ok normalized ->
  exists out out_n (gain : nat -> R),
    apply_beamforming_vector vector mix = Ok out
    /\ apply_beamforming_vector normalized mix = Ok out_n
    /\ shape out = [F; T] /\ shape out_n = [F; T]
    /\ forall f t, f < F -> t < T ->
         data out_n [f; t] = (RtoC (gain f) * data out [f; t])%C.
Proof.
  intros Hv Hm Hban.
  destruct (ban_is_gain vector noise normalized F D Hv Hban) as (gain & Hsn & Hdn).
  destruct (apply_vector_entries vector mix F D T Hv Hm) as (out & Hout & Hso & Hdo).
  destruct (apply_vector_entries normalized mix F D T Hsn Hm) as (out_n & Houtn & Hson & Hdon).
  exists out, out_n, gain.
  split; [exact Hout |]. split; [exact Houtn |]. split; [exact Hso |]. split; [exact Hson |].
  intros f t Hf Ht. rewrite Hdo, Hdon, Csum_mult_l by assumption.
  apply Csum_ext. intros a Ha. rewrite Hdn by assumption.
  rewrite Cconj_mult, Cconj_RtoC.
  rewrite (Cmult_comm (Cconj (data vector [f; a]))), <- Cmult_assoc. reflexivity.
Qed.

(** ** The further properties on concrete inputs *)

Lemma psd_masked_value_witness :
  exists M psd,
    shape M = [2]
    /\ get_power_spectral_density_matrix two_frames (Some ones_mask) (-2) (-2) (-1) ones_heap
       = (Ok psd, write (mkref 0 false) M ones_heap)
    /\ shape psd = [1; 1].
Proof.
  destruct (psd_masked_value two_frames ones_mask ones_heap [] 1 2 eq_refl eq_refl)
    as (M & psd & HsM & _ & Hpsd & Hs & _).
  exists M, psd. split; [exact HsM |]. split; [exact Hpsd | exact Hs].
Defined.

Lemma psd_unmasked_value_witness :
  exists psd,
    get_power_spectral_density_matrix two_frames None (-2) (-2) (-1) ones_heap
    = (Ok psd, ones_heap)
    /\ shape psd = [1; 1].
Proof.
  destruct (psd_unmasked_value two_frames ones_heap [] 1 2 eq_refl ltac:(lia))
    as (psd & Hpsd & Hs & _).
  exists psd. split; [exact Hpsd | exact Hs].
Defined.

Lemma psd_positive_semidefinite_witness :
  exists psd h',
    get_power_spectral_density_matrix two_frames (Some ones_mask) (-2) (-2) (-1) ones_heap
    = (Ok psd, h')
    /\ (0 <= fst (quadratic_form 1 psd [] (fun _ => C1)))%R.
Proof.
  destruct (psd_positive_semidefinite two_frames ones_mask ones_heap [] 1 2 eq_refl eq_refl)
    as (psd & h' & Hpsd & Hq).
  - intros idx _. cbn. lra.
  - exists psd, h'. split; [exact Hpsd |].
    apply (Hq [] (fun _ => C1)). constructor.
Defined.

Lemma psd_second_call_witness :
  exists psd h' psd' h'',
    get_power_spectral_density_matrix two_frames (Some ones_mask) (-2) (-2) (-1) ones_heap
    = (Ok psd, h')
    /\ get_power_spectral_density_matrix two_frames (Some ones_mask) (-2) (-2) (-1) h'
       = (Ok psd', h'')
    /\ arr_eq psd' psd.
Proof.
  destruct (psd_second_call two_frames (mkref 0 false) ones_heap [] 1 2 eq_refl eq_refl)
    as (psd & h' & psd' & h'' & H1 & _ & H2 & Heq & _).
  - intros bi _. cbn. lra.
  - exists psd, h', psd', h''. split; [exact H1 |]. split; [exact H2 | exact Heq].
Defined.

Lemma psd_frames_mismatch_witness :
  exists M,
    get_power_spectral_density_matrix two_frames (Some ones_mask) (-2) (-2) (-1)
                                      three_frames_heap
    = (Raise (ValueError "operands could not be broadcast together"),
       write (mkref 0 false) M three_frames_heap).
Proof.
  destruct (psd_frames_mismatch two_frames (mkref 0 false) three_frames_heap [] 1 2 3
                                eq_refl eq_refl ltac:(lia) ltac:(lia) ltac:(lia))
    as (M & _ & H & _).
  exists M. exact H.
Defined.

Lemma psd_rejects_equal_axes_witness :
  get_power_spectral_density_matrix two_frames (Some ones_mask) (-1) (-2) 1 ones_heap
  = (Raise (ValueError "axes don't match array"), ones_heap).
Proof.
  apply (psd_rejects_equal_axes two_frames (Some ones_mask) (-1) (-2) 1 ones_heap).
  - discriminate.
  - reflexivity.
Defined.

Lemma pca_vector_entries_witness :
  exists W,
    get_pca_vector unit_eigh unit_cube = Ok W
    /\ shape W = [1; 1].
Proof.
  eexists. split; [reflexivity |].
  exact (proj1 (proj2 (pca_vector_entries unit_eigh unit_cube _ [1] 1 1 eq_refl eq_refl))).
Defined.

Lemma pca_vector_returns_witness :
  exists W, get_pca_vector unit_eigh unit_cube = Ok W /\ shape W = [1; 1].
Proof.
  apply (pca_vector_returns unit_eigh unit_cube [1] 1 eq_refl ltac:(lia)).
  intros bi _. exists [1%R], [[C1]]. split; [reflexivity | discriminate].
Defined.

Lemma mvdr_passes_source_witness :
  exists w out,
    get_mvdr_vector gesv_ref unit_row unit_cube = Ok w
    /\ apply_beamforming_vector w unit_cube = Ok out
    /\ shape out = [1; 1]
    /\ data out [0; 0] = C1.
Proof.
  destruct unit_mvdr_run as (numerator & denominator & Hnum & Hden & Hnz).
  destruct (mvdr_passes_source gesv_ref unit_row unit_cube unit_cube numerator denominator
                               (fun _ _ => C1) [] 1 1 1 eq_refl eq_refl eq_refl Hnum Hden Hnz)
    as (w & out & Hw & Hout & Hs & Hd).
  - intros bi d t _ _ _. symmetry. apply Cmult_1_l.
  - exists w, out. split; [exact Hw |]. split; [exact Hout |]. split; [exact Hs |].
    apply (Hd [0] 0); [repeat constructor | lia].
Defined.

Lemma mvdr_raises_iff_singular_witness :
  (exists w, get_mvdr_vector gesv_ref unit_row unit_cube = Ok w /\ shape w = [1; 1])
  <-> forall f, f < 1 -> nonsingular 1 (hermitian_part unit_cube f 1).
Proof.
  apply (mvdr_raises_iff_singular gesv_ref gesv_ref_exact unit_row unit_cube [] [] 1 1
                                  eq_refl eq_refl).
  constructor.
Defined.

Lemma unit_ban_forms (f : nat) :
  ban_numerator 1 unit_row unit_cube f <> C0 /\ ban_denominator 1 unit_row unit_cube f <> C0.
Proof.
  unfold ban_numerator, ban_denominator. cbn [Csum unit_row unit_cube data].
  unfold Cplus, Cmult, Cconj, C0, C1, RtoC. cbn [fst snd].
  split; intros E; inversion E; lra.
Qed.

Lemma ban_removes_gain_witness :
  exists out out',
    blind_analytic_normalization unit_row unit_cube = Ok out
    /\ blind_analytic_normalization double_row unit_cube = Ok out'
    /\ arr_eq out' out.
Proof.
  apply (ban_removes_gain double_row unit_row unit_cube (fun _ => 2%R) 1 1
                          eq_refl eq_refl eq_refl).
  - intros f _. lra.
  - intros f d _ _. reflexivity.
  - intros f _. apply unit_ban_forms.
Defined.

Lemma ban_noise_scale_invariant_witness :
  exists out out',
    blind_analytic_normalization unit_row unit_cube = Ok out
    /\ blind_analytic_normalization unit_row double_cube = Ok out'
    /\ arr_eq out' out.
Proof.
  apply (ban_noise_scale_invariant unit_row double_cube unit_cube 2 1 1
                                   eq_refl eq_refl eq_refl).
  - lra.
  - intros f i j _ _ _. reflexivity.
  - intros f _. apply unit_ban_forms.
Defined.

Lemma ban_idempotent_witness :
  exists out out2,
    blind_analytic_normalization unit_row unit_cube = Ok out
    /\ blind_analytic_normalization out unit_cube = Ok out2
    /\ arr_eq out2 out.
Proof.
  apply (ban_idempotent unit_row unit_cube 1 1 eq_refl eq_refl).
  - intros f _. apply unit_ban_forms.
  - intros f _. apply unit_ban_forms.
Defined.

Lemma wrappers_reject_non_3d_mix_witness :
  exists h',
    pca_wrapper_on_masks unit_eigh two_frames (Some ones_mask) None ones_heap
    = (Raise (ValueError "not enough or too many values to unpack"), h')
    /\ forall l, l < next_loc ones_heap -> cells h' l = cells ones_heap l.
Proof.
  apply (wrappers_reject_non_3d_mix gesv_ref unit_eigh failing_eigh unit_eig two_frames
                                    (Some ones_mask) None false None ones_heap).
  - discriminate.
  - left. discriminate.
Defined.

(** A run of the PCA wrapper on the mix of two frames and two sensors. *)
Lemma bug_pca_wrapper_run :
  exists out h',
    pca_wrapper_on_masks eigh_e1 bug_mix None (Some bug_target) bug_heap = (Ok out, h').
Proof.
  destruct bug_target_psd as (Mt & psd_t & Ht & Hst & Hmt).
  destruct (bug_pca_vector psd_t Hst) as (W & HW & HsW & HW0 & HW1).
  destruct (bug_apply W HsW) as (out & Hout & Hdout).
  exists (transposeT out), (write (mkref 0 true) Mt bug_heap).
  unfold pca_wrapper_on_masks. cbn [option_map or_complement bug_target].
  unfold bind at 1. unfold ret at 1.
  unfold bind at 1. unfold lift at 1. cbn [unpack3 transposeT bug_mix shape rev app].
  unfold bind at 1. fold bug_mix. fold bug_target.
  change (mkarr [1; 2; 2] (fun idx => data bug_mix (rev idx))) with (transposeT bug_mix).
  change (MaskFloat (mkref (ref_loc (mkref 0 false)) (negb (ref_T (mkref 0 false)))))
    with (mask_T bug_target).
  rewrite Ht. unfold bind, lift, ret. rewrite HW, Hout. reflexivity.
Qed.

Lemma pca_wrapper_store_witness :
  exists out h' M,
    pca_wrapper_on_masks eigh_e1 bug_mix None (Some bug_target) bug_heap = (Ok out, h')
    /\ normalized (view (mkref 0 true) bug_heap) (-1) = Ok M
    /\ arr_eq (view (mkref 0 true) h') M.
Proof.
  destruct bug_pca_wrapper_run as (out & h' & Hrun).
  destruct (pca_wrapper_store eigh_e1 bug_mix None (Some bug_target) bug_heap h' out Hrun)
    as (M & HM & Hview & _).
  exists out, h', M. split; [exact Hrun |]. split; [exact HM | exact Hview].
Defined.

Lemma psd_mask_scale_invariant_witness :
  exists psd h1 psd' h2,
    get_power_spectral_density_matrix two_frames (Some true_mask) (-2) (-2) (-1) twos_heap
    = (Ok psd, h1)
    /\ get_power_spectral_density_matrix two_frames (Some ones_mask) (-2) (-2) (-1) twos_heap
       = (Ok psd', h2)
    /\ arr_eq psd' psd.
Proof.
  apply (psd_mask_scale_invariant two_frames true_mask ones_mask twos_heap 2 [] 1 2
                                  eq_refl eq_refl eq_refl).
  - lra.
  - intros idx _. cbn. lra.
  - intros bi _. cbn. lra.
Defined.

Lemma lcmv_meets_response_witness :
  exists w,
    get_lcmv_vector gesv_ref target_pair mixed_response identity_noise = Ok w
    /\ shape w = [1; 2]
    /\ Csum 2 (fun d => (Cconj (data target_pair [0; 0; d]) * data w [0; d])%C) = RtoC 2
    /\ Csum 2 (fun d => (Cconj (data target_pair [1; 0; d]) * data w [0; d])%C) = RtoC 3.
Proof.
  destruct (pair_lcmv_run mixed_response eq_refl) as (w & Hw).
  destruct (lcmv_meets_response gesv_ref target_pair mixed_response identity_noise w 2 1 2
                                gesv_ref_sound eq_refl eq_refl eq_refl Hw)
    as (Hs & Hc).
  exists w. split; [exact Hw |]. split; [exact Hs |].
  split; [exact (Hc 0 0 ltac:(lia) ltac:(lia)) | exact (Hc 0 1 ltac:(lia) ltac:(lia))].
Defined.

Lemma psd_multi_source_value_witness :
  exists M psd,
    get_power_spectral_density_matrix two_frames (Some ones_mask) (-2) (-2) (-1) source_heap
    = (Ok psd, write (mkref 0 false) M source_heap)
    /\ shape psd = [1; 1; 1].
Proof.
  destruct (psd_multi_source_value two_frames ones_mask source_heap [] 1 1 2 eq_refl eq_refl)
    as (M & psd & _ & _ & Hpsd & Hs & _).
  exists M, psd. split; [exact Hpsd | exact Hs].
Defined.

Lemma psd_source_axis_first_witness :
  exists M psd,
    get_power_spectral_density_matrix unit_cube (Some ones_mask) (-2) 0 (-1) cube_heap
    = (Ok psd, write (mkref 0 false) M cube_heap)
    /\ shape psd = [1; 1; 1; 1].
Proof.
  destruct (psd_source_axis_first unit_cube ones_mask cube_heap 1 1 1 1 eq_refl eq_refl)
    as (M & psd & _ & _ & Hpsd & Hs & _).
  exists M, psd. split; [exact Hpsd | exact Hs].
Defined.

Lemma mvdr_old_agrees_witness :
  exists w w',
    get_mvdr_vector gesv_ref unit_row unit_cube = Ok w
    /\ get_mvdr_vector_old gesv_ref unit_row unit_cube = Ok w'
    /\ arr_eq w' w.
Proof.
  destruct unit_mvdr_run as (numerator & denominator & Hnum & Hden & _).
  destruct (mvdr_vector_entries gesv_ref unit_row unit_cube numerator denominator [] 1 1
                                eq_refl eq_refl Hnum Hden)
    as (_ & _ & _ & w & Hw & _).
  pose proof (mvdr_old_agrees gesv_ref unit_row unit_cube 1 1 eq_refl eq_refl) as H.
  rewrite Hw in H. destruct H as (w' & Hw' & Heq).
  exists w, w'. split; [exact Hw |]. split; [exact Hw' | exact Heq].
Defined.

Lemma psd_old_agrees_witness :
  exists psd_old h_old psd h',
    get_power_spectral_density_matrix_old unit_cube (Some ones_mask) unit_mask_heap
    = (Ok psd_old, h_old)
    /\ get_power_spectral_density_matrix unit_cube (Some ones_mask) (-2) (-2) (-1)
                                         unit_mask_heap
       = (Ok psd, h')
    /\ arr_eq psd_old psd.
Proof.
  destruct (psd_old_agrees unit_cube (mkref 0 false) unit_mask_heap 1 1 1 eq_refl eq_refl)
    as (psd_old & h_old & psd & h' & H1 & H2 & Heq & _).
  - intros f _. cbn. lra.
  - exists psd_old, h_old, psd, h'. split; [exact H1 |]. split; [exact H2 | exact Heq].
Defined.

Lemma psd_old_agrees_unmasked_witness :
  exists psd_old psd,
    get_power_spectral_density_matrix_old unit_cube None ones_heap = (Ok psd_old, ones_heap)
    /\ get_power_spectral_density_matrix unit_cube None (-2) (-2) (-1) ones_heap
       = (Ok psd, ones_heap)
    /\ arr_eq psd_old psd.
Proof.
  apply (psd_old_agrees_unmasked unit_cube ones_heap 1 1 1 eq_refl). lia.
Defined.

Lemma psd_old_sums_sources_witness :
  exists psd_old h_old psd h',
    get_power_spectral_density_matrix_old unit_cube (Some ones_mask) cube_heap
    = (Ok psd_old, h_old)
    /\ get_power_spectral_density_matrix unit_cube (Some ones_mask) (-2) (-2) (-1) cube_heap
       = (Ok psd, h')
    /\ data psd_old [0; 0; 0] = Csum 1 (fun k => data psd [0; k; 0; 0]).
Proof.
  destruct (psd_old_sums_sources unit_cube (mkref 0 false) cube_heap 1 1 1 1 eq_refl eq_refl)
    as (psd_old & h_old & psd & h' & H1 & H2 & _ & _ & Hd).
  - intros f k _ _. cbn. lra.
  - exists psd_old, h_old, psd, h'. split; [exact H1 |]. split; [exact H2 |].
    apply Hd; lia.
Defined.

(** The matrix [[1]] and its decompositions [([1], [[1]])] and
    [([1], [[-1]])]. *)
Lemma unit_eigenvalue (mu : R) (x : list C) :
  eigenvector 1 [[C1]] mu x -> nonzero 1 x -> mu = 1%R.
Proof.
  intros [Hl Hx] Hnz. destruct x as [| [a b] [| ? ?]]; try discriminate.
  specialize (Hx 0 ltac:(lia)). unfold mulmv in Hx. cbn [Csum nth] in Hx.
  unfold Cplus, Cmult, C0, C1, RtoC in Hx. cbn [fst snd] in Hx. inversion Hx as [[Ha Hb]].
  destruct (Req_dec mu 1) as [E | E]; [exact E |].
  exfalso. apply Hnz. intros i Hi. assert (i = 0) as -> by lia. cbn [nth].
  unfold C0, RtoC. f_equal; nra.
Qed.

Lemma unit_eigh_correct (s : R) :
  (s * s = 1)%R -> eigh_correct 1 [[C1]] ([1%R], [[RtoC s]]).
Proof.
  intros Hs. split; [reflexivity |]. split; [reflexivity |]. split.
  - intros j Hj. assert (j = 0) as -> by lia. split.
    + split; [reflexivity |]. intros i Hi. assert (i = 0) as -> by lia.
      unfold mulmv, column. cbn [Csum nth map fst snd].
      unfold Cplus, Cmult, C0, C1, RtoC. cbn [fst snd nth map]. apply f_equal2; ring.
    + unfold unit_norm, column. cbn [Rsum nth map fst snd]. unfold Cnorm2, RtoC.
      cbn [fst snd]. lra.
  - intros mu x Hx Hnz. left. symmetry. now apply (unit_eigenvalue mu x).
Qed.

Lemma unit_simple_top : simple_top 1 [[C1]].
Proof.
  intros lam x y [Hlx _] [Hly _] Hnz _.
  destruct x as [| x0 [| ? ?]]; try discriminate.
  destruct y as [| y0 [| ? ?]]; try discriminate.
  assert (Hy0 : y0 <> C0).
  { intros E. apply Hnz. intros i Hi. assert (i = 0) as -> by lia. exact E. }
  exists (x0 / y0)%C. intros i Hi. assert (i = 0) as -> by lia. cbn [nth].
  unfold Cdiv. rewrite <- Cmult_assoc, (Cmult_comm (Cinv y0)), (Cinv_r y0 Hy0).
  now rewrite Cmult_1_r.
Qed.

Lemma pca_old_agrees_up_to_phase_witness :
  exists W W',
    get_pca_vector unit_eigh unit_cube = Ok W
    /\ get_pca_vector_old neg_unit_eigh unit_cube = Ok W'
    /\ exists c, Cmod c = 1%R /\ data W' [0; 0] = (c * data W [0; 0])%C.
Proof.
  destruct (pca_old_agrees_up_to_phase unit_eigh neg_unit_eigh unit_cube 1 1 eq_refl
                                       ltac:(lia))
    as (W & W' & HW & HW' & _ & _ & Hphase).
  - intros f _. exact unit_simple_top.
  - intros f _. exists ([1%R], [[C1]]). split; [reflexivity |].
    apply (unit_eigh_correct 1). lra.
  - intros f _. exists ([1%R], [[RtoC (-1)]]). split; [reflexivity |].
    apply (unit_eigh_correct (-1)). lra.
  - exists W, W'. split; [exact HW |]. split; [exact HW' |].
    destruct (Hphase 0 ltac:(lia)) as (c & Hmod & Hd).
    exists c. split; [exact Hmod | apply Hd; lia].
Defined.

Lemma psd_boolean_mask_mean_witness :
  exists psd h',
    get_power_spectral_density_matrix two_frames (Some true_mask) (-2) (-2) (-1) ones_heap
    = (Ok psd, h')
    /\ shape psd = [1; 1].
Proof.
  destruct (psd_boolean_mask_mean two_frames (mkarr [2] (fun _ => true)) ones_heap
                                  [] 1 2 eq_refl eq_refl)
    as (psd & h' & Hrun & _ & Hs & _).
  - intros bi _. exists 0. split; [lia | reflexivity].
  - exists psd, h'. split; [exact Hrun | exact Hs].
Defined.

Lemma ban_rescales_output_witness :
  exists normalized out out_n (gain : nat -> R),
    blind_analytic_normalization unit_row unit_cube = Ok normalized
    /\ apply_beamforming_vector unit_row unit_cube = Ok out
    /\ apply_beamforming_vector normalized unit_cube = Ok out_n
    /\ data out_n [0; 0] = (RtoC (gain 0) * data out [0; 0])%C.
Proof.
  destruct (ban_entries unit_row unit_cube 1 1 eq_refl eq_refl) as (normalized & Hn & _).
  destruct (ban_rescales_output unit_row unit_cube normalized unit_cube 1 1 1
                                eq_refl eq_refl Hn)
    as (out & out_n & gain & Ho & Hon & _ & _ & Hd).
  exists normalized, out, out_n, gain.
  split; [exact Hn |]. split; [exact Ho |]. split; [exact Hon |].
  apply Hd; lia.
Defined.
